(** * Cynthia MIDI file player: the playback scheduling engine

    A shallow embedding of [MIDIPlayer] from
    [Software/For MIDI Files Playback/cynthia_file_player.py]:
    the flattener [_flatten], the volume transform [_apply_volume], the
    seek index search [_find_index], the transport commands ([load],
    [play], [pause], [stop], [seek], [set_volume], [skip]) and the pacing
    loop [_run].

    Python [float] is IEEE 754 binary64 and is modelled by Rocq's primitive
    [float] (the same format, specified by [SpecFloat] through
    [FloatAxioms]); Python [int] is [Z]; [bytes] is [list byte]. *)

From Stdlib Require Import ZArith List Bool Lia Floats Sorted Permutation.
From Stdlib Require DecimalN DecimalPos.
From Stdlib.Strings Require Import Byte.
Import ListNotations.

Local Open Scope Z_scope.

(** ** Exceptions and the error monad *)

(** The exceptions the modelled code can raise. [FileError] stands for
    whatever [mido.MidiFile(path)] raises on an unreadable or malformed
    file ([OSError], [EOFError], [ValueError], ...). *)
Inductive exn : Type :=
| ZeroDivisionError
| OverflowError
| ValueError
| FileError (code : Z).

Definition result (A : Type) : Type := exn + A.

Definition ret {A} (a : A) : result A := inr a.
Definition raise {A} (e : exn) : result A := inl e.
Definition bind {A B} (m : result A) (k : A -> result B) : result B :=
  match m with
  | inl e => inl e
  | inr a => k a
  end.

Notation "x <- m ;; k" := (bind m (fun x => k))
  (at level 61, m at next level, right associativity).

(** ** Python numbers *)

Module Py.

(** An [int] as an (unrounded, mantissa-exponent) binary number. *)
Definition Z2SF (z : Z) : spec_float :=
  match z with
  | Z0 => S754_zero false
  | Zpos p => S754_finite false p 0
  | Zneg p => S754_finite true p 0
  end.

(** [float(z)], the conversion [int * float] applies to its left
    operand: round to nearest, ties to even; [OverflowError] when the
    integer is too large for a double. *)
Definition float_of_int (z : Z) : result float :=
  match binary_normalize prec emax z 0 false with
  | S754_infinity _ => raise OverflowError
  | sf => ret (SF2Prim sf)
  end.

(** [a / b] on two [int]s: true division, the correctly rounded
    quotient. *)
Definition int_truediv (a b : Z) : result float :=
  if b =? 0 then raise ZeroDivisionError
  else match SFdiv prec emax (Z2SF a) (Z2SF b) with
       | S754_infinity _ => raise OverflowError
       | sf => ret (SF2Prim sf)
       end.

(** [z * f] with [z : int] and [f : float]. *)
Definition int_mul_float (z : Z) (f : float) : result float :=
  x <- float_of_int z ;; ret (x * f)%float.

(** [int(f)]: truncation toward zero; [ValueError] on NaN,
    [OverflowError] on an infinity. *)
Definition int_of_float (f : float) : result Z :=
  match Prim2SF f with
  | S754_zero _ => ret 0
  | S754_nan => raise ValueError
  | S754_infinity _ => raise OverflowError
  | S754_finite s m e =>
      let q := match e with
               | Zneg p => Z.pos m / 2 ^ Z.pos p
               | _ => Z.pos m * 2 ^ e
               end in
      ret (if s then - q else q)
  end.

(** [max(a, b)] is [b if b > a else a], [min(a, b)] is
    [b if b < a else a]; on floats the comparison is IEEE's, false on
    NaN. *)
Definition fmax (a b : float) : float := if (a <? b)%float then b else a.
Definition fmin (a b : float) : float := if (b <? a)%float then b else a.

(** [time.sleep(secs)], as far as it raises: [ValueError] on NaN
    ("Invalid value NaN") and on a negative delay, [OverflowError] on an
    infinite one. What it does otherwise is to let time pass, which is
    the scheduler's part. (A finite delay too long for the clock type
    overflows too; the pacing loop never asks for more than 0.005.) *)
Definition time_sleep (secs : float) : result unit :=
  match Prim2SF secs with
  | S754_nan => raise ValueError
  | S754_infinity _ => raise OverflowError
  | _ => if (secs <? 0)%float then raise ValueError else ret tt
  end.

End Py.

(** ** The data model *)

(** A message of a parsed track, as [_flatten] looks at it. *)
Inductive msg_body : Type :=
| MetaSetTempo (tempo : N)       (* is_meta, type == "set_tempo" *)
| MetaOther                      (* any other meta message *)
| Message (raw : list byte)      (* msg.bytes() *)
| NoBytes.                       (* not meta and no [bytes] attribute *)

Record msg : Type := { time : Z; body : msg_body }.

Record MidiFile : Type := { ticks_per_beat : Z; tracks : list (list msg) }.

(** [(abs_time_s, raw_bytes)] *)
Definition timed_event : Type := (float * list byte)%type.

(** ** The flattener *)

(** Steps 1 and 2: the inner loop of the merge, for one track. *)
Fixpoint abs_ticks (abs_tick : Z) (track : list msg) : list (Z * msg) :=
  match track with
  | [] => []
  | m :: rest =>
      let abs_tick := abs_tick + time m in
      (abs_tick, m) :: abs_ticks abs_tick rest
  end.

Definition merge_tracks (tracks : list (list msg)) : list (Z * msg) :=
  flat_map (abs_ticks 0) tracks.

(** [merged.sort(key=lambda x: x[0])]: Python's sort is stable, and a
    list has exactly one stable sorted arrangement; straight insertion
    computes it. *)
Fixpoint insert_tick (x : Z * msg) (l : list (Z * msg)) : list (Z * msg) :=
  match l with
  | [] => [x]
  | y :: l' => if fst x <=? fst y then x :: y :: l' else y :: insert_tick x l'
  end.

Fixpoint sort_ticks (l : list (Z * msg)) : list (Z * msg) :=
  match l with
  | [] => []
  | x :: l' => insert_tick x (sort_ticks l')
  end.

(** Step 3: the walk over the merged list. The locals the loop updates: *)
Record walk : Type := {
  tempo : Z;
  last_tick : Z;
  elapsed_us : float;
  events : list timed_event        (* the list [result] *)
}.

(** One pass through the body of [for abs_tick, msg in merged]. *)
Definition convert_one (tpb : Z) (w : walk) (entry : Z * msg) : result walk :=
  let (abs_tick, m) := entry in
  let tick_delta := abs_tick - last_tick w in
  per_tick <- Py.int_truediv (tempo w) tpb ;;
  adv <- Py.int_mul_float tick_delta per_tick ;;
  let elapsed_us := (elapsed_us w + adv)%float in
  let last_tick := abs_tick in
  match body m with
  | MetaSetTempo t =>
      ret {| tempo := Z.of_N t; last_tick := last_tick;
             elapsed_us := elapsed_us; events := events w |}
  | MetaOther | NoBytes | Message [] =>
      ret {| tempo := tempo w; last_tick := last_tick;
             elapsed_us := elapsed_us; events := events w |}
  | Message raw =>
      ret {| tempo := tempo w; last_tick := last_tick;
             elapsed_us := elapsed_us;
             events := events w ++ [((elapsed_us / 1000000)%float, raw)] |}
  end.

Fixpoint convert (tpb : Z) (w : walk) (merged : list (Z * msg)) : result walk :=
  match merged with
  | [] => ret w
  | entry :: rest => w' <- convert_one tpb w entry ;; convert tpb w' rest
  end.

Definition walk_init : walk :=
  {| tempo := 500000; last_tick := 0; elapsed_us := 0%float; events := [] |}.

Definition _flatten (mid : MidiFile) : result (list timed_event) :=
  let merged := sort_ticks (merge_tracks (tracks mid)) in
  w <- convert (ticks_per_beat mid) walk_init merged ;;
  ret (events w).

(** ** The volume transform *)

Definition byte_int (b : byte) : Z := Z.of_N (Byte.to_N b).

(** [bytes([...])]: [ValueError] unless every item is in [range(256)]. *)
Fixpoint bytes_of_ints (l : list Z) : result (list byte) :=
  match l with
  | [] => ret []
  | z :: l' =>
      match (if z <? 0 then None else Byte.of_N (Z.to_N z)) with
      | None => raise ValueError
      | Some b => bs <- bytes_of_ints l' ;; ret (b :: bs)
      end
  end.

Definition _apply_volume (volume : float) (raw : list byte) : result (list byte) :=
  match raw with
  | b0 :: b1 :: b2 :: _ =>
      if (Z.land (byte_int b0) 0xF0 =? 0xB0) && (byte_int b1 =? 7) then
        prod <- Py.int_mul_float (byte_int b2) volume ;;
        scaled <- Py.int_of_float prod ;;
        bytes_of_ints [byte_int b0; byte_int b1; Z.max 0 (Z.min 127 scaled)]
      else ret raw
  | _ => ret raw
  end.

(** ** Seek index resolution *)

Fixpoint _find_index (messages : list timed_event) (pos : float) : nat :=
  match messages with
  | [] => 0%nat
  | (t, _) :: rest =>
      if (pos <=? t)%float then 0%nat else S (_find_index rest pos)
  end.

(** ** The transport *)

Inductive PlayerState : Type := STOPPED | PLAYING | PAUSED.

Definition PlayerState_eqb (a b : PlayerState) : bool :=
  match a, b with
  | STOPPED, STOPPED | PLAYING, PLAYING | PAUSED, PAUSED => true
  | _, _ => false
  end.

(** The fields of [MIDIPlayer]. The two [threading.Event]s are their
    flags; a callback is modelled by whether one is installed. *)
Record MIDIPlayer : Type := {
  _state : PlayerState;
  _stop_flag : bool;
  _pause_evt : bool;
  _mid : option MidiFile;
  _messages : list timed_event;
  _duration : float;
  _pos : float;
  _seek_to : option float;
  _volume : float;
  on_position : bool;
  on_finished : bool
}.

(** What the player does to the outside: writes to the serial sink,
    callbacks, and starting the playback thread. *)
Inductive effect : Type :=
| Send (data : list byte)
| AllSoundOff
| OnPosition (pos dur : float)
| OnFinished
| StartThread.

Definition MIDIPlayer_init : MIDIPlayer :=
  {| _state := STOPPED; _stop_flag := false; _pause_evt := true;
     _mid := None; _messages := []; _duration := 0%float;
     _pos := 0%float; _seek_to := None; _volume := 1%float;
     on_position := false; on_finished := false |}.

Definition with_state (v : PlayerState) (p : MIDIPlayer) : MIDIPlayer :=
  {| _state := v; _stop_flag := _stop_flag p; _pause_evt := _pause_evt p;
     _mid := _mid p; _messages := _messages p; _duration := _duration p;
     _pos := _pos p; _seek_to := _seek_to p; _volume := _volume p;
     on_position := on_position p; on_finished := on_finished p |}.

Definition with_stop_flag (v : bool) (p : MIDIPlayer) : MIDIPlayer :=
  {| _state := _state p; _stop_flag := v; _pause_evt := _pause_evt p;
     _mid := _mid p; _messages := _messages p; _duration := _duration p;
     _pos := _pos p; _seek_to := _seek_to p; _volume := _volume p;
     on_position := on_position p; on_finished := on_finished p |}.

Definition with_pause_evt (v : bool) (p : MIDIPlayer) : MIDIPlayer :=
  {| _state := _state p; _stop_flag := _stop_flag p; _pause_evt := v;
     _mid := _mid p; _messages := _messages p; _duration := _duration p;
     _pos := _pos p; _seek_to := _seek_to p; _volume := _volume p;
     on_position := on_position p; on_finished := on_finished p |}.

Definition with_pos (v : float) (p : MIDIPlayer) : MIDIPlayer :=
  {| _state := _state p; _stop_flag := _stop_flag p; _pause_evt := _pause_evt p;
     _mid := _mid p; _messages := _messages p; _duration := _duration p;
     _pos := v; _seek_to := _seek_to p; _volume := _volume p;
     on_position := on_position p; on_finished := on_finished p |}.

Definition with_seek_to (v : option float) (p : MIDIPlayer) : MIDIPlayer :=
  {| _state := _state p; _stop_flag := _stop_flag p; _pause_evt := _pause_evt p;
     _mid := _mid p; _messages := _messages p; _duration := _duration p;
     _pos := _pos p; _seek_to := v; _volume := _volume p;
     on_position := on_position p; on_finished := on_finished p |}.

Definition with_volume (v : float) (p : MIDIPlayer) : MIDIPlayer :=
  {| _state := _state p; _stop_flag := _stop_flag p; _pause_evt := _pause_evt p;
     _mid := _mid p; _messages := _messages p; _duration := _duration p;
     _pos := _pos p; _seek_to := _seek_to p; _volume := v;
     on_position := on_position p; on_finished := on_finished p |}.

(** The four assignments [load] makes under the lock. *)
Definition with_track (mid : MidiFile) (messages : list timed_event)
    (p : MIDIPlayer) : MIDIPlayer :=
  {| _state := _state p; _stop_flag := _stop_flag p; _pause_evt := _pause_evt p;
     _mid := Some mid; _messages := messages;
     _duration := match messages with
                  | [] => 0%float
                  | _ => fst (last messages (0%float, []))
                  end;
     _pos := 0%float; _seek_to := _seek_to p; _volume := _volume p;
     on_position := on_position p; on_finished := on_finished p |}.

Section Transport.

(** [mido.MidiFile(path)], the file parser, which is not part of the
    player: a parsed file or the exception it raised. *)
Variable mido_MidiFile : list byte -> result MidiFile.

(** [load] returns the duration or propagates the exception, and the
    player it leaves behind. *)
Definition load (path : list byte) (p : MIDIPlayer)
  : result float * MIDIPlayer :=
  match (mid <- mido_MidiFile path ;;
         messages <- _flatten mid ;;
         ret (mid, messages)) with
  | inl e => (inl e, p)
  | inr (mid, messages) =>
      let p' := with_track mid messages p in
      (inr (_duration p'), p')
  end.

Definition play (p : MIDIPlayer) : MIDIPlayer * list effect :=
  match _state p with
  | PLAYING => (p, [])
  | PAUSED => (with_pause_evt true (with_state PLAYING p), [])
  | STOPPED =>
      (with_pause_evt true (with_stop_flag false (with_state PLAYING p)),
       [StartThread])
  end.

Definition pause (p : MIDIPlayer) : MIDIPlayer * list effect :=
  match _state p with
  | PLAYING => (with_pause_evt false (with_state PAUSED p), [AllSoundOff])
  | _ => (p, [])
  end.

(** [skip] is also how [stop] begins: the two events are set outside
    the lock. *)
Definition skip (p : MIDIPlayer) : MIDIPlayer * list effect :=
  (with_pause_evt true (with_stop_flag true p), []).

(** The rest of [stop]: the assignments under the lock, then silence. *)
Definition stop_locked (p : MIDIPlayer) : MIDIPlayer * list effect :=
  (with_pos 0%float (with_state STOPPED p), [AllSoundOff]).

Definition stop (p : MIDIPlayer) : MIDIPlayer * list effect :=
  let (p1, e1) := skip p in
  let (p2, e2) := stop_locked p1 in
  (p2, e1 ++ e2).

Definition seek (seconds : float) (p : MIDIPlayer) : MIDIPlayer * list effect :=
  (with_seek_to (Some (Py.fmax 0 (Py.fmin seconds (_duration p)))) p, []).

Definition rewind (p : MIDIPlayer) : MIDIPlayer * list effect :=
  seek 0%float p.

Definition set_volume (v : float) (p : MIDIPlayer) : MIDIPlayer * list effect :=
  (with_volume (Py.fmax 0 (Py.fmin 1 v)) p, []).

End Transport.

(** ** The pacing loop

    [_run] executes on its own thread while the caller keeps invoking the
    transport commands, so it is modelled as a machine that advances one
    shared-memory interaction at a time: a program point, the locals and
    the shared [MIDIPlayer]. A schedule interleaves its steps with
    commands; each step is handed the reading [time.perf_counter()] would
    give. *)

Inductive point : Type :=
| Entry        (* the snapshot under the lock, idx and t0 *)
| ForNext      (* next value of range(idx, len(messages)); stop check *)
| TopSeek      (* seek check at the top of the body; messages[i] *)
| WaitStop     (* head of the wait loop: stop check *)
| WaitGate     (* self._pause_evt.wait() *)
| WaitStop2    (* stop check after the gate *)
| WaitSeek     (* seek re-check, the clock, time.sleep *)
| AfterWait    (* stop check after the wait loop *)
| Emit         (* _apply_volume and send *)
| Commit       (* self._pos = msg_time *)
| Notify       (* on_position *)
| Finish       (* the lock after the loop *)
| Final        (* all_sound_off and on_finished *)
| Done
| Crashed (e : exn).

Record thread : Type := {
  at_point : point;
  l_messages : list timed_event;
  l_pos : float;
  l_t0 : float;
  l_range : nat;            (* the value the range iterator yields next *)
  l_i : nat;
  l_msg : timed_event;      (* msg_time, raw *)
  l_was_playing : bool
}.

(** The default of a list lookup that is never out of range. *)
Definition no_event : timed_event := (0%float, []).

Definition thread_init : thread :=
  {| at_point := Entry; l_messages := []; l_pos := 0%float; l_t0 := 0%float;
     l_range := 0%nat; l_i := 0%nat; l_msg := no_event;
     l_was_playing := false |}.

Definition goto (pt : point) (th : thread) : thread :=
  {| at_point := pt; l_messages := l_messages th; l_pos := l_pos th;
     l_t0 := l_t0 th; l_range := l_range th; l_i := l_i th;
     l_msg := l_msg th; l_was_playing := l_was_playing th |}.

(** The body of both seek branches: [pos = seek], [idx = _find_index],
    [i = idx], [t0 = perf_counter() - pos]. The range iterator is not
    among the things assigned. *)
Definition reposition (now seek : float) (th : thread) : thread :=
  {| at_point := at_point th; l_messages := l_messages th; l_pos := seek;
     l_t0 := (now - seek)%float; l_range := l_range th;
     l_i := _find_index (l_messages th) seek;
     l_msg := l_msg th; l_was_playing := l_was_playing th |}.

Definition fetch (th : thread) : thread :=
  {| at_point := at_point th; l_messages := l_messages th; l_pos := l_pos th;
     l_t0 := l_t0 th; l_range := l_range th; l_i := l_i th;
     l_msg := nth (l_i th) (l_messages th) no_event;
     l_was_playing := l_was_playing th |}.

Definition _run_step (now : float) (p : MIDIPlayer) (th : thread)
  : MIDIPlayer * thread * list effect :=
  match at_point th with
  | Entry =>
      let messages := _messages p in
      let pos := _pos p in
      let idx := _find_index messages pos in
      (p,
       {| at_point := ForNext; l_messages := messages; l_pos := pos;
          l_t0 := (now - pos)%float; l_range := idx; l_i := l_i th;
          l_msg := l_msg th; l_was_playing := l_was_playing th |},
       [])
  | ForNext =>
      if (l_range th <? length (l_messages th))%nat then
        let th := {| at_point := at_point th; l_messages := l_messages th;
                     l_pos := l_pos th; l_t0 := l_t0 th;
                     l_range := S (l_range th); l_i := l_range th;
                     l_msg := l_msg th; l_was_playing := l_was_playing th |} in
        if _stop_flag p then (p, goto Finish th, [])
        else (p, goto TopSeek th, [])
      else (p, goto Finish th, [])
  | TopSeek =>
      match _seek_to p with
      | Some seek =>
          let p := with_seek_to None p in
          let th := reposition now seek th in
          if (length (l_messages th) <=? l_i th)%nat
          then (p, goto Finish th, [AllSoundOff])
          else (p, goto WaitStop (fetch th), [AllSoundOff])
      | None => (p, goto WaitStop (fetch th), [])
      end
  | WaitStop =>
      if _stop_flag p then (p, goto AfterWait th, [])
      else (p, goto WaitGate th, [])
  | WaitGate =>
      if _pause_evt p then (p, goto WaitStop2 th, [])
      else (p, th, [])
  | WaitStop2 =>
      if _stop_flag p then (p, goto AfterWait th, [])
      else (p, goto WaitSeek th, [])
  | WaitSeek =>
      match _seek_to p with
      | Some seek =>
          (with_seek_to None p, goto AfterWait (reposition now seek th),
           [AllSoundOff])
      | None =>
          let elapsed := (now - l_t0 th)%float in
          let delta := (fst (l_msg th) - elapsed)%float in
          if (delta <=? 0)%float then (p, goto AfterWait th, [])
          else
            match Py.time_sleep (Py.fmin delta 0x1.47ae147ae147bp-8) with
            | inl e => (p, goto (Crashed e) th, [])
            | inr _ => (p, goto WaitStop th, [])
            end
      end
  | AfterWait =>
      if _stop_flag p
      then (with_pos (now - l_t0 th)%float p, goto Finish th, [])
      else (p, goto Emit th, [])
  | Emit =>
      match _apply_volume (_volume p) (snd (l_msg th)) with
      | inl e => (p, goto (Crashed e) th, [])
      | inr data => (p, goto Commit th, [Send data])
      end
  | Commit => (with_pos (fst (l_msg th)) p, goto Notify th, [])
  | Notify =>
      (p, goto ForNext th,
       if on_position p then [OnPosition (fst (l_msg th)) (_duration p)]
       else [])
  | Finish =>
      (with_pos 0%float (with_state STOPPED p),
       {| at_point := Final; l_messages := l_messages th; l_pos := l_pos th;
          l_t0 := l_t0 th; l_range := l_range th; l_i := l_i th;
          l_msg := l_msg th;
          l_was_playing := PlayerState_eqb (_state p) PLAYING |},
       [])
  | Final =>
      (p, goto Done th,
       AllSoundOff ::
       (if l_was_playing th && on_finished p then [OnFinished] else []))
  | Done => (p, th, [])
  | Crashed _ => (p, th, [])
  end.

(** What the caller's thread can do between two steps of the loop.
    [CStop] is [stop()] run without interruption; [CSkip] followed later
    by [CStopLocked] is [stop()] with the loop running in between. *)
Inductive command : Type :=
| CLoad (path : list byte)
| CPlay
| CPause
| CStop
| CStopLocked
| CSeek (seconds : float)
| CRewind
| CSetVolume (v : float)
| CSkip.

Inductive action : Type :=
| Tick (now : float)        (* one step of the pacing loop *)
| Call (c : command).       (* one command of the caller *)

Record config : Type := {
  player : MIDIPlayer;
  loop : thread;
  trace : list effect
}.

Section Machine.

Variable mido_MidiFile : list byte -> result MidiFile.

Definition call (c : command) (p : MIDIPlayer) : MIDIPlayer * list effect :=
  match c with
  | CLoad path => (snd (load mido_MidiFile path p), [])
  | CPlay => play p
  | CPause => pause p
  | CStop => stop p
  | CStopLocked => stop_locked p
  | CSeek seconds => seek seconds p
  | CRewind => rewind p
  | CSetVolume v => set_volume v p
  | CSkip => skip p
  end.

Definition step (c : config) (a : action) : config :=
  match a with
  | Tick now =>
      let '(p, th, out) := _run_step now (player c) (loop c) in
      {| player := p; loop := th; trace := trace c ++ out |}
  | Call cmd =>
      let (p, out) := call cmd (player c) in
      {| player := p; loop := loop c; trace := trace c ++ out |}
  end.

Definition exec (c : config) (schedule : list action) : config :=
  fold_left step schedule c.

(** The loop as [play] starts it. *)
Definition spawned (p : MIDIPlayer) : config :=
  {| player := p; loop := thread_init; trace := [] |}.

End Machine.

(** ** Inputs used in the statements *)

Definition note_on : list byte := [x90; x3c; x40].

(** One track, 480 ticks per beat: a tempo change to 1 000 000 us per
    beat at tick 480, a note-on at tick 960. *)
Definition tempo_example : MidiFile :=
  {| ticks_per_beat := 480;
     tracks := [[ {| time := 480; body := MetaSetTempo 1000000 |};
                  {| time := 480; body := Message note_on |} ]] |}.

Definition ev (t : float) (b : byte) : timed_event := (t, [x90; b; x40]).

(** Five notes, one per second. *)
Definition five : list timed_event :=
  [ev 0 x3c; ev 1 x3d; ev 2 x3e; ev 3 x3f; ev 4 x40]%float.

Definition playing (messages : list timed_event) (duration : float)
  : MIDIPlayer :=
  {| _state := PLAYING; _stop_flag := false; _pause_evt := true;
     _mid := None; _messages := messages; _duration := duration;
     _pos := 0%float; _seek_to := None; _volume := 1%float;
     on_position := true; on_finished := true |}.

(** A file system with the one file of [tempo_example] at path [[x01]]. *)
Definition one_file (path : list byte) : result MidiFile :=
  match path with
  | [x01] => ret tempo_example
  | _ => raise (FileError 2)
  end.

(** A clock that stands still for [n] steps of the loop. *)
Definition ticks (n : nat) (now : float) : list action := repeat (Tick now) n.

(** How often [on_finished] was invoked. *)
Definition is_OnFinished (e : effect) : bool :=
  match e with
  | OnFinished => true
  | _ => false
  end.

Definition finished_count (tr : list effect) : nat :=
  length (filter is_OnFinished tr).

Definition is_CPlay (a : action) : bool :=
  match a with
  | Call CPlay => true
  | _ => false
  end.

Definition is_Call (a : action) : bool :=
  match a with
  | Call _ => true
  | Tick _ => false
  end.

(** The loop has not yet taken the lock that follows the [for]. *)
Definition before_final (pt : point) : bool :=
  match pt with
  | Final | Done => false
  | _ => true
  end.

(** ** Vocabulary of the statements *)

Module F64.

Local Open Scope float_scope.

(** The order of binary64, as the code's comparisons compute it. *)
Definition le (x y : float) : Prop := (x <=? y) = true.
Definition lt (x y : float) : Prop := (x <? y) = true.

(** [SFcompare] on two finite numbers of the same sign is the
    lexicographic order of (exponent, mantissa). *)
Definition cmp_pos (m1 : positive) (e1 : Z) (m2 : positive) (e2 : Z)
  : comparison :=
  match (e1 ?= e2)%Z with
  | Eq => (m1 ?= m2)%positive
  | c => c
  end.

Definition SFle (x y : spec_float) : Prop := SFleb x y = true.

(** Being at least zero is a matter of the sign alone. *)
Definition SFnonneg (x : spec_float) : Prop :=
  match x with
  | S754_zero _ => True
  | S754_infinity s | S754_finite s _ _ => s = false
  | S754_nan => False
  end.

End F64.

(** Non-decreasing, as a sorted list: every element is at most every
    later one. *)
Definition nondecreasing (ts : list float) : Prop :=
  StronglySorted F64.le ts.

Definition tick_le (a b : Z * msg) : Prop := fst a <= fst b.

(** The entries of a merged list at tick [k], in their order. *)
Definition at_tick (k : Z) (l : list (Z * msg)) : list (Z * msg) :=
  filter (fun x => fst x =? k) l.

(** The bytes [_flatten] emits for an entry: those of a message that is
    not meta and has any. *)
Definition emitted (entry : Z * msg) : list (list byte) :=
  match body (snd entry) with
  | Message (b :: raw) => [b :: raw]
  | _ => []
  end.

(** The rounding the specification names for the volume transform,
    [round(original_value * gain)]: the nearest integer, a tie going to
    the even one as Python's [round] has it. *)
Definition spec_round (f : float) : result Z :=
  match Prim2SF f with
  | S754_zero _ => ret 0
  | S754_nan => raise ValueError
  | S754_infinity _ => raise OverflowError
  | S754_finite s m e =>
      let q := match e with
               | Zneg p =>
                   let n := Z.pos m in
                   let d := 2 ^ Z.pos p in
                   if 2 * (n mod d) <? d then n / d
                   else if d <? 2 * (n mod d) then n / d + 1
                   else if Z.even (n / d) then n / d else n / d + 1
               | _ => Z.pos m * 2 ^ e
               end in
      ret (if s then - q else q)
  end.

(** A channel-volume control change: status nibble [0xB], controller 7. *)
Definition is_volume_message (raw : list byte) : bool :=
  match raw with
  | b0 :: b1 :: _ :: _ =>
      (Z.land (byte_int b0) 0xF0 =? 0xB0) && (byte_int b1 =? 7)
  | _ => false
  end.

(** Two tracks with entries on the same ticks: notes on the first, a
    tempo change and a note on the second. *)
Definition two_tracks : MidiFile :=
  {| ticks_per_beat := 480;
     tracks :=
       [ [ {| time := 0; body := Message [x90; x3c; x40] |};
           {| time := 480; body := Message [x80; x3c; x00] |} ];
         [ {| time := 0; body := MetaSetTempo 1000000 |};
           {| time := 480; body := Message [x91; x40; x40] |};
           {| time := 0; body := MetaOther |};
           {| time := 240; body := Message [x81; x40; x00] |} ] ] |}.

(** The bytes the loop sends for an event, and what an undisturbed pass
    through the body does for it. *)
Definition volume_bytes (gain : float) (raw : list byte) : list byte :=
  match _apply_volume gain raw with
  | inr data => data
  | inl _ => raw
  end.

Definition played (p : MIDIPlayer) (e : timed_event) : list effect :=
  Send (volume_bytes (_volume p) (snd e))
  :: (if on_position p then [OnPosition (fst e) (_duration p)] else []).

(** The clock reading [now] is late enough for the event, for a loop
    anchored at [t0]. *)
Definition due (now t0 : float) (e : timed_event) : Prop :=
  (fst e - (now - t0) <=? 0)%float = true.

(** The schedule of the failing run of C6: the loop sends the first of
    [five], a seek to 3.5 s arrives while it is at the top of the body
    for the second, and the clock is then far enough along for every
    wait to end. *)
Definition seek_schedule : list action :=
  (ticks 12 100 ++ [Call (CSeek 3.5)] ++ ticks 1 101 ++ ticks 50 102)%float.

(** A track whose second event lies at time infinity, as [_flatten]
    makes it of a delta whose seconds no double holds, and a run on it
    that finds a seek to infinity pending: the seek at the top of the
    body anchors the clock at minus infinity, and six steps on the loop
    is at the clock of its wait with the delay [inf - inf]. *)
Definition endless : list timed_event := [ev 0 x3c; ev infinity x3d].

Definition stuck : config :=
  exec one_file (spawned (playing endless infinity))
    (Call (CSeek infinity) :: ticks 6 100%float).

Definition two_tracks_out : list timed_event :=
  [(0, [x90; x3c; x40]);
   (0x1.0000000000001p+0, [x80; x3c; x00]);
   (0x1.0000000000001p+0, [x91; x40; x40]);
   (0x1.8000000000001p+0, [x81; x40; x00])]%float.

(** What the walk maintains: the tempo is not negative, nor is the
    elapsed time, the events are in order, and none is later than the
    elapsed time. *)
Definition walk_ok (w : walk) : Prop :=
  0 <= tempo w
  /\ F64.le 0 (elapsed_us w)
  /\ nondecreasing (map fst (events w))
  /\ Forall (fun t => F64.le 0 t /\ F64.le t (elapsed_us w / 1000000)%float)
            (map fst (events w)).

(** The invocations so far: none before the loop is [Done], one at most
    after. *)
Definition counted (c : config) : Prop :=
  match at_point (loop c) with
  | Done => (finished_count (trace c) <= 1)%nat
  | _ => finished_count (trace c) = 0%nat
  end.

(** Once the state is no longer [PLAYING] and the loop has not read it
    yet, nothing is invoked unless [play] is called again. *)
Definition silenced (c : config) : Prop :=
  _state (player c) <> PLAYING
  /\ finished_count (trace c) = 0%nat
  /\ (at_point (loop c) = Final -> l_was_playing (loop c) = false).

(** Ticks and tempos a double can hold: every absolute tick and every
    tempo of the merged list is below 2 ^ 1023. (A MIDI file has 28-bit
    delta times and 24-bit tempos.) *)
Definition in_double_range (entry : Z * msg) : Prop :=
  0 <= fst entry < 2 ^ 1023
  /\ match body (snd entry) with
     | MetaSetTempo t => Z.of_N t < 2 ^ 1023
     | _ => True
     end.

(** ** The serial sender *)

(** A [serial.Serial] port object as [MIDISerial] uses it: the device
    and the baud rate it was opened with, and whether it is open. *)
Record Serial : Type := {
  port : list byte;
  baudrate : Z;
  is_open : bool
}.

Definition close (s : Serial) : Serial :=
  {| port := port s; baudrate := baudrate s; is_open := false |}.

(** [serial.SerialException], with whatever it says. *)
Inductive SerialException : Type :=
| SerialError (code : Z).

(** What [MIDISerial] does to the devices. *)
Inductive port_event : Type :=
| Opened (port_name : list byte) (baud : Z)
| Closed (port_name : list byte)
| Wrote (port_name : list byte) (data : list byte).

(** The one field of [MIDISerial] besides its lock. *)
Record MIDISerial : Type := { _port : option Serial }.

Definition MIDISerial_init : MIDISerial := {| _port := None |}.

Definition connected (s : MIDISerial) : bool :=
  match _port s with
  | Some p => is_open p
  | None => false
  end.

Section Sender.

(** The operating system: whether opening a device raises, and whether
    a write to an open port raises (the device was unplugged, say). *)
Variable serial_Serial : list byte -> Z -> option SerialException.
Variable write_raises : Serial -> list byte -> bool.

(** [connect] closes the port it has, then opens the new one; when that
    raises, the exception leaves [connect] before the assignment. *)
Definition connect (port_name : list byte) (baud : Z) (s : MIDISerial)
  : (SerialException + unit) * MIDISerial * list port_event :=
  let '(s, closing) :=
    match _port s with
    | Some p =>
        if is_open p then ({| _port := Some (close p) |}, [Closed (port p)])
        else (s, [])
    | None => (s, [])
    end in
  match serial_Serial port_name baud with
  | Some e => (inl e, s, closing)
  | None =>
      (inr tt,
       {| _port := Some {| port := port_name; baudrate := baud;
                           is_open := true |} |},
       closing ++ [Opened port_name baud])
  end.

Definition disconnect (s : MIDISerial) : MIDISerial * list port_event :=
  ({| _port := None |},
   match _port s with
   | Some p => if is_open p then [Closed (port p)] else []
   | None => []
   end).

(** [send] writes when there is an open port and swallows a
    [SerialException]. *)
Definition send (data : list byte) (s : MIDISerial) : list port_event :=
  match _port s with
  | Some p =>
      if is_open p then
        if write_raises p data then [] else [Wrote (port p) data]
      else []
  | None => []
  end.

(** The body of [all_sound_off] over the channels that remain. *)
Fixpoint all_sound_off_from (channels : list Z) (s : MIDISerial)
  : result (list port_event) :=
  match channels with
  | [] => ret []
  | ch :: rest =>
      data <- bytes_of_ints [Z.lor 0xB0 ch; 120; 0] ;;
      let sent := send data s in
      later <- all_sound_off_from rest s ;;
      ret (sent ++ later)
  end.

Definition all_sound_off (s : MIDISerial) : result (list port_event) :=
  all_sound_off_from (map Z.of_nat (seq 0 16)) s.

End Sender.

(** The sixteen messages of [all_sound_off]: controller 120 at value 0
    on every channel. *)
Definition sound_off_messages : list (list byte) :=
  [[xb0; x78; x00]; [xb1; x78; x00]; [xb2; x78; x00]; [xb3; x78; x00];
   [xb4; x78; x00]; [xb5; x78; x00]; [xb6; x78; x00]; [xb7; x78; x00];
   [xb8; x78; x00]; [xb9; x78; x00]; [xba; x78; x00]; [xbb; x78; x00];
   [xbc; x78; x00]; [xbd; x78; x00]; [xbe; x78; x00]; [xbf; x78; x00]].

(** ** The time label *)

(** The decimal digits of a number, most significant first, as ASCII. *)
Fixpoint digits_of (u : Decimal.uint) : list byte :=
  match u with
  | Decimal.Nil => []
  | Decimal.D0 u => x30 :: digits_of u
  | Decimal.D1 u => x31 :: digits_of u
  | Decimal.D2 u => x32 :: digits_of u
  | Decimal.D3 u => x33 :: digits_of u
  | Decimal.D4 u => x34 :: digits_of u
  | Decimal.D5 u => x35 :: digits_of u
  | Decimal.D6 u => x36 :: digits_of u
  | Decimal.D7 u => x37 :: digits_of u
  | Decimal.D8 u => x38 :: digits_of u
  | Decimal.D9 u => x39 :: digits_of u
  end.

(** [format(z, "02d")]: the decimal digits, a minus sign before them
    for a negative number, zeros on the left up to two characters. *)
Definition format_02d (z : Z) : list byte :=
  if z <? 0 then x2d :: digits_of (N.to_uint (Z.to_N (- z)))
  else
    let s := digits_of (N.to_uint (Z.to_N z)) in
    if (length s <? 2)%nat then x30 :: s else s.

Definition fmt_time (s : float) : result (list byte) :=
  let s := Py.fmax 0 s in
  whole <- Py.int_of_float s ;;
  let m := whole / 60 in
  whole' <- Py.int_of_float s ;;
  ret (format_02d m ++ [x3a] ++ format_02d (whole' mod 60)).

(** Reading decimal digits back. *)
Fixpoint uint_of (s : list byte) : option Decimal.uint :=
  match s with
  | [] => Some Decimal.Nil
  | b :: s' =>
      match uint_of s' with
      | None => None
      | Some u =>
          match b with
          | x30 => Some (Decimal.D0 u)
          | x31 => Some (Decimal.D1 u)
          | x32 => Some (Decimal.D2 u)
          | x33 => Some (Decimal.D3 u)
          | x34 => Some (Decimal.D4 u)
          | x35 => Some (Decimal.D5 u)
          | x36 => Some (Decimal.D6 u)
          | x37 => Some (Decimal.D7 u)
          | x38 => Some (Decimal.D8 u)
          | x39 => Some (Decimal.D9 u)
          | _ => None
          end
      end
  end.

Definition read_decimal (s : list byte) : option Z :=
  match s with
  | [] => None
  | _ => option_map (fun u => Z.of_N (N.of_uint u)) (uint_of s)
  end.

(** ** The queue and the application

    The parts of [QueueList] and [App] that decide what is played: the
    list of paths, the index of the current track and the calls on the
    player. The Tk widgets are represented by the calls made on them. *)

Record QueueList : Type := {
  _items : list (list byte);     (* full paths *)
  _playing : Z;                  (* index currently playing *)
  _selected : Z
}.

Definition QueueList_init : QueueList :=
  {| _items := []; _playing := -1; _selected := -1 |}.

Definition add (path : list byte) (q : QueueList) : QueueList :=
  {| _items := _items q ++ [path]; _playing := _playing q;
     _selected := _selected q |}.

(** [_remove(idx, widgets)], as far as the paths go: [pop(idx)] when
    the index is in range. *)
Definition _remove (idx : nat) (q : QueueList) : QueueList :=
  {| _items := if (idx <? length (_items q))%nat
               then firstn idx (_items q) ++ skipn (S idx) (_items q)
               else _items q;
     _playing := _playing q; _selected := _selected q |}.

Definition set_playing (idx : Z) (q : QueueList) : QueueList :=
  {| _items := _items q; _playing := idx; _selected := _selected q |}.

Definition clear_playing (q : QueueList) : QueueList :=
  {| _items := _items q; _playing := -1; _selected := _selected q |}.

Definition items (q : QueueList) : list (list byte) := _items q.

(** The player as [App.__init__] sets it up: both callbacks
    installed. *)
Definition with_callbacks (p : MIDIPlayer) : MIDIPlayer :=
  {| _state := _state p; _stop_flag := _stop_flag p;
     _pause_evt := _pause_evt p; _mid := _mid p; _messages := _messages p;
     _duration := _duration p; _pos := _pos p; _seek_to := _seek_to p;
     _volume := _volume p; on_position := true; on_finished := true |}.

(** What the volume slider at [v] asks of the player: the gain
    [v / 127], which [set_volume] stores as it is. *)
Definition slider_gain (v : Z) (gain : float) : Prop :=
  Py.int_truediv v 127 = inr gain
  /\ F64.le 0 gain /\ F64.le gain 1
  /\ Py.fmax 0 (Py.fmin 1 gain) = gain
  /\ (v = 127 -> gain = 1%float) /\ (v = 0 -> gain = 0%float).

Module App.

(** The two faces of the play button. *)
Inductive glyph : Type := ShowPlay | ShowPause.

(** The texts of the status bar. *)
Inductive text : Type :=
| Added (n : nat)
| PressPlay
| Paused
| Resumed
| QueueEmpty
| LoadError (e : exn)
| NowPlaying (name : list byte)
| EndOfQueue
| QueueFinished.

(** The calls on the widgets. *)
Inductive ui : Type :=
| StatusOk (t : text)
| StatusErr (t : text)
| StatusInfo (t : text)
| PlayButton (g : glyph)
| TrackLabel (name : list byte)
| TimeSliderTo (to : float)
| VolumeLabel (v : Z).

Record t : Type := {
  world : config;       (* the player, its pacing thread, what they did *)
  orphans : list thread;  (* earlier pacing threads, not finished when
                             [play] started another *)
  _queue_widget : QueueList;
  _queue_paths : list (list byte);
  _current_idx : Z;
  _scrubbing : bool;
  _pos_var : float;
  _vol_var : Z;
  _duration : float;
  _play_btn_ref : bool;
  screen : list ui      (* the calls on the widgets, oldest first *)
}.

Definition with_world (w : config) (a : t) : t :=
  {| world := w; orphans := orphans a; _queue_widget := _queue_widget a;
     _queue_paths := _queue_paths a; _current_idx := _current_idx a;
     _scrubbing := _scrubbing a; _pos_var := _pos_var a;
     _vol_var := _vol_var a; _duration := _duration a;
     _play_btn_ref := _play_btn_ref a; screen := screen a |}.

Definition with_orphans (l : list thread) (a : t) : t :=
  {| world := world a; orphans := l; _queue_widget := _queue_widget a;
     _queue_paths := _queue_paths a; _current_idx := _current_idx a;
     _scrubbing := _scrubbing a; _pos_var := _pos_var a;
     _vol_var := _vol_var a; _duration := _duration a;
     _play_btn_ref := _play_btn_ref a; screen := screen a |}.

Definition show (us : list ui) (a : t) : t :=
  {| world := world a; orphans := orphans a;
     _queue_widget := _queue_widget a;
     _queue_paths := _queue_paths a; _current_idx := _current_idx a;
     _scrubbing := _scrubbing a; _pos_var := _pos_var a;
     _vol_var := _vol_var a; _duration := _duration a;
     _play_btn_ref := _play_btn_ref a; screen := screen a ++ us |}.

Definition with_queue (q : QueueList) (a : t) : t :=
  {| world := world a; orphans := orphans a; _queue_widget := q;
     _queue_paths := _queue_paths a; _current_idx := _current_idx a;
     _scrubbing := _scrubbing a; _pos_var := _pos_var a;
     _vol_var := _vol_var a; _duration := _duration a;
     _play_btn_ref := _play_btn_ref a; screen := screen a |}.

Definition with_queue_paths (l : list (list byte)) (a : t) : t :=
  {| world := world a; orphans := orphans a;
     _queue_widget := _queue_widget a;
     _queue_paths := l; _current_idx := _current_idx a;
     _scrubbing := _scrubbing a; _pos_var := _pos_var a;
     _vol_var := _vol_var a; _duration := _duration a;
     _play_btn_ref := _play_btn_ref a; screen := screen a |}.

Definition with_current (idx : Z) (a : t) : t :=
  {| world := world a; orphans := orphans a;
     _queue_widget := _queue_widget a;
     _queue_paths := _queue_paths a; _current_idx := idx;
     _scrubbing := _scrubbing a; _pos_var := _pos_var a;
     _vol_var := _vol_var a; _duration := _duration a;
     _play_btn_ref := _play_btn_ref a; screen := screen a |}.

Definition with_duration (d : float) (a : t) : t :=
  {| world := world a; orphans := orphans a;
     _queue_widget := _queue_widget a;
     _queue_paths := _queue_paths a; _current_idx := _current_idx a;
     _scrubbing := _scrubbing a; _pos_var := _pos_var a;
     _vol_var := _vol_var a; _duration := d;
     _play_btn_ref := _play_btn_ref a; screen := screen a |}.

(** [if self._play_btn_ref: self._play_btn_ref.config(text=...)] *)
Definition button (g : glyph) (a : t) : t :=
  if _play_btn_ref a then show [PlayButton g] a else a.

(** A pacing thread that has run to its end, which is also how the
    model has no thread at all. *)
Definition finished_thread : thread := goto Done thread_init.

(** The App as [__init__] leaves it, once [_build_ui] has made the play
    button. *)
Definition init : t :=
  {| world := {| player := with_callbacks MIDIPlayer_init;
                 loop := finished_thread; trace := [] |};
     orphans := [];
     _queue_widget := QueueList_init; _queue_paths := [];
     _current_idx := -1; _scrubbing := false; _pos_var := 0%float;
     _vol_var := 100; _duration := 0%float; _play_btn_ref := true;
     screen := [] |}.

Section WithSystem.

Variable mido_MidiFile : list byte -> result MidiFile.
Variable os_path_basename : list byte -> list byte.

(** A call on [self._player] other than [play]. *)
Definition player_call (cmd : command) (a : t) : t :=
  with_world (step mido_MidiFile (world a) (Call cmd)) a.

(** [self._player.play()]: when it starts a thread, that thread is the
    pacing thread from now on, and the one before it is set aside
    unless it has ended, finished or dead of an exception. *)
Definition player_play (a : t) : t :=
  let w := world a in
  let (p, out) := play (player w) in
  match out with
  | StartThread :: _ =>
      let a := match at_point (loop w) with
               | Done | Crashed _ => a
               | _ => with_orphans (orphans a ++ [loop w]) a
               end in
      with_world {| player := p; loop := thread_init;
                    trace := trace w ++ out |} a
  | _ => with_world {| player := p; loop := loop w;
                       trace := trace w ++ out |} a
  end.

(** [time.sleep]: the pacing thread takes the steps it gets to take
    meanwhile, at the clock readings given. *)
Definition sleep (steps : list float) (a : t) : t :=
  with_world (exec mido_MidiFile (world a) (map Tick steps)) a.

Definition _play_track (idx : Z) (steps : list float) (a : t)
  : result unit * t :=
  let paths := items (_queue_widget a) in
  if (idx <? 0) || (Z.of_nat (length paths) <=? idx) then (ret tt, a)
  else
    let path := nth (Z.to_nat idx) paths [] in
    let a := player_call CStop a in
    let a := sleep steps a in
    match load mido_MidiFile path (player (world a)) with
    | (inl e, _) => (ret tt, show [StatusErr (LoadError e)] a)
    | (inr dur, p) =>
        let a := with_world {| player := p; loop := loop (world a);
                               trace := trace (world a) |} a in
        let a := with_duration dur a in
        let a := with_current idx a in
        let a := with_queue (set_playing idx (_queue_widget a)) a in
        let name := os_path_basename path in
        let a := show [TrackLabel name; TimeSliderTo (Py.fmax dur 1)] a in
        match Py.int_truediv (_vol_var a) 127 with
        | inl e => (inl e, a)
        | inr gain =>
            let a := player_call (CSetVolume gain) a in
            let a := player_play a in
            let a := button ShowPause a in
            (ret tt, show [StatusOk (NowPlaying name)] a)
        end
    end.

Definition _open_files (paths : list (list byte)) (a : t) : t :=
  let a := fold_left
             (fun a p =>
                with_queue_paths (_queue_paths a ++ [p])
                  (with_queue (add p (_queue_widget a)) a))
             paths a in
  match paths with
  | [] => a
  | _ =>
      let a := show [StatusInfo (Added (length paths))] a in
      if _current_idx a =? -1 then show [StatusInfo PressPlay] a else a
  end.

Definition _play_pause (steps : list float) (a : t) : result unit * t :=
  match _state (player (world a)) with
  | PLAYING =>
      let a := player_call CPause a in
      let a := button ShowPlay a in
      (ret tt, show [StatusInfo Paused] a)
  | PAUSED =>
      let a := player_play a in
      let a := button ShowPause a in
      (ret tt, show [StatusOk Resumed] a)
  | STOPPED =>
      match items (_queue_widget a) with
      | [] => (ret tt, show [StatusErr QueueEmpty] a)
      | _ =>
          let idx := if 0 <=? _current_idx a then Z.max 0 (_current_idx a)
                     else 0 in
          _play_track idx steps a
      end
  end.

Definition _skip_next (steps : list float) (a : t) : result unit * t :=
  let paths := items (_queue_widget a) in
  match paths with
  | [] => (ret tt, a)
  | _ =>
      let nxt := _current_idx a + 1 in
      if nxt <? Z.of_nat (length paths) then _play_track nxt steps a
      else
        let a := player_call CStop a in
        let a := with_current (-1) a in
        let a := with_queue (clear_playing (_queue_widget a)) a in
        let a := button ShowPlay a in
        (ret tt, show [StatusInfo EndOfQueue] a)
  end.

(** [_on_vol_slide(val)]: [val] is the number the slider passes, if it
    passes one. *)
Definition _on_vol_slide (val : option float) (a : t) : result unit * t :=
  match (match val with
         | Some f => Py.int_of_float f
         | None => ret (_vol_var a)
         end) with
  | inl e => (inl e, a)
  | inr v =>
      let a := show [VolumeLabel v] a in
      match Py.int_truediv v 127 with
      | inl e => (inl e, a)
      | inr gain => (ret tt, player_call (CSetVolume gain) a)
      end
  end.

Definition _on_track_finished (steps : list float) (a : t)
  : result unit * t :=
  let a := button ShowPlay a in
  let paths := items (_queue_widget a) in
  let nxt := _current_idx a + 1 in
  if nxt <? Z.of_nat (length paths) then _play_track nxt steps a
  else
    let a := with_queue (clear_playing (_queue_widget a)) a in
    let a := with_current (-1) a in
    (ret tt, show [StatusInfo QueueFinished] a).

End WithSystem.

(** A click on the remove mark of the row whose bindings hold [idx]:
    the binding calls [QueueList._remove]; nothing of the App itself is
    told. *)
Definition click_remove (idx : nat) (a : t) : t :=
  with_queue (_remove idx (_queue_widget a)) a.

End App.

(** ** Vocabulary for the pacing loop *)

(** How many events were sent. *)
Definition is_Send (e : effect) : bool :=
  match e with
  | Send _ => true
  | _ => false
  end.

Definition sent_count (tr : list effect) : nat :=
  length (filter is_Send tr).

Definition is_Crashed (pt : point) : bool :=
  match pt with
  | Crashed _ => true
  | _ => false
  end.

(** The delay the wait of the loop computes at the clock reading [now]:
    the time of the event it holds, less the time elapsed since the
    anchor. *)
Definition delay (now : float) (th : thread) : float :=
  (fst (l_msg th) - (now - l_t0 th))%float.

(** The loop is at the clock of its wait, no seek is pending and the
    delay is not a number. The comparison [delta <= 0] is then false,
    [min(delta, 0.005)] is the NaN, and [time.sleep] raises. *)
Definition nan_delay (now : float) (p : MIDIPlayer) (th : thread) : bool :=
  match at_point th, _seek_to p with
  | WaitSeek, None =>
      match Prim2SF (delay now th) with
      | S754_nan => true
      | _ => false
      end
  | _, _ => false
  end.

Definition is_CLoad (a : action) : bool :=
  match a with
  | Call (CLoad _) => true
  | _ => false
  end.

(** The steps the loop still takes to [Done] once the stop signal is up
    and the gate is open, at most. *)
Definition steps_to_done (pt : point) : nat :=
  match pt with
  | Done | Crashed _ => 0
  | Final => 1
  | Finish => 2
  | ForNext | AfterWait => 3
  | Entry | Notify | WaitStop | WaitStop2 => 4
  | Commit | TopSeek | WaitGate | WaitSeek => 5
  | Emit => 6
  end.

(** The events a loop that finds the gate shut can still send: the one
    that is already past the gate. *)
Definition past_gate (stop : bool) (pt : point) : nat :=
  match pt with
  | WaitStop2 | WaitSeek | Emit => 1
  | AfterWait => if stop then 0 else 1
  | _ => 0
  end.

(** Where an effect of the loop comes from: the bytes sent are the
    volume transform, at some gain in [0, 1], of an event of the
    sequence, and a position reported is the time of one. *)
Definition sourced (messages : list timed_event) (e : effect) : Prop :=
  match e with
  | Send data =>
      exists ev g, In ev messages /\ F64.le 0 g /\ F64.le g 1
                   /\ _apply_volume g (snd ev) = inr data
  | OnPosition t _ => exists ev, In ev messages /\ t = fst ev
  | _ => True
  end.

(** The index the loop is about to fetch at is in range, and from the
    fetch on the event it holds in [msg_time, raw] is one of the
    sequence. *)
Definition holds_event (th : thread) : Prop :=
  match at_point th with
  | TopSeek => (l_i th < length (l_messages th))%nat
  | WaitStop | WaitGate | WaitStop2 | WaitSeek | AfterWait | Emit | Commit
  | Notify => In (l_msg th) (l_messages th)
  | _ => True
  end.

(** A loop on its way out that will still invoke [on_finished]: the
    state is [PLAYING] until the lock after the [for] reads it, and has
    been read as such after that; [n] invocations so far. *)
Definition still_to_finish (n : nat) (c : config) : Prop :=
  on_finished (player c) = true
  /\ match at_point (loop c) with
     | Final => l_was_playing (loop c) = true /\ finished_count (trace c) = n
     | Done => finished_count (trace c) = S n
     | Crashed _ => False
     | _ => _state (player c) = PLAYING /\ finished_count (trace c) = n
     end.

(** A float whose sign bit is clear: +0.0, a positive number or
    +infinity. *)
Definition plus_signed (x : spec_float) : Prop :=
  match x with
  | S754_nan => False
  | S754_zero s | S754_infinity s | S754_finite s _ _ => s = false
  end.

(** The events [_flatten] makes of an entry of the merged list when the
    time of a tick is [time_of]. *)
Definition timed (time_of : Z -> float) (entry : Z * msg) : list timed_event :=
  map (fun raw => (time_of (fst entry), raw)) (emitted entry).

(** The App with the given paths in its queue and the track at [idx]
    current. *)
Definition queued (paths : list (list byte)) (idx : Z) : App.t :=
  App.with_current idx
    (App.with_queue {| _items := paths; _playing := idx; _selected := -1 |}
       App.init).

(** A system where a file is known by its full path. *)
Definition whole_path (path : list byte) : list byte := path.

(** ** How binary64 rounds

    [SpecFloat] rounds by shifting a mantissa right while it records a
    round bit and a sticky bit. The same computation on plain integers,
    for an exact value [N / D * 2 ^ e]: *)

Module Round.

Definition fexp64 (e : Z) : Z := Z.max (e - 53) (-1074).

(** The shift record that stands for [N / D]: quotient, round bit (the
    remainder is at least half of [D]) and sticky bit (the remainder is
    neither zero nor exactly half). *)
Definition rec_of (N D : Z) : shr_record :=
  {| shr_m := N / D;
     shr_r := D <=? 2 * (N mod D);
     shr_s := negb ((N mod D =? 0) || (2 * (N mod D) =? D)) |}.

(** [N / D] rounded to the nearest integer, ties to even. *)
Definition rne (N D : Z) : Z :=
  let q := N / D in
  let r := N mod D in
  if 2 * r <? D then q
  else if D <? 2 * r then q + 1
  else if Z.even q then q else q + 1.

(** The mantissa and the exponent [binary_round_aux] arrives at. *)
Definition round_at (N D e : Z) : Z * Z :=
  let e1 := Z.max e (fexp64 (Zdigits2 (N / D) + e)) in
  let m2 := rne N (D * 2 ^ (e1 - e)) in
  let e3 := Z.max e1 (fexp64 (Zdigits2 m2 + e1)) in
  (m2 / 2 ^ (e3 - e1), e3).

(** The float it makes of them. *)
Definition build (s : bool) (me : Z * Z) : spec_float :=
  match fst me with
  | Z0 => S754_zero s
  | Zpos m => if snd me <=? 971 then S754_finite s m (snd me)
              else S754_infinity s
  | Zneg _ => S754_nan
  end.

(** The exponent is at most the one the format gives the magnitude, so
    no digit the rounding needs is missing. *)
Definition fine (N D e : Z) : Prop := e <= fexp64 (Zdigits2 (N / D) + e).

Definition canonical (m : positive) (e : Z) : Prop :=
  fexp64 (Zdigits2 (Z.pos m) + e) = e.

Definition SFfinite_nonneg (x : spec_float) : Prop :=
  match x with
  | S754_zero _ => True
  | S754_finite s _ _ => s = false
  | _ => False
  end.

End Round.

(** * Binary64 facts

    The order of primitive floats, read through [Prim2SF]. *)

Module F64Facts.

Import F64.

Local Open Scope float_scope.

Lemma SFcompare_pos m1 e1 m2 e2 :
  SFcompare (S754_finite false m1 e1) (S754_finite false m2 e2)
  = Some (cmp_pos m1 e1 m2 e2).
Proof.
  unfold cmp_pos; simpl. destruct (e1 ?= e2)%Z; reflexivity.
Qed.

Lemma SFcompare_swap x y :
  SFcompare y x = option_map CompOpp (SFcompare x y).
Proof.
  destruct x as [sx|sx| |sx mx ex], y as [sy|sy| |sy my ey];
    try reflexivity;
    try (destruct sx; reflexivity);
    try (destruct sy; reflexivity);
    try (destruct sx, sy; reflexivity).
  simpl. destruct sx, sy; try reflexivity; simpl;
    rewrite (Z.compare_antisym ex ey);
    destruct (ex ?= ey)%Z; simpl; try reflexivity;
    change (PosDef.Pos.compare_cont Eq) with Pos.compare;
    rewrite (Pos.compare_antisym mx my);
    destruct (mx ?= my)%positive; reflexivity.
Qed.

Lemma SFcompare_refl x : x <> S754_nan -> SFcompare x x = Some Eq.
Proof.
  destruct x as [s|s| |s m e]; intros H; try congruence;
    try (destruct s; reflexivity).
  simpl. rewrite Z.compare_refl.
  change (PosDef.Pos.compare_cont Eq) with Pos.compare.
  rewrite Pos.compare_refl. destruct s; reflexivity.
Qed.

Lemma cmp_pos_le_trans m1 e1 m2 e2 m3 e3 :
  cmp_pos m1 e1 m2 e2 <> Gt -> cmp_pos m2 e2 m3 e3 <> Gt ->
  cmp_pos m1 e1 m3 e3 <> Gt.
Proof.
  unfold cmp_pos.
  destruct (Z.compare_spec e1 e2), (Z.compare_spec e2 e3),
    (Z.compare_spec e1 e3); try lia; try congruence.
  destruct (Pos.compare_spec m1 m2), (Pos.compare_spec m2 m3),
    (Pos.compare_spec m1 m3); try lia; congruence.
Qed.

Lemma cmp_pos_swap m1 e1 m2 e2 :
  cmp_pos m2 e2 m1 e1 = CompOpp (cmp_pos m1 e1 m2 e2).
Proof.
  unfold cmp_pos. rewrite (Z.compare_antisym e1 e2).
  destruct (e1 ?= e2)%Z; simpl; try reflexivity.
  apply Pos.compare_antisym.
Qed.

Lemma SFcompare_neg m1 e1 m2 e2 :
  SFcompare (S754_finite true m1 e1) (S754_finite true m2 e2)
  = Some (cmp_pos m2 e2 m1 e1).
Proof.
  rewrite cmp_pos_swap. unfold cmp_pos; simpl.
  destruct (e1 ?= e2)%Z; reflexivity.
Qed.

Lemma SFle_trans x y z : SFle x y -> SFle y z -> SFle x z.
Proof.
  unfold SFle, SFleb.
  destruct x as [sx|sx| |sx mx ex], y as [sy|sy| |sy my ey],
    z as [sz|sz| |sz mz ez];
    try (simpl; congruence);
    try (destruct sx; simpl; congruence);
    try (destruct sy; simpl; congruence);
    try (destruct sz; simpl; congruence);
    try (destruct sx, sy; simpl; congruence);
    try (destruct sx, sz; simpl; congruence);
    try (destruct sy, sz; simpl; congruence);
    try (destruct sx, sy, sz; simpl; congruence).
  destruct sx, sy, sz; try (simpl; congruence);
    rewrite ?SFcompare_pos, ?SFcompare_neg; intros H1 H2.
  - pose proof (cmp_pos_le_trans mz ez my ey mx ex) as T.
    destruct (cmp_pos my ey mx ex), (cmp_pos mz ez my ey),
      (cmp_pos mz ez mx ex); try congruence;
      exfalso; apply T; congruence.
  - pose proof (cmp_pos_le_trans mx ex my ey mz ez) as T.
    destruct (cmp_pos mx ex my ey), (cmp_pos my ey mz ez),
      (cmp_pos mx ex mz ez); try congruence;
      exfalso; apply T; congruence.
Qed.

Lemma le_trans x y z : le x y -> le y z -> le x z.
Proof. unfold le. rewrite !leb_spec. apply SFle_trans. Qed.

Lemma lt_le x y : lt x y -> le x y.
Proof.
  unfold lt, le. rewrite leb_spec, ltb_spec. unfold SFltb, SFleb.
  destruct (SFcompare _ _) as [[]|]; congruence.
Qed.

Lemma le_not_lt x y : le x y -> (y <? x) = false.
Proof.
  unfold le. rewrite leb_spec, ltb_spec. unfold SFltb, SFleb.
  rewrite (SFcompare_swap (Prim2SF x) (Prim2SF y)).
  destruct (SFcompare _ _) as [[]|]; simpl; congruence.
Qed.

Lemma lt_not_le x y : lt x y -> (y <=? x) = false.
Proof.
  unfold lt. rewrite leb_spec, ltb_spec. unfold SFltb, SFleb.
  rewrite (SFcompare_swap (Prim2SF x) (Prim2SF y)).
  destruct (SFcompare _ _) as [[]|]; simpl; congruence.
Qed.

Lemma lt_asym x y : lt x y -> (y <? x) = false.
Proof. intros H. apply le_not_lt, lt_le, H. Qed.

(** A float is comparable with itself unless it is NaN. *)
Lemma le_refl x : Prim2SF x <> S754_nan -> le x x.
Proof.
  intros H. unfold le. rewrite leb_spec. unfold SFleb.
  rewrite SFcompare_refl; auto.
Qed.

Lemma le_not_nan_l x y : le x y -> Prim2SF x <> S754_nan.
Proof.
  unfold le. rewrite leb_spec. unfold SFleb. intros H E. rewrite E in H.
  discriminate.
Qed.

Lemma le_not_nan_r x y : le x y -> Prim2SF y <> S754_nan.
Proof.
  unfold le. rewrite leb_spec. unfold SFleb. intros H E. rewrite E in H.
  destruct (Prim2SF x); discriminate.
Qed.

Lemma le_eqb_refl x y : le x y -> (x =? x) = true.
Proof.
  intros H. rewrite eqb_spec. unfold SFeqb.
  rewrite SFcompare_refl; eauto using le_not_nan_l.
Qed.

(** Neither [<] nor [<=] : the two floats are equal or one is NaN. *)
Lemma total x y :
  Prim2SF x <> S754_nan -> Prim2SF y <> S754_nan ->
  (x <? y) = false -> le y x.
Proof.
  unfold le. rewrite leb_spec, ltb_spec. unfold SFltb, SFleb.
  rewrite (SFcompare_swap (Prim2SF x) (Prim2SF y)).
  destruct (Prim2SF x) as [sx|sx| |sx mx ex],
    (Prim2SF y) as [sy|sy| |sy my ey]; try congruence; intros _ _;
    simpl; try (destruct sx; simpl; congruence);
    try (destruct sy; simpl; congruence);
    try (destruct sx, sy; simpl; congruence).
  destruct sx, sy; simpl; try congruence;
    destruct (ex ?= ey)%Z; simpl; try congruence;
    destruct (PosDef.Pos.compare_cont Eq mx my); simpl; congruence.
Qed.

Lemma le_0_iff x : le 0 x <-> SFnonneg (Prim2SF x).
Proof.
  unfold le. rewrite leb_spec.
  change (Prim2SF 0) with (S754_zero false).
  destruct (Prim2SF x) as [s|s| |s m e]; simpl; unfold SFleb; simpl;
    try tauto; try (destruct s; simpl; intuition congruence).
  intuition congruence.
Qed.

Lemma lt_0_nonneg x : lt 0 x -> SFnonneg (Prim2SF x).
Proof. intros H. apply le_0_iff, lt_le, H. Qed.

End F64Facts.

(** * Rounding facts

    [binary_round_aux] computes [Round.round_at]; from there, that
    rounding never goes below a float of the format that the exact value
    reaches, and that it is monotone. *)

Module RoundFacts.

Import F64 F64Facts Round.

(* lemmas *)
Lemma fexp_eq e : fexp prec emax e = fexp64 e.
Proof. reflexivity. Qed.

Lemma digits2_size p : digits2_pos p = Pos.size p.
Proof. induction p; simpl; congruence. Qed.

Lemma Zdigits2_log2 m : 0 < m -> Zdigits2 m = Z.log2 m + 1.
Proof.
  destruct m as [|p|p]; try lia. intros _. simpl.
  destruct p; simpl; rewrite ?digits2_size; lia.
Qed.

Lemma Zdigits2_0 : Zdigits2 0 = 0.
Proof. reflexivity. Qed.

Lemma Zdigits2_nonneg m : 0 <= Zdigits2 m.
Proof. destruct m; simpl; lia. Qed.

Lemma Zdigits2_pos m : 0 < m -> 0 < Zdigits2 m.
Proof. intros H. rewrite Zdigits2_log2 by lia. pose proof (Z.log2_nonneg m). lia. Qed.

Lemma Zdigits2_spec m : 0 < m -> 2 ^ (Zdigits2 m - 1) <= m < 2 ^ Zdigits2 m.
Proof.
  intros H. rewrite Zdigits2_log2 by lia.
  replace (Z.log2 m + 1 - 1) with (Z.log2 m) by lia.
  apply Z.log2_spec; lia.
Qed.

Lemma Zdigits2_lt m : 0 <= m -> m < 2 ^ Zdigits2 m.
Proof.
  intros H. destruct (Z.eq_dec m 0) as [->|]; [reflexivity|].
  apply Zdigits2_spec; lia.
Qed.

Lemma Zdigits2_unique m d : 0 < d -> 2 ^ (d - 1) <= m < 2 ^ d -> Zdigits2 m = d.
Proof.
  intros Hd H. assert (0 < 2 ^ (d - 1)) by (apply Z.pow_pos_nonneg; lia).
  assert (0 < m) by lia.
  rewrite Zdigits2_log2 by lia.
  rewrite (Z.log2_unique m (d - 1)); try lia.
  replace (Z.succ (d - 1)) with d by lia. lia.
Qed.

Lemma Zdigits2_le m n : 0 <= m <= n -> Zdigits2 m <= Zdigits2 n.
Proof.
  intros H. destruct (Z.eq_dec m 0) as [->|].
  - apply Zdigits2_nonneg.
  - rewrite !Zdigits2_log2 by lia. pose proof (Z.log2_le_mono m n). lia.
Qed.

Lemma Zdigits2_le_pow m d : 0 <= m -> 0 <= d -> m < 2 ^ d -> Zdigits2 m <= d.
Proof.
  intros H Hd Hm. destruct (Z.eq_dec m 0) as [->|]; [simpl; lia|].
  rewrite Zdigits2_log2 by lia.
  assert (Z.log2 m < d) by (apply Z.log2_lt_pow2; lia). lia.
Qed.

Lemma Zdigits2_ge_pow m d : 0 <= d -> 2 ^ d <= m -> d < Zdigits2 m.
Proof.
  intros Hd Hm. assert (0 < 2 ^ d) by (apply Z.pow_pos_nonneg; lia).
  assert (0 < m) by lia.
  rewrite Zdigits2_log2 by lia.
  assert (d <= Z.log2 m) by (apply Z.log2_le_pow2; lia). lia.
Qed.

(* digits after dropping k bits *)
Lemma Zdigits2_div_pow m k :
  0 <= m -> 0 <= k -> Zdigits2 (m / 2 ^ k) = Z.max 0 (Zdigits2 m - k).
Proof.
  intros Hm Hk. destruct (Z.eq_dec m 0) as [->|].
  - rewrite Z.div_0_l by (apply Z.pow_nonzero; lia). simpl. lia.
  - rewrite <- Z.shiftr_div_pow2 by lia.
    destruct (Z.eq_dec (Z.shiftr m k) 0) as [E|E].
    + rewrite E. apply Z.shiftr_eq_0_iff in E.
      rewrite (Zdigits2_log2 m) by lia. change (Zdigits2 0) with 0. lia.
    + assert (0 < Z.shiftr m k).
      { pose proof (Z.shiftr_nonneg m k). lia. }
      rewrite !Zdigits2_log2 by lia. rewrite Z.log2_shiftr by lia.
      assert (~ Z.log2 m < k).
      { intros C. apply E. apply Z.shiftr_eq_0; lia. }
      lia.
Qed.

Lemma Zdigits2_mul_pow m k :
  0 < m -> 0 <= k -> Zdigits2 (m * 2 ^ k) = Zdigits2 m + k.
Proof.
  intros Hm Hk. assert (0 < 2 ^ k) by (apply Z.pow_pos_nonneg; lia).
  rewrite !Zdigits2_log2 by nia. rewrite Z.log2_mul_pow2 by lia. lia.
Qed.

(* shr_1 on a non-negative record *)
Lemma shr_1_rec N D : 0 <= N -> 0 < D -> shr_1 (rec_of N D) = rec_of N (2 * D).
Proof.
  intros HN HD. unfold rec_of.
  pose proof (Z.div_mod N D ltac:(lia)) as E.
  pose proof (Z.mod_pos_bound N D HD) as B.
  pose proof (Z.div_pos N D HN HD) as Q.
  set (q := N / D) in *. set (r := N mod D) in *.
  assert (Hq : q = 2 * (q / 2) + q mod 2) by (apply Z.div_mod; lia).
  pose proof (Z.mod_pos_bound q 2 ltac:(lia)) as Bq.
  assert (D2 : N / (2 * D) = q / 2).
  { symmetry. apply (Z.div_unique N (2 * D) (q / 2) (D * (q mod 2) + r)); nia. }
  assert (M2 : N mod (2 * D) = D * (q mod 2) + r).
  { symmetry. apply (Z.mod_unique N (2 * D) (q / 2) (D * (q mod 2) + r)); nia. }
  rewrite D2, M2.
  assert (Hs : (D <=? 2 * r) || negb ((r =? 0) || (2 * r =? D))
               = negb ((D * (q mod 2) + r =? 0) || (2 * (D * (q mod 2) + r) =? 2 * D))).
  { assert (C : q mod 2 = 0 \/ q mod 2 = 1) by lia.
    destruct C as [C|C]; rewrite C;
    destruct (Z.leb_spec D (2 * r)), (Z.eqb_spec r 0), (Z.eqb_spec (2 * r) D),
      (Z.eqb_spec (D * 0 + r) 0), (Z.eqb_spec (2 * (D * 0 + r)) (2 * D)),
      (Z.eqb_spec (D * 1 + r) 0), (Z.eqb_spec (2 * (D * 1 + r)) (2 * D));
      simpl; try reflexivity; try lia. }
  unfold shr_1.
  destruct q as [|p|p]; try lia.
  - simpl (0 / 2). f_equal; auto.
    change (0 mod 2) with 0 in *. 
    destruct (Z.leb_spec (2 * D) (2 * (D * 0 + r))); auto; lia.
  - destruct p as [p|p|].
    + assert (Z.pos p~1 / 2 = Z.pos p /\ Z.pos p~1 mod 2 = 1) as [A B'].
      { rewrite Pos2Z.inj_xI in *. split; [|lia].
        symmetry; apply (Z.div_unique _ 2 _ 1); lia. }
      rewrite A, B' in *. f_equal; auto.
      destruct (Z.leb_spec (2 * D) (2 * (D * 1 + r))); auto; lia.
    + assert (Z.pos p~0 / 2 = Z.pos p /\ Z.pos p~0 mod 2 = 0) as [A B'].
      { rewrite Pos2Z.inj_xO in *. split; [|lia].
        symmetry; apply (Z.div_unique _ 2 _ 0); lia. }
      rewrite A, B' in *. f_equal; auto.
      destruct (Z.leb_spec (2 * D) (2 * (D * 0 + r))); auto; lia.
    + change (1 / 2) with 0. change (1 mod 2) with 1 in *. f_equal; auto.
      destruct (Z.leb_spec (2 * D) (2 * (D * 1 + r))); auto; lia.
Qed.

Lemma iter_shr_1_rec N p : 0 <= N -> forall D, 0 < D ->
  iter_pos shr_1 p (rec_of N D) = rec_of N (D * 2 ^ Z.pos p).
Proof.
  intros HN. induction p as [p IH|p IH|]; intros D HD; cbn [iter_pos].
  - assert (P : 0 < 2 ^ Z.pos p) by (apply Z.pow_pos_nonneg; lia).
    assert (E : 2 ^ Z.pos p~1 = 2 * (2 ^ Z.pos p * 2 ^ Z.pos p)).
    { rewrite <- Z.pow_add_r, <- (Z.pow_succ_r 2) by lia. f_equal. lia. }
    rewrite shr_1_rec, IH, IH by nia.
    f_equal. rewrite E. ring.
  - assert (P : 0 < 2 ^ Z.pos p) by (apply Z.pow_pos_nonneg; lia).
    assert (E : 2 ^ Z.pos p~0 = 2 ^ Z.pos p * 2 ^ Z.pos p).
    { rewrite <- Z.pow_add_r by lia. f_equal. lia. }
    rewrite IH, IH by nia.
    f_equal. rewrite E. ring.
  - rewrite shr_1_rec by lia. f_equal. change (2 ^ 1) with 2. ring.
Qed.

Lemma rec_of_mul_1 N D : rec_of N (D * 1) = rec_of N D.
Proof. rewrite Z.mul_1_r. reflexivity. Qed.

Lemma shr_rec N D e n : 0 <= N -> 0 < D ->
  shr (rec_of N D) e n = (rec_of N (D * 2 ^ Z.max 0 n), e + Z.max 0 n).
Proof.
  intros HN HD. unfold shr. destruct n as [|p|p].
  - change (Z.max 0 0) with 0. change (2 ^ 0) with 1.
    rewrite rec_of_mul_1, Z.add_0_r. reflexivity.
  - rewrite iter_shr_1_rec by lia. rewrite Z.max_r by lia. reflexivity.
  - rewrite Z.max_l by lia. change (2 ^ 0) with 1.
    rewrite rec_of_mul_1, Z.add_0_r. reflexivity.
Qed.

Lemma loc_rec_exact m : shr_record_of_loc m loc_Exact = rec_of m 1.
Proof.
  unfold rec_of. rewrite Z.div_1_r, Z.mod_1_r. reflexivity.
Qed.

Lemma rne_rec N D : 0 < D ->
  round_nearest_even (shr_m (rec_of N D)) (loc_of_shr_record (rec_of N D))
  = rne N D.
Proof.
  intros HD. unfold rec_of, rne, loc_of_shr_record, round_nearest_even, shr_m.
  pose proof (Z.mod_pos_bound N D HD) as B.
  destruct (Z.leb_spec D (2 * (N mod D))), (Z.eqb_spec (N mod D) 0),
    (Z.eqb_spec (2 * (N mod D)) D), (Z.ltb_spec (2 * (N mod D)) D),
    (Z.ltb_spec D (2 * (N mod D))); simpl; try reflexivity; try lia.
Qed.

Lemma rne_bounds N D : 0 < D -> N / D <= rne N D <= N / D + 1.
Proof.
  intros HD. unfold rne.
  destruct (2 * (N mod D) <? D), (D <? 2 * (N mod D)), (Z.even (N / D)); lia.
Qed.

Lemma rne_nonneg N D : 0 <= N -> 0 < D -> 0 <= rne N D.
Proof.
  intros HN HD. pose proof (rne_bounds N D HD).
  pose proof (Z.div_pos N D HN HD). lia.
Qed.

Lemma BRA_spec s m e l N D :
  0 <= N -> 0 < D -> m = N / D -> shr_record_of_loc m l = rec_of N D ->
  binary_round_aux prec emax s m e l = build s (round_at N D e).
Proof.
  intros HN HD Hm Hl. unfold binary_round_aux, shr_fexp.
  rewrite Hl, shr_rec by lia. rewrite rne_rec.
  2:{ apply Z.mul_pos_pos; [lia|]. apply Z.pow_pos_nonneg; lia. }
  rewrite loc_rec_exact, !fexp_eq.
  set (n1 := Z.max 0 (fexp64 (Zdigits2 m + e) - e)).
  set (m2 := rne N (D * 2 ^ n1)).
  assert (H2 : 0 <= m2).
  { apply rne_nonneg; [lia|]. apply Z.mul_pos_pos; [lia|].
    apply Z.pow_pos_nonneg; lia. }
  rewrite shr_rec by lia.
  unfold round_at, build. rewrite <- Hm.
  replace (Z.max e (fexp64 (Zdigits2 m + e)) - e) with n1 by (unfold n1; lia).
  fold m2.
  replace (Z.max e (fexp64 (Zdigits2 m + e))) with (e + n1) by (unfold n1; lia).
  set (n2 := Z.max 0 (fexp64 (Zdigits2 m2 + (e + n1)) - (e + n1))).
  replace (Z.max (e + n1) (fexp64 (Zdigits2 m2 + (e + n1))) - (e + n1))
    with n2 by (unfold n2; lia).
  replace (Z.max (e + n1) (fexp64 (Zdigits2 m2 + (e + n1))))
    with (e + n1 + n2) by (unfold n2; lia).
  cbn [fst snd shr_m rec_of]. rewrite Z.mul_1_l.
  reflexivity.
Qed.

Lemma pow2_pos k : 0 <= k -> 0 < 2 ^ k.
Proof. intros. apply Z.pow_pos_nonneg; lia. Qed.

Lemma iter_xO m d : Z.pos (Pos.iter xO m d) = Z.pos m * 2 ^ Z.pos d.
Proof.
  change (Pos.iter xO m d) with (shift_pos d m).
  rewrite shift_pos_correct. change (Z.pow_pos 2 d) with (2 ^ Z.pos d). ring.
Qed.

(* shl_align lowers the exponent to [e'] when that is below [e] *)
Lemma shl_align_spec m e e' :
  shl_align m e e'
  = (Z.to_pos (Z.pos m * 2 ^ (e - Z.min e e')), Z.min e e').
Proof.
  unfold shl_align. destruct (e' - e) as [|p|p] eqn:E.
  - rewrite Z.min_l by lia. rewrite Z.sub_diag. simpl. rewrite Pos.mul_1_r. reflexivity.
  - rewrite Z.min_l by lia. rewrite Z.sub_diag. simpl. rewrite Pos.mul_1_r. reflexivity.
  - rewrite Z.min_r by lia. replace (e - e') with (Z.pos p) by lia.
    rewrite <- iter_xO. reflexivity.
Qed.

Lemma shl_align_fst m e e' : e' <= e ->
  Z.pos (fst (shl_align m e e')) = Z.pos m * 2 ^ (e - e').
Proof.
  intros H. rewrite shl_align_spec. cbn [fst]. rewrite Z.min_r by lia.
  pose proof (pow2_pos (e - e') ltac:(lia)). rewrite Z2Pos.id; lia.
Qed.

Lemma round_at_fst_nonneg N D e : 0 <= N -> 0 < D -> 0 <= fst (round_at N D e).
Proof.
  intros HN HD. unfold round_at. cbn [fst].
  apply Z.div_pos.
  - apply rne_nonneg; [lia|]. apply Z.mul_pos_pos; [lia|]. apply pow2_pos. lia.
  - apply pow2_pos. lia.
Qed.

Lemma build_nonneg me : 0 <= fst me -> SFnonneg (build false me).
Proof.
  unfold build. destruct (fst me); try lia; intros _; simpl; auto.
  destruct (snd me <=? 971); simpl; auto.
Qed.

(* the second alignment never loses the last bit *)
Lemma stage2_pos m2 e1 :
  0 < m2 -> -1074 <= e1 ->
  0 < m2 / 2 ^ (Z.max e1 (fexp64 (Zdigits2 m2 + e1)) - e1).
Proof.
  intros Hm He. unfold fexp64.
  pose proof (Zdigits2_spec m2 Hm) as [L U].
  pose proof (Zdigits2_pos m2 Hm) as Dp.
  set (d := Zdigits2 m2) in *.
  set (k := Z.max e1 (Z.max (d + e1 - 53) (-1074)) - e1).
  assert (Hk : 0 <= k <= d - 1) by (unfold k; lia).
  apply Z.div_str_pos. split; [apply pow2_pos; lia|].
  transitivity (2 ^ (d - 1)); [|lia]. apply Z.pow_le_mono_r; lia.
Qed.

Lemma round_at_exp_ge N D e : -1074 <= snd (round_at N D e) /\ e <= snd (round_at N D e).
Proof. unfold round_at, fexp64. cbn [snd]. lia. Qed.

Lemma div_div_pow N D k : 0 < D -> 0 <= k -> N / (D * 2 ^ k) = N / D / 2 ^ k.
Proof.
  intros. rewrite Z.div_div; [reflexivity | lia | apply pow2_pos; lia].
Qed.

Lemma round_at_canonical N D e :
  0 <= N -> 0 < D -> fine N D e ->
  0 < fst (round_at N D e) ->
  fexp64 (Zdigits2 (fst (round_at N D e)) + snd (round_at N D e))
  = snd (round_at N D e).
Proof.
  intros HN HD Hf. unfold fine in Hf. unfold round_at. cbn [fst snd].
  set (m := N / D) in *. set (d := Zdigits2 m) in *.
  assert (Hm : 0 <= m) by (apply Z.div_pos; lia).
  set (e1 := Z.max e (fexp64 (d + e))).
  assert (E1 : e1 = fexp64 (d + e)) by (unfold e1; lia).
  set (D1 := D * 2 ^ (e1 - e)).
  assert (HD1 : 0 < D1).
  { apply Z.mul_pos_pos; [lia|]. apply pow2_pos. lia. }
  pose proof (rne_bounds N D1 HD1) as B.
  assert (M1 : N / D1 = m / 2 ^ (e1 - e)).
  { unfold D1. apply div_div_pow; lia. }
  assert (Dm1 : Zdigits2 (N / D1) = Z.max 0 (d - (e1 - e))).
  { rewrite M1. apply Zdigits2_div_pow; lia. }
  set (m1 := N / D1) in *. set (m2 := rne N D1) in *.
  assert (Hm1 : 0 <= m1) by (apply Z.div_pos; lia).
  pose proof (Zdigits2_lt m1 Hm1) as U1.
  intros Hpos.
  assert (Hm2 : 0 < m2).
  { destruct (Z.eq_dec m2 0) as [Hz|]; [|lia]. rewrite Hz in Hpos.
    rewrite Z.div_0_l in Hpos; [lia|]. apply Z.pow_nonzero; lia. }
  unfold fexp64 in E1.
  destruct (Z_lt_le_dec (d + e - 53) (-1074)) as [Sub|Nor].
  - (* subnormal *)
    assert (e1 = -1074) by lia.
    assert (Zdigits2 m1 <= 52) by lia.
    assert (m1 < 2 ^ 52).
    { eapply Z.lt_le_trans; [exact U1|]. apply Z.pow_le_mono_r; lia. }
    assert (Zdigits2 m2 <= 53).
    { apply Zdigits2_le_pow; lia. }
    pose proof (Zdigits2_pos m2 Hm2).
    unfold fexp64.
    replace (Z.max e1 (Z.max (Zdigits2 m2 + e1 - 53) (-1074))) with e1 by lia.
    rewrite Z.sub_diag. change (2 ^ 0) with 1. rewrite Z.div_1_r. lia.
  - (* normal *)
    assert (e1 = d + e - 53) by lia.
    assert (Zdigits2 m1 = 53) by lia.
    assert (L1 : 2 ^ 52 <= m1).
    { destruct (Z.eq_dec m1 0) as [Hz|].
      { rewrite Hz in H0. simpl in H0. lia. }
      pose proof (Zdigits2_spec m1 ltac:(lia)) as [L _].
      replace (Zdigits2 m1 - 1) with 52 in L by lia. exact L. }
    assert (U1' : m1 < 2 ^ 53) by (replace 53 with (Zdigits2 m1) by lia; exact U1).
    destruct (Z_lt_le_dec m2 (2 ^ 53)) as [Lt|Ge].
    + assert (Zdigits2 m2 = 53).
      { apply Zdigits2_unique; [lia|]. change (53 - 1) with 52. lia. }
      unfold fexp64.
      replace (Z.max e1 (Z.max (Zdigits2 m2 + e1 - 53) (-1074))) with e1 by lia.
      rewrite Z.sub_diag. change (2 ^ 0) with 1. rewrite Z.div_1_r. lia.
    + assert (M2 : m2 = 2 ^ 53) by lia.
      assert (Zdigits2 m2 = 54) by (rewrite M2; reflexivity).
      unfold fexp64.
      replace (Z.max e1 (Z.max (Zdigits2 m2 + e1 - 53) (-1074))) with (e1 + 1) by lia.
      replace (e1 + 1 - e1) with 1 by lia. rewrite M2.
      change (2 ^ 53 / 2 ^ 1) with (2 ^ 52). change (Zdigits2 (2 ^ 52)) with 53. lia.
Qed.

Lemma build_valid s N D e :
  0 <= N -> 0 < D -> fine N D e ->
  valid_binary (build s (round_at N D e)) = true.
Proof.
  intros HN HD Hf. pose proof (round_at_canonical N D e HN HD Hf) as C.
  unfold build. destruct (fst (round_at N D e)) as [|p|p] eqn:E; try reflexivity.
  destruct (Z.leb_spec (snd (round_at N D e)) 971) as [L|G]; [|reflexivity].
  unfold valid_binary, bounded, canonical_mantissa.
  rewrite fexp_eq. change (Z.pos (digits2_pos p)) with (Zdigits2 (Z.pos p)).
  rewrite C by lia. rewrite Z.eqb_refl. simpl.
  apply Z.leb_le. exact L.
Qed.

Lemma binary_round_spec s m e :
  let e' := Z.min e (fexp64 (Zdigits2 (Z.pos m) + e)) in
  binary_round prec emax s m e = build s (round_at (Z.pos m * 2 ^ (e - e')) 1 e')
  /\ fine (Z.pos m * 2 ^ (e - e')) 1 e'.
Proof.
  intros e'. unfold binary_round. rewrite fexp_eq, shl_align_spec.
  change (Z.pos (digits2_pos m)) with (Zdigits2 (Z.pos m)). fold e'.
  assert (P : 0 < 2 ^ (e - e')) by (apply pow2_pos; unfold e'; lia).
  assert (N0 : 0 < Z.pos m * 2 ^ (e - e')) by lia.
  rewrite Z2Pos.id by lia. split.
  - apply (BRA_spec _ _ _ _ (Z.pos m * 2 ^ (e - e')) 1);
      [lia | lia | rewrite Z.div_1_r; reflexivity | apply loc_rec_exact].
  - unfold fine. rewrite Z.div_1_r, Zdigits2_mul_pow by (unfold e'; lia).
    replace (Zdigits2 (Z.pos m) + (e - e') + e') with (Zdigits2 (Z.pos m) + e) by lia.
    unfold e'. lia.
Qed.

Lemma new_location_rec N D : 0 < D ->
  shr_record_of_loc (N / D) (new_location D (N mod D)) = rec_of N D.
Proof.
  intros HD. pose proof (Z.mod_pos_bound N D HD) as B. unfold rec_of.
  set (r := N mod D) in *.
  unfold new_location, new_location_even, new_location_odd.
  destruct (Z.even D) eqn:Ev.
  - destruct (Z.eqb_spec r 0) as [E|E].
    + destruct (Z.leb_spec D (2 * r)); [lia|]. reflexivity.
    + destruct (Z.compare_spec (2 * r) D) as [C|C|C];
        destruct (Z.leb_spec D (2 * r)); try lia;
        destruct (Z.eqb_spec (2 * r) D); try lia; reflexivity.
  - assert (O : 2 * r <> D).
    { intros C. rewrite <- C, Z.even_mul in Ev. discriminate. }
    destruct (Z.eqb_spec r 0) as [E|E].
    + destruct (Z.leb_spec D (2 * r)); [lia|]. reflexivity.
    + destruct (Z.compare_spec (2 * r + 1) D) as [C|C|C];
        destruct (Z.leb_spec D (2 * r)); try lia;
        destruct (Z.eqb_spec (2 * r) D); try lia; reflexivity.
Qed.

Lemma div_eucl_eq a b : Z.div_eucl a b = (a / b, a mod b).
Proof. unfold Z.div, Z.modulo. destruct (Z.div_eucl a b). reflexivity. Qed.

Lemma SFdiv_core_spec mx ex my ey :
  let e' := Z.min (fexp64 (Zdigits2 (Z.pos mx) + ex - (Zdigits2 (Z.pos my) + ey)))
                  (ex - ey) in
  let N := Z.pos mx * 2 ^ (ex - ey - e') in
  SFdiv_core_binary prec emax (Z.pos mx) ex (Z.pos my) ey
  = (N / Z.pos my, e', new_location (Z.pos my) (N mod Z.pos my))
  /\ fine N (Z.pos my) e'.
Proof.
  intros e' N. unfold SFdiv_core_binary. rewrite fexp_eq. fold e'.
  assert (S : 0 <= ex - ey - e') by (unfold e'; lia).
  assert (M : match ex - ey - e' with
              | 0 => Z.pos mx
              | Z.pos _ => Z.shiftl (Z.pos mx) (ex - ey - e')
              | Z.neg _ => 0
              end = N).
  { unfold N. destruct (ex - ey - e') as [|p|p] eqn:E;
      [ change (2 ^ 0) with 1; lia
      | rewrite Z.shiftl_mul_pow2 by lia; reflexivity
      | lia ]. }
  rewrite M, div_eucl_eq. split; [reflexivity|].
  (* fine *)
  unfold fine.
  set (d1 := Zdigits2 (Z.pos mx)) in *. set (d2 := Zdigits2 (Z.pos my)) in *.
  pose proof (Zdigits2_spec (Z.pos mx) ltac:(lia)) as [L1 U1]. fold d1 in L1, U1.
  pose proof (Zdigits2_spec (Z.pos my) ltac:(lia)) as [L2 U2]. fold d2 in L2, U2.
  pose proof (Zdigits2_pos (Z.pos mx) ltac:(lia)) as P1. fold d1 in P1.
  pose proof (Zdigits2_pos (Z.pos my) ltac:(lia)) as P2. fold d2 in P2.
  set (s := ex - ey - e') in *.
  assert (G : d1 + s - d2 <= Zdigits2 (N / Z.pos my)).
  { destruct (Z_lt_le_dec (d1 + s - d2) 1) as [Sm|Bg].
    - pose proof (Zdigits2_nonneg (N / Z.pos my)). lia.
    - assert (d1 + s - d2 - 1 < Zdigits2 (N / Z.pos my)); [|lia].
      apply Zdigits2_ge_pow; [lia|].
      apply Z.div_le_lower_bound; [lia|].
      (* my * 2^(d1+s-d2-1) <= mx * 2^s *)
      unfold N.
      assert (E : 2 ^ (d1 - 1) * 2 ^ s = 2 ^ d2 * 2 ^ (d1 + s - d2 - 1)).
      { rewrite <- !Z.pow_add_r by lia. f_equal. lia. }
      pose proof (pow2_pos s S). pose proof (pow2_pos (d1 + s - d2 - 1) ltac:(lia)).
      nia. }
  unfold fexp64 in *. unfold e' in *. lia.
Qed.

Lemma SFdiv_finite_spec sx mx ex sy my ey :
  let e' := Z.min (fexp64 (Zdigits2 (Z.pos mx) + ex - (Zdigits2 (Z.pos my) + ey)))
                  (ex - ey) in
  let N := Z.pos mx * 2 ^ (ex - ey - e') in
  SFdiv prec emax (S754_finite sx mx ex) (S754_finite sy my ey)
  = build (xorb sx sy) (round_at N (Z.pos my) e')
  /\ fine N (Z.pos my) e'.
Proof.
  intros e' N. destruct (SFdiv_core_spec mx ex my ey) as [C F].
  fold e' in C, F. fold N in C, F. split; [|exact F].
  unfold SFdiv. rewrite C.
  assert (P : 0 < 2 ^ (ex - ey - e')) by (apply pow2_pos; unfold e'; lia).
  apply (BRA_spec _ _ _ _ N (Z.pos my));
    [unfold N; lia | lia | reflexivity | apply new_location_rec; lia].
Qed.

Lemma SFmul_finite_spec sx mx ex sy my ey :
  SFmul prec emax (S754_finite sx mx ex) (S754_finite sy my ey)
  = build (xorb sx sy) (round_at (Z.pos mx * Z.pos my) 1 (ex + ey)).
Proof.
  unfold SFmul.
  apply (BRA_spec _ _ _ _ (Z.pos mx * Z.pos my) 1);
    [lia | lia | rewrite Z.div_1_r; reflexivity
    | rewrite Pos2Z.inj_mul; apply loc_rec_exact].
Qed.

Lemma valid_canonical s m e :
  valid_binary (S754_finite s m e) = true -> canonical m e /\ e <= 971.
Proof.
  unfold valid_binary, bounded, canonical_mantissa, canonical.
  rewrite fexp_eq. intros H. apply andb_prop in H as [A B].
  apply Z.eqb_eq in A. apply Z.leb_le in B. split; [exact A|exact B].
Qed.

(* comparing a finite positive float with a built one *)
Lemma SFleb_build m e m3 e3 :
  0 < m3 -> (e < e3 \/ (e = e3 /\ Z.pos m <= m3)) ->
  SFleb (S754_finite false m e) (build false (m3, e3)) = true.
Proof.
  intros Hm H. unfold build. cbn [fst snd].
  destruct m3 as [|p|p]; try lia.
  destruct (e3 <=? 971); [|reflexivity].
  unfold SFleb. rewrite SFcompare_pos. unfold cmp_pos.
  destruct H as [H|[H1 H2]].
  - rewrite (proj2 (Z.compare_lt_iff e e3)) by lia. reflexivity.
  - rewrite (proj2 (Z.compare_eq_iff e e3)) by lia.
    destruct (Pos.compare_spec m p); try reflexivity. lia.
Qed.

(** The rounding of an exact value that is at least a float of the format
    is at least that float. *)
Lemma round_at_ge mx ex N D e :
  canonical mx ex -> e <= ex -> 0 < D ->
  Z.pos mx * 2 ^ (ex - e) * D <= N ->
  SFleb (S754_finite false mx ex) (build false (round_at N D e)) = true.
Proof.
  intros Hc He HD HN. unfold canonical in Hc.
  assert (P : 0 < 2 ^ (ex - e)) by (apply pow2_pos; lia).
  set (X := Z.pos mx * 2 ^ (ex - e)) in *.
  assert (HX : 0 < X) by (unfold X; lia).
  assert (HN0 : 0 <= N) by nia.
  assert (Hm : X <= N / D) by (apply Z.div_le_lower_bound; nia).
  assert (Hd : Zdigits2 (Z.pos mx) + (ex - e) <= Zdigits2 (N / D)).
  { rewrite <- Zdigits2_mul_pow by lia. apply Zdigits2_le. fold X. lia. }
  unfold round_at.
  set (m := N / D) in *. set (dm := Zdigits2 m) in *.
  set (e1 := Z.max e (fexp64 (dm + e))).
  assert (E1 : ex <= e1) by (unfold e1, fexp64 in *; lia).
  assert (E1' : -1074 <= e1) by (unfold e1, fexp64; lia).
  set (D1 := D * 2 ^ (e1 - e)).
  assert (HD1 : 0 < D1).
  { apply Z.mul_pos_pos; [lia|]. apply pow2_pos. lia. }
  pose proof (rne_bounds N D1 HD1) as B.
  assert (M1 : N / D1 = m / 2 ^ (e1 - e)).
  { unfold D1. apply div_div_pow; lia. }
  set (m2 := rne N D1) in *.
  assert (Hm2 : 0 < m2 /\ (e1 = ex -> Z.pos mx <= m2)).
  { destruct (Z.eq_dec e1 ex) as [Eq|Ne].
    - assert (Z.pos mx <= m / 2 ^ (e1 - e)).
      { rewrite Eq. apply Z.div_le_lower_bound; [lia|]. fold X in Hm. unfold X in Hm. lia. }
      lia.
    - assert (e1 = dm + e - 53) by (unfold e1, fexp64 in *; lia).
      assert (Dg : Zdigits2 (m / 2 ^ (e1 - e)) = 53).
      { rewrite Zdigits2_div_pow by lia. lia. }
      assert (0 < m / 2 ^ (e1 - e)).
      { assert (0 <= m / 2 ^ (e1 - e)) by (apply Z.div_pos; [lia|apply pow2_pos; lia]).
        destruct (Z.eq_dec (m / 2 ^ (e1 - e)) 0) as [Hz|]; [|lia].
        rewrite Hz in Dg. discriminate. }
      lia. }
  destruct Hm2 as [Hm2 Hge].
  set (e3 := Z.max e1 (fexp64 (Zdigits2 m2 + e1))).
  apply SFleb_build.
  - apply stage2_pos; lia.
  - destruct (Z.eq_dec e3 ex) as [Eq|Ne].
    + right. split; [lia|]. assert (e3 = e1) by (unfold e3 in *; lia).
      replace (e3 - e1) with 0 by lia. change (2 ^ 0) with 1.
      rewrite Z.div_1_r. apply Hge. lia.
    + left. unfold e3 in *. lia.
Qed.

Lemma SFleb_refl_pos m e : SFleb (S754_finite false m e) (S754_finite false m e) = true.
Proof.
  unfold SFleb. rewrite SFcompare_pos. unfold cmp_pos.
  rewrite Z.compare_refl, Pos.compare_refl. reflexivity.
Qed.

Lemma SFadd_finite_spec mx ex my ey :
  let ez := Z.min ex ey in
  let M := Z.pos mx * 2 ^ (ex - ez) + Z.pos my * 2 ^ (ey - ez) in
  let e' := Z.min ez (fexp64 (Zdigits2 M + ez)) in
  SFadd prec emax (S754_finite false mx ex) (S754_finite false my ey)
  = build false (round_at (M * 2 ^ (ez - e')) 1 e').
Proof.
  intros ez M e'. unfold SFadd. fold ez. unfold cond_Zopp.
  rewrite !shl_align_fst by (unfold ez; lia). fold M.
  assert (0 < 2 ^ (ex - ez)) by (apply pow2_pos; unfold ez; lia).
  assert (0 < 2 ^ (ey - ez)) by (apply pow2_pos; unfold ez; lia).
  assert (HM : 0 < M) by (unfold M; lia).
  destruct M as [|p|p] eqn:EM; try lia.
  unfold binary_normalize.
  destruct (binary_round_spec false p ez) as [R _]. exact R.
Qed.

(** Adding a non-negative float never decreases a non-negative one. *)
Lemma SFadd_ge x d :
  valid_binary x = true -> SFnonneg x -> SFnonneg d ->
  SFleb x (SFadd prec emax x d) = true /\ SFnonneg (SFadd prec emax x d).
Proof.
  intros Vx Hx Hd.
  destruct x as [sx|sx| |sx mx ex], d as [sd|sd| |sd md ed];
    simpl in Hx, Hd; try contradiction; subst;
    try (split; [reflexivity | exact I]);
    try (split; reflexivity);
    try (destruct sx, sd; split; reflexivity);
    try (destruct sx; split; reflexivity);
    try (destruct sd; split; reflexivity).
  - split; [apply SFleb_refl_pos | reflexivity].
  - rewrite SFadd_finite_spec. cbv zeta.
    apply valid_canonical in Vx as [Cx Bx].
    set (ez := Z.min ex ed).
    set (M := Z.pos mx * 2 ^ (ex - ez) + Z.pos md * 2 ^ (ed - ez)).
    set (e' := Z.min ez (fexp64 (Zdigits2 M + ez))).
    assert (0 < 2 ^ (ex - ez)) by (apply pow2_pos; unfold ez; lia).
    assert (0 < 2 ^ (ed - ez)) by (apply pow2_pos; unfold ez; lia).
    assert (0 < 2 ^ (ez - e')) by (apply pow2_pos; unfold e'; lia).
    assert (HM : 0 < M) by (unfold M; lia).
    split.
    + apply round_at_ge; auto; try (unfold e', ez; lia).
      rewrite Z.mul_1_r.
      replace (ex - e') with ((ex - ez) + (ez - e')) by lia.
      rewrite Z.pow_add_r by (unfold e', ez; lia).
      unfold M. nia.
    + apply build_nonneg, round_at_fst_nonneg; nia.
Qed.

Lemma rne_mono N N' D : 0 <= N <= N' -> 0 < D -> rne N D <= rne N' D.
Proof.
  intros HN HD.
  pose proof (rne_bounds N D HD) as B. pose proof (rne_bounds N' D HD) as B'.
  assert (Q : N / D <= N' / D) by (apply Z.div_le_mono; lia).
  destruct (Z.eq_dec (N / D) (N' / D)) as [E|E]; [|lia].
  pose proof (Z.div_mod N D ltac:(lia)) as E1.
  pose proof (Z.div_mod N' D ltac:(lia)) as E2.
  assert (R : N mod D <= N' mod D) by nia.
  unfold rne. rewrite <- E.
  destruct (Z.ltb_spec (2 * (N mod D)) D), (Z.ltb_spec D (2 * (N mod D))),
    (Z.ltb_spec (2 * (N' mod D)) D), (Z.ltb_spec D (2 * (N' mod D)));
    destruct (Z.even (N / D)); lia.
Qed.

Lemma rne_scale N D k : 0 < D -> 0 < k -> rne (N * k) (D * k) = rne N D.
Proof.
  intros HD Hk. unfold rne.
  rewrite Z.div_mul_cancel_r, Z.mul_mod_distr_r by lia.
  destruct (Z.ltb_spec (2 * (N mod D * k)) (D * k)), (Z.ltb_spec (2 * (N mod D)) D),
    (Z.ltb_spec (D * k) (2 * (N mod D * k))), (Z.ltb_spec D (2 * (N mod D)));
    try reflexivity; nia.
Qed.

Lemma fexp64_mono a b : a <= b -> fexp64 a <= fexp64 b.
Proof. unfold fexp64. lia. Qed.

Lemma SFleb_zero_build me : 0 <= fst me -> forall s,
  SFleb (S754_zero s) (build false me) = true.
Proof.
  intros H s. unfold build. destruct (fst me); try lia; try reflexivity.
  destruct (snd me <=? 971); reflexivity.
Qed.

(* comparing two built floats *)
Lemma SFleb_build_build m3 e3 m3' e3' :
  0 <= m3 -> 0 < m3' \/ m3 = 0 -> 0 <= m3' ->
  (e3 < e3' \/ (e3 = e3' /\ m3 <= m3')) ->
  SFleb (build false (m3, e3)) (build false (m3', e3')) = true.
Proof.
  intros H0 Hp H0' H. destruct (Z.eq_dec m3 0) as [Hz|Hz].
  - rewrite Hz. apply (SFleb_zero_build (m3', e3')). exact H0'.
  - assert (0 < m3') by lia.
    unfold build at 1. cbn [fst snd]. destruct m3 as [|p|p]; try lia.
    destruct (Z.leb_spec e3 971).
    + apply SFleb_build; lia.
    + unfold build. cbn [fst snd]. destruct m3' as [|p'|p']; try lia.
      destruct (Z.leb_spec e3' 971); [lia|]. reflexivity.
Qed.

(** Rounding is monotone: on one grid of representations, a larger exact
    value rounds to a float that is not smaller. *)
Lemma round_at_mono N N' D e :
  0 <= N <= N' -> 0 < D ->
  SFleb (build false (round_at N D e)) (build false (round_at N' D e)) = true.
Proof.
  intros HN HD. unfold round_at.
  set (m := N / D). set (m' := N' / D).
  assert (Hm : 0 <= m) by (apply Z.div_pos; lia).
  assert (Hmm : m <= m') by (apply Z.div_le_mono; lia).
  pose proof (Zdigits2_le m m' ltac:(lia)) as Hd.
  set (d := Zdigits2 m) in *. set (d' := Zdigits2 m') in *.
  set (e1 := Z.max e (fexp64 (d + e))). set (e1' := Z.max e (fexp64 (d' + e))).
  assert (E1 : e1 <= e1') by (unfold e1, e1', fexp64; lia).
  assert (L1 : -1074 <= e1) by (unfold e1, fexp64; lia).
  assert (L1' : -1074 <= e1') by (unfold e1', fexp64; lia).
  set (D1 := D * 2 ^ (e1 - e)). set (D1' := D * 2 ^ (e1' - e)).
  assert (HD1 : 0 < D1).
  { apply Z.mul_pos_pos; [lia|]. apply pow2_pos. unfold e1; lia. }
  assert (HD1' : 0 < D1').
  { apply Z.mul_pos_pos; [lia|]. apply pow2_pos. unfold e1'; lia. }
  pose proof (rne_bounds N D1 HD1) as B. pose proof (rne_bounds N' D1' HD1') as B'.
  assert (M1 : N / D1 = m / 2 ^ (e1 - e)).
  { unfold D1. apply div_div_pow; [lia|unfold e1; lia]. }
  assert (M1' : N' / D1' = m' / 2 ^ (e1' - e)).
  { unfold D1'. apply div_div_pow; [lia|unfold e1'; lia]. }
  assert (Hm1 : 0 <= N / D1) by (apply Z.div_pos; lia).
  assert (Hm1' : 0 <= N' / D1') by (apply Z.div_pos; lia).
  set (m2 := rne N D1) in *. set (m2' := rne N' D1') in *.
  set (e3 := Z.max e1 (fexp64 (Zdigits2 m2 + e1))).
  set (e3' := Z.max e1' (fexp64 (Zdigits2 m2' + e1'))).
  assert (P3 : 0 < 2 ^ (e3 - e1)) by (apply pow2_pos; unfold e3; lia).
  assert (P3' : 0 < 2 ^ (e3' - e1')) by (apply pow2_pos; unfold e3'; lia).
  assert (H3 : 0 <= m2 / 2 ^ (e3 - e1)) by (apply Z.div_pos; lia).
  assert (H3' : 0 <= m2' / 2 ^ (e3' - e1')) by (apply Z.div_pos; lia).
  destruct (Z.eq_dec e1 e1') as [Eq|Ne].
  - (* the same grid *)
    assert (D1' = D1) by (unfold D1, D1'; rewrite Eq; reflexivity).
    assert (M2 : m2 <= m2').
    { unfold m2, m2'. rewrite H. apply rne_mono; lia. }
    pose proof (Zdigits2_le m2 m2' ltac:(lia)) as Hd2.
    assert (E3 : e3 <= e3') by (unfold e3, e3', fexp64; lia).
    apply SFleb_build_build; auto.
    + destruct (Z.eq_dec e3 e3') as [Eq3|Ne3].
      * destruct (Z.eq_dec (m2 / 2 ^ (e3 - e1)) 0); [auto|left].
        assert (m2 / 2 ^ (e3 - e1) <= m2' / 2 ^ (e3' - e1')).
        { rewrite <- Eq3, <- Eq. apply Z.div_le_mono; lia. }
        lia.
      * destruct (Z.eq_dec m2' 0) as [Hz|Hz].
        { right. assert (m2 = 0) by lia. rewrite H0.
          apply Z.div_0_l. lia. }
        left. apply stage2_pos; lia.
    + destruct (Z.eq_dec e3 e3') as [Eq3|Ne3]; [right|left; lia].
      split; [exact Eq3|]. rewrite <- Eq3, <- Eq. apply Z.div_le_mono; lia.
  - (* the larger value lies on a coarser grid *)
    assert (E1' : e1' = d' + e - 53) by (unfold e1, e1', fexp64 in *; lia).
    assert (Dg' : Zdigits2 (N' / D1') = 53).
    { rewrite M1', Zdigits2_div_pow by (unfold m' in *; lia). lia. }
    assert (Lo' : 2 ^ 52 <= N' / D1').
    { destruct (Z.eq_dec (N' / D1') 0) as [Hz|Hz].
      - rewrite Hz in Dg'. discriminate.
      - pose proof (Zdigits2_spec (N' / D1') ltac:(lia)) as [L _].
        rewrite Dg' in L. exact L. }
    assert (Dg : Zdigits2 (N / D1) <= 53).
    { rewrite M1, Zdigits2_div_pow by (unfold e1; lia). fold d.
      unfold e1, fexp64. lia. }
    assert (Up : N / D1 < 2 ^ 53).
    { eapply Z.lt_le_trans; [apply Zdigits2_lt; lia|].
      apply Z.pow_le_mono_r; lia. }
    assert (Dg2 : Zdigits2 m2 <= 54).
    { apply Zdigits2_le_pow; lia. }
    assert (E3 : e3 <= e1 + 1) by (unfold e3, fexp64; lia).
    assert (E3' : e1' <= e3') by (unfold e3'; lia).
    apply SFleb_build_build; auto.
    + left. apply stage2_pos; lia.
    + destruct (Z.eq_dec e3 e3') as [Eq3|Ne3]; [right|left; lia].
      split; [exact Eq3|].
      assert (e3' = e1') by lia. assert (e3 = e1 + 1) by lia.
      replace (e3' - e1') with 0 by lia. replace (e3 - e1) with 1 by lia.
      change (2 ^ 0) with 1. rewrite Z.div_1_r. change (2 ^ 1) with 2.
      assert (m2 / 2 <= 2 ^ 52).
      { apply Z.div_le_upper_bound; [lia|]. change (2 * 2 ^ 52) with (2 ^ 53). lia. }
      lia.
Qed.

(** On a fine representation the result depends on the value alone:
    lowering the exponent and scaling the numerator changes nothing. *)
Lemma round_at_scale N D e j :
  0 <= N -> 0 < D -> 0 <= j -> fine N D e ->
  round_at (N * 2 ^ j) D (e - j) = round_at N D e.
Proof.
  intros HN HD Hj Hf. unfold fine in Hf. unfold round_at.
  pose proof (pow2_pos j Hj) as Pj.
  set (m := N / D) in *. set (m' := N * 2 ^ j / D).
  assert (Hm : 0 <= m) by (apply Z.div_pos; lia).
  assert (Hm' : 0 <= m') by (apply Z.div_pos; nia).
  pose proof (Z.div_mod N D ltac:(lia)) as EN. fold m in EN.
  pose proof (Z.mod_pos_bound N D HD) as BN.
  assert (F : fexp64 (Zdigits2 m' + (e - j)) = fexp64 (Zdigits2 m + e)).
  { destruct (Z.eq_dec m 0) as [Hz|Hz].
    - rewrite Hz in *. change (Zdigits2 0) with 0 in *.
      assert (m' < 2 ^ j).
      { apply Z.div_lt_upper_bound; [lia|]. nia. }
      assert (Zdigits2 m' <= j) by (apply Zdigits2_le_pow; lia).
      pose proof (Zdigits2_nonneg m'). unfold fexp64 in *. lia.
    - pose proof (Zdigits2_spec m ltac:(lia)) as [L U].
      pose proof (Zdigits2_pos m ltac:(lia)) as Dp.
      set (d := Zdigits2 m) in *.
      assert (Zdigits2 m' = d + j); [|replace (Zdigits2 m' + (e - j)) with (d + e) by lia; reflexivity].
      apply Zdigits2_unique; [lia|].
      replace (d + j - 1) with (d - 1 + j) by lia.
      rewrite !Z.pow_add_r by lia.
      assert (A1 : D * 2 ^ (d - 1) <= N) by nia.
      assert (A2 : N < D * 2 ^ d) by nia.
      split.
      + apply Z.div_le_lower_bound; [lia|].
        rewrite Z.mul_assoc. apply Z.mul_le_mono_nonneg_r; lia.
      + apply Z.div_lt_upper_bound; [lia|].
        rewrite Z.mul_assoc. apply Z.mul_lt_mono_pos_r; lia. }
  rewrite F.
  set (f := fexp64 (Zdigits2 m + e)) in *.
  replace (Z.max (e - j) f) with f by lia.
  replace (Z.max e f) with f by lia.
  replace (D * 2 ^ (f - (e - j))) with (D * 2 ^ (f - e) * 2 ^ j).
  2:{ replace (f - (e - j)) with (f - e + j) by lia.
      rewrite Z.pow_add_r by lia. ring. }
  rewrite rne_scale; [reflexivity| |lia].
  apply Z.mul_pos_pos; [lia|]. apply pow2_pos. lia.
Qed.

Lemma canonical_bounds m e :
  canonical m e -> -1074 <= e /\ Zdigits2 (Z.pos m) <= 53
                   /\ (-1074 < e -> Zdigits2 (Z.pos m) = 53).
Proof. unfold canonical, fexp64. lia. Qed.

(** Canonical floats are ordered as their values are. *)
Lemma cmp_pos_value mx ex my ey a :
  canonical mx ex -> canonical my ey -> cmp_pos mx ex my ey <> Gt ->
  a <= ex -> a <= ey ->
  Z.pos mx * 2 ^ (ex - a) <= Z.pos my * 2 ^ (ey - a).
Proof.
  intros Cx Cy H Hx Hy. unfold cmp_pos in H.
  apply canonical_bounds in Cx as [Lx [Dx _]].
  apply canonical_bounds in Cy as [Ly [Dy Ny]].
  destruct (Z.compare_spec ex ey) as [E|L|G]; try congruence.
  - subst ey. destruct (Pos.compare_spec mx my); try congruence;
      pose proof (pow2_pos (ex - a) ltac:(lia)); nia.
  - pose proof (Zdigits2_lt (Z.pos mx) ltac:(lia)) as Ux.
    pose proof (Zdigits2_spec (Z.pos my) ltac:(lia)) as [Ly' _].
    rewrite Ny in Ly' by lia. change (53 - 1) with 52 in Ly'.
    assert (Z.pos mx < 2 ^ 53).
    { eapply Z.lt_le_trans; [exact Ux|]. apply Z.pow_le_mono_r; lia. }
    pose proof (pow2_pos (ex - a) ltac:(lia)) as Pa.
    assert (2 ^ (ey - a) = 2 ^ (ey - ex - 1) * 2 * 2 ^ (ex - a)).
    { replace (ey - a) with ((ey - ex - 1) + 1 + (ex - a)) by lia.
      rewrite !Z.pow_add_r by lia. reflexivity. }
    pose proof (pow2_pos (ey - ex - 1) ltac:(lia)) as Pb.
    rewrite H1. change (2 ^ 53) with (2 * 2 ^ 52) in H0. nia.
Qed.

Lemma SFdiv_finite_mono mx ex my ey mc ec :
  canonical mx ex -> canonical my ey ->
  cmp_pos mx ex my ey <> Gt ->
  SFleb (SFdiv prec emax (S754_finite false mx ex) (S754_finite false mc ec))
        (SFdiv prec emax (S754_finite false my ey) (S754_finite false mc ec))
  = true.
Proof.
  intros Cx Cy H.
  destruct (SFdiv_finite_spec false mx ex false mc ec) as [Ex Fx].
  destruct (SFdiv_finite_spec false my ey false mc ec) as [Ey Fy].
  rewrite Ex, Ey. cbn [xorb]. clear Ex Ey.
  set (gx := Z.min (fexp64 (Zdigits2 (Z.pos mx) + ex - (Zdigits2 (Z.pos mc) + ec))) (ex - ec)) in *.
  set (gy := Z.min (fexp64 (Zdigits2 (Z.pos my) + ey - (Zdigits2 (Z.pos mc) + ec))) (ey - ec)) in *.
  set (g := Z.min gx gy).
  assert (Sx : 0 <= ex - ec - gx) by (unfold gx; lia).
  assert (Sy : 0 <= ey - ec - gy) by (unfold gy; lia).
  pose proof (pow2_pos _ Sx) as Px. pose proof (pow2_pos _ Sy) as Py.
  rewrite <- (round_at_scale _ _ gx (gx - g)) by (try exact Fx; unfold g; nia).
  rewrite <- (round_at_scale _ _ gy (gy - g)) by (try exact Fy; unfold g; nia).
  replace (gx - (gx - g)) with g by lia. replace (gy - (gy - g)) with g by lia.
  rewrite <- !Z.mul_assoc, <- !Z.pow_add_r by (unfold g; lia).
  replace (ex - ec - gx + (gx - g)) with (ex - (ec + g)) by lia.
  replace (ey - ec - gy + (gy - g)) with (ey - (ec + g)) by lia.
  apply round_at_mono; [|lia].
  assert (0 < 2 ^ (ex - (ec + g))) by (apply pow2_pos; unfold g; lia).
  split; [lia|].
  apply cmp_pos_value; auto; unfold g; lia.
Qed.

(** The exponent the rounding arrives at is bounded by the magnitude. *)
Lemma round_at_exp_le N D e :
  0 <= N -> 0 < D ->
  snd (round_at N D e) <= Z.max e (fexp64 (Zdigits2 (N / D) + e + 1)).
Proof.
  intros HN HD. unfold round_at. cbn [snd].
  set (m := N / D). set (d := Zdigits2 m).
  assert (Hm : 0 <= m) by (apply Z.div_pos; lia).
  pose proof (Zdigits2_nonneg m) as Hd. fold d in Hd.
  set (e1 := Z.max e (fexp64 (d + e))).
  set (D1 := D * 2 ^ (e1 - e)).
  assert (HD1 : 0 < D1).
  { apply Z.mul_pos_pos; [lia|]. apply pow2_pos. unfold e1; lia. }
  pose proof (rne_bounds N D1 HD1) as B.
  assert (M1 : N / D1 = m / 2 ^ (e1 - e)).
  { unfold D1. apply div_div_pow; [lia|unfold e1; lia]. }
  assert (Dg : Zdigits2 (N / D1) = Z.max 0 (d - (e1 - e))).
  { rewrite M1. apply Zdigits2_div_pow; [lia|unfold e1; lia]. }
  assert (Hm1 : 0 <= N / D1) by (apply Z.div_pos; lia).
  pose proof (Zdigits2_lt (N / D1) Hm1) as U1.
  pose proof (Zdigits2_nonneg (N / D1)) as Hd1.
  set (m2 := rne N D1) in *.
  assert (Dg2 : Zdigits2 m2 <= Zdigits2 (N / D1) + 1).
  { apply Zdigits2_le_pow; try lia. rewrite Z.pow_add_r by lia.
    change (2 ^ 1) with 2. lia. }
  unfold e1, fexp64 in *. lia.
Qed.

Lemma build_cases me : 0 <= fst me ->
  build false me = S754_zero false
  \/ (exists m, fst me = Z.pos m /\ snd me <= 971
                /\ build false me = S754_finite false m (snd me))
  \/ (971 < snd me /\ build false me = S754_infinity false).
Proof.
  intros H. unfold build. destruct (fst me) as [|p|p]; try lia; auto.
  destruct (Z.leb_spec (snd me) 971); [right; left; eauto|right; right; auto].
Qed.

(** The product of two finite non-negative floats whose exponents leave
    room is finite. *)
Lemma SFmul_finite_nonneg x y :
  valid_binary x = true -> valid_binary y = true ->
  SFfinite_nonneg x -> SFfinite_nonneg y ->
  (forall m e, x = S754_finite false m e -> e <= 0) ->
  (forall m e, y = S754_finite false m e -> e <= 0) ->
  SFfinite_nonneg (SFmul prec emax x y).
Proof.
  intros Vx Vy Hx Hy Bx By.
  destruct x as [sx|sx| |sx mx ex], y as [sy|sy| |sy my ey];
    simpl in Hx, Hy; try contradiction; subst; try exact I.
  specialize (Bx mx ex eq_refl). specialize (By my ey eq_refl).
  apply valid_canonical in Vx as [Cx _]. apply valid_canonical in Vy as [Cy _].
  apply canonical_bounds in Cx as [_ [Dx _]].
  apply canonical_bounds in Cy as [_ [Dy _]].
  rewrite SFmul_finite_spec. cbn [xorb].
  pose proof (round_at_fst_nonneg (Z.pos mx * Z.pos my) 1 (ex + ey) ltac:(lia) ltac:(lia)) as H0.
  pose proof (round_at_exp_le (Z.pos mx * Z.pos my) 1 (ex + ey) ltac:(lia) ltac:(lia)) as H1.
  rewrite Z.div_1_r in H1.
  assert (Dm : Zdigits2 (Z.pos mx * Z.pos my) <= 106).
  { apply Zdigits2_le_pow; try lia.
    pose proof (Zdigits2_lt (Z.pos mx) ltac:(lia)).
    pose proof (Zdigits2_lt (Z.pos my) ltac:(lia)).
    assert (Z.pos mx < 2 ^ 53).
    { eapply Z.lt_le_trans; [eassumption|]. apply Z.pow_le_mono_r; lia. }
    assert (Z.pos my < 2 ^ 53).
    { eapply Z.lt_le_trans; [eassumption|]. apply Z.pow_le_mono_r; lia. }
    change (2 ^ 106) with (2 ^ 53 * 2 ^ 53). nia. }
  destruct (build_cases _ H0) as [E|[(m & _ & _ & E)|[G _]]].
  - rewrite E. exact I.
  - rewrite E. reflexivity.
  - unfold fexp64 in H1. lia.
Qed.

Lemma SFmul_nonneg x y :
  SFfinite_nonneg x -> SFfinite_nonneg y -> SFnonneg (SFmul prec emax x y).
Proof.
  intros Hx Hy.
  destruct x as [sx|sx| |sx mx ex], y as [sy|sy| |sy my ey];
    simpl in Hx, Hy; try contradiction; subst; try exact I.
  rewrite SFmul_finite_spec. cbn [xorb].
  apply build_nonneg, round_at_fst_nonneg; lia.
Qed.

Lemma SFdiv_nonneg x mc ec :
  SFnonneg x ->
  SFnonneg (SFdiv prec emax x (S754_finite false mc ec)).
Proof.
  intros Hx. destruct x as [sx|sx| |sx mx ex]; simpl in Hx;
    try contradiction; subst; try exact I; try reflexivity.
  destruct (SFdiv_finite_spec false mx ex false mc ec) as [E _].
  rewrite E. cbn [xorb].
  apply build_nonneg, round_at_fst_nonneg; [|lia].
  apply Z.mul_nonneg_nonneg; [lia|]. apply Z.pow_nonneg. lia.
Qed.

Lemma SFnonneg_le_inf x : SFnonneg x -> SFleb x (S754_infinity false) = true.
Proof.
  destruct x as [s|s| |s m e]; simpl; try contradiction;
    intros; subst; reflexivity.
Qed.

Lemma SFnonneg_zero_le s x : SFnonneg x -> SFleb (S754_zero s) x = true.
Proof.
  destruct x as [s'|s'| |s' m e]; simpl; try contradiction;
    intros; subst; reflexivity.
Qed.

(** Division by a positive finite float is monotone on the non-negative
    floats. *)
Lemma SFdiv_mono x y mc ec :
  valid_binary x = true -> valid_binary y = true ->
  SFnonneg x -> SFleb x y = true ->
  SFleb (SFdiv prec emax x (S754_finite false mc ec))
        (SFdiv prec emax y (S754_finite false mc ec)) = true.
Proof.
  intros Vx Vy Hx Hxy.
  assert (Hy : SFnonneg y).
  { destruct x as [sx|sx| |sx mx ex], y as [sy|sy| |sy my ey];
      simpl in Hx; try contradiction; subst; try exact I;
      try discriminate; try (destruct sy; [discriminate|reflexivity]). }
  pose proof (SFdiv_nonneg y mc ec Hy) as Ny.
  pose proof (SFdiv_nonneg x mc ec Hx) as Nx.
  destruct x as [sx|sx| |sx mx ex]; simpl in Hx; try contradiction; subst.
  - apply SFnonneg_zero_le. exact Ny.
  - destruct y as [sy|sy| |sy my ey]; simpl in Hy; try contradiction;
      subst; try discriminate. reflexivity.
  - destruct y as [sy|sy| |sy my ey]; simpl in Hy; try contradiction;
      subst; try discriminate.
    + apply SFnonneg_le_inf. exact Nx.
    + apply valid_canonical in Vx as [Cx _].
      apply valid_canonical in Vy as [Cy _].
      apply SFdiv_finite_mono; auto.
      unfold SFleb in Hxy. rewrite SFcompare_pos in Hxy.
      destruct (cmp_pos mx ex my ey); congruence.
Qed.

End RoundFacts.

(** * The transport commands *)

Module TransportFacts.

Import F64 F64Facts.
Local Open Scope float_scope.

Lemma lt_0_lt_1 v : lt v 0 -> lt v 1.
Proof.
  unfold lt. rewrite !ltb_spec.
  change (Prim2SF 0) with (S754_zero false).
  change (Prim2SF 1) with (S754_finite false 4503599627370496 (-52)).
  destruct (Prim2SF v) as [s|s| |s m e]; unfold SFltb;
    try destruct s; try discriminate; reflexivity.
Qed.

(** Two floats ordered one way but not strictly are equal as numbers. *)
Lemma le_not_lt_eqb x y :
  le x y -> (x <? y) = false -> (x =? y) = true /\ (y =? x) = true.
Proof.
  unfold le. rewrite leb_spec, ltb_spec, !eqb_spec.
  unfold SFleb, SFltb, SFeqb.
  rewrite (SFcompare_swap (Prim2SF x) (Prim2SF y)).
  destruct (SFcompare _ _) as [[]|]; simpl; intuition congruence.
Qed.

Lemma clamp_range lo hi v :
  le lo hi ->
  le lo (Py.fmax lo (Py.fmin v hi)) /\ le (Py.fmax lo (Py.fmin v hi)) hi.
Proof.
  intros H. unfold Py.fmax, Py.fmin.
  assert (Hlo : le lo lo) by (apply le_refl; eapply le_not_nan_l; eauto).
  assert (Hhi : le hi hi) by (apply le_refl; eapply le_not_nan_r; eauto).
  destruct (hi <? v) eqn:Hv.
  - destruct (lo <? hi) eqn:Hl; auto.
  - destruct (lo <? v) eqn:Hl; auto. split; [apply lt_le, Hl|].
    apply (total hi v); auto.
    + eapply le_not_nan_r; exact H.
    + eapply le_not_nan_r. apply lt_le. exact Hl.
Qed.

Lemma clamp_below lo hi v :
  le lo hi -> lt v lo -> Py.fmax lo (Py.fmin v hi) = lo.
Proof.
  intros H Hv. unfold Py.fmax, Py.fmin.
  assert (E : (hi <? v) = false).
  { apply le_not_lt. eapply le_trans; [apply lt_le, Hv | exact H]. }
  rewrite E, (lt_asym _ _ Hv). reflexivity.
Qed.

Lemma clamp_above lo hi v :
  le lo hi -> lt hi v -> (Py.fmax lo (Py.fmin v hi) =? hi) = true.
Proof.
  intros H Hv. unfold Py.fmax, Py.fmin. rewrite Hv.
  destruct (lo <? hi) eqn:Hl.
  - rewrite eqb_spec. unfold SFeqb. rewrite SFcompare_refl; auto.
    eapply le_not_nan_r; eauto.
  - destruct (le_not_lt_eqb lo hi H Hl) as [A _]. exact A.
Qed.

Lemma clamp_inside lo hi v :
  le lo v -> le v hi -> (Py.fmax lo (Py.fmin v hi) =? v) = true.
Proof.
  intros H1 H2. unfold Py.fmax, Py.fmin. rewrite (le_not_lt _ _ H2).
  destruct (lo <? v) eqn:Hl.
  - rewrite eqb_spec. unfold SFeqb. rewrite SFcompare_refl; auto.
    eapply le_not_nan_r; eauto.
  - destruct (le_not_lt_eqb lo v H1 Hl) as [A _]. exact A.
Qed.

(** C10. [set_volume] takes any float: the stored gain is the argument
    clamped into [0, 1] (0 below, 1 above, the argument itself inside,
    and 1 for a NaN, on which both comparisons are false), so the gain is
    in [0, 1] after every call; no other field changes. *)
Theorem set_volume_clamps (v : float) (p : MIDIPlayer) :
  let p' := fst (set_volume v p) in
  (le 0 (_volume p') /\ le (_volume p') 1)
  /\ (lt v 0 -> _volume p' = 0)
  /\ (lt 1 v -> _volume p' = 1)
  /\ (le 0 v -> le v 1 -> (_volume p' =? v) = true)
  /\ (Prim2SF v = S754_nan -> _volume p' = 1)
  /\ p' = with_volume (_volume p') p
  /\ snd (set_volume v p) = [].
Proof.
  cbv zeta. unfold set_volume, fst, snd, with_volume, _volume.
  unfold Py.fmax, Py.fmin.
  assert (Z1 : (0 <? 1) = true) by reflexivity.
  repeat split.
  - destruct (v <? 1) eqn:A.
    + destruct (0 <? v) eqn:B; [apply lt_le, B | reflexivity].
    + rewrite Z1. reflexivity.
  - destruct (v <? 1) eqn:A.
    + destruct (0 <? v) eqn:B; [apply lt_le, A | reflexivity].
    + rewrite Z1. reflexivity.
  - intros Hv. rewrite (lt_0_lt_1 _ Hv), (lt_asym _ _ Hv). reflexivity.
  - intros Hv. rewrite (lt_asym _ _ Hv), Z1. reflexivity.
  - intros H0 H1. destruct (v <? 1) eqn:A.
    + destruct (0 <? v) eqn:B.
      * rewrite eqb_spec. unfold SFeqb. rewrite SFcompare_refl; auto.
        eapply le_not_nan_r; eauto.
      * destruct (le_not_lt_eqb 0 v H0 B) as [E _]. exact E.
    + rewrite Z1. destruct (le_not_lt_eqb v 1 H1 A) as [_ E]. exact E.
  - intros Hn.
    assert (A : (v <? 1) = false).
    { rewrite ltb_spec, Hn. reflexivity. }
    rewrite A, Z1. reflexivity.
Qed.

(** C7. [seek] raises nothing and records as the pending target its
    argument clamped into [0, duration]: after the call [_seek_to] holds
    0 for a negative argument, the duration for one beyond it, the
    argument itself inside the range (as a number: a zero is stored as
    0.0). Every other field of the player is what it was and nothing is
    sent. The duration of a loaded track is never negative, which the
    statement assumes. *)
Theorem seek_clamps (t : float) (p : MIDIPlayer) :
  le 0 (_duration p) ->
  let p' := fst (seek t p) in
  exists r,
    _seek_to p' = Some r
    /\ le 0 r /\ le r (_duration p)
    /\ (lt t 0 -> r = 0)
    /\ (lt (_duration p) t -> (r =? _duration p) = true)
    /\ (le 0 t -> le t (_duration p) -> (r =? t) = true)
    /\ snd (seek t p) = []
    /\ _state p' = _state p
    /\ _stop_flag p' = _stop_flag p
    /\ _pause_evt p' = _pause_evt p
    /\ _mid p' = _mid p
    /\ _messages p' = _messages p
    /\ _duration p' = _duration p
    /\ _pos p' = _pos p
    /\ _volume p' = _volume p
    /\ on_position p' = on_position p
    /\ on_finished p' = on_finished p.
Proof.
  intros H p'. subst p'. exists (Py.fmax 0 (Py.fmin t (_duration p))).
  split; [reflexivity|].
  pose proof (clamp_range 0 (_duration p) t H) as [R1 R2].
  split; [exact R1|]. split; [exact R2|].
  split; [apply clamp_below; auto|].
  split; [apply clamp_above; auto|].
  split; [apply clamp_inside; auto|].
  repeat split.
Qed.

Lemma seek_clamps_witness :
  let p := playing five 4 in
  let p' := fst (seek 9 p) in
  exists r,
    _seek_to p' = Some r
    /\ le 0 r /\ le r (_duration p)
    /\ (lt 9 0 -> r = 0)
    /\ (lt (_duration p) 9 -> (r =? _duration p) = true)
    /\ (le 0 9 -> le 9 (_duration p) -> (r =? 9) = true)
    /\ snd (seek 9 p) = []
    /\ _state p' = _state p
    /\ _stop_flag p' = _stop_flag p
    /\ _pause_evt p' = _pause_evt p
    /\ _mid p' = _mid p
    /\ _messages p' = _messages p
    /\ _duration p' = _duration p
    /\ _pos p' = _pos p
    /\ _volume p' = _volume p
    /\ on_position p' = on_position p
    /\ on_finished p' = on_finished p.
Proof.
  apply (seek_clamps 9 (playing five 4)). reflexivity.
Defined.

(** C9. [stop] after [stop] leaves the player as one [stop] does, in
    [STOPPED] at position 0 whatever the state before; [pause] after
    [pause] leaves it as one [pause] does, and a paused player is not
    changed by [pause] at all. *)
Theorem stop_pause_idempotent (p : MIDIPlayer) :
  fst (stop (fst (stop p))) = fst (stop p)
  /\ _state (fst (stop p)) = STOPPED
  /\ _pos (fst (stop p)) = 0
  /\ fst (pause (fst (pause p))) = fst (pause p)
  /\ (_state p = PAUSED -> pause p = (p, [])).
Proof.
  repeat split.
  - destruct p as [st ? ? ? ? ? ? ? ? ? ?]. unfold pause. simpl.
    destruct st; reflexivity.
  - intros H. unfold pause. rewrite H. reflexivity.
Qed.

Section Load.

Variable mido_MidiFile : list byte -> result MidiFile.

(** C8. When [load] raises, because the parser raised on the file or
    because [_flatten] did, the exception is the one raised there and
    the player is left exactly as it was. *)
Theorem load_failure_atomic (path : list byte) (p : MIDIPlayer) (e : exn) :
  fst (load mido_MidiFile path p) = inl e ->
  snd (load mido_MidiFile path p) = p
  /\ (mido_MidiFile path = inl e
      \/ exists mid, mido_MidiFile path = inr mid /\ _flatten mid = inl e).
Proof.
  unfold load, bind.
  destruct (mido_MidiFile path) as [e0|mid]; simpl.
  - intros H. inversion H. auto.
  - destruct (_flatten mid) as [e1|msgs] eqn:F; simpl.
    + intros H. inversion H. split; auto. right. exists mid. subst. auto.
    + discriminate.
Qed.

(** C4, amended. What [load] does when it succeeds: it replaces the track, the
    sequence and the duration, puts the position at 0 and returns the
    duration, the time of the last event or 0 for none. The transport
    state, the stop and pause signals, a pending seek and the gain are
    left alone: a pacing loop that is running is not told to stop. *)
Theorem load_replaces_track (path : list byte) (p : MIDIPlayer)
    (mid : MidiFile) (messages : list timed_event) :
  mido_MidiFile path = inr mid ->
  _flatten mid = inr messages ->
  let d := match messages with
           | [] => 0
           | _ => fst (last messages (0, []))
           end in
  load mido_MidiFile path p = (inr d, with_track mid messages p)
  /\ _messages (with_track mid messages p) = messages
  /\ _duration (with_track mid messages p) = d
  /\ _pos (with_track mid messages p) = 0
  /\ _state (with_track mid messages p) = _state p
  /\ _stop_flag (with_track mid messages p) = _stop_flag p
  /\ _pause_evt (with_track mid messages p) = _pause_evt p
  /\ _seek_to (with_track mid messages p) = _seek_to p
  /\ _volume (with_track mid messages p) = _volume p.
Proof.
  intros Hm Hf. unfold load, bind. rewrite Hm, Hf.
  repeat split; reflexivity.
Qed.

End Load.

Lemma load_failure_atomic_witness :
  snd (load one_file [x02] (playing five 4)) = playing five 4
  /\ (one_file [x02] = inl (FileError 2)
      \/ exists mid, one_file [x02] = inr mid
                     /\ _flatten mid = inl (FileError 2)).
Proof.
  apply (load_failure_atomic one_file [x02] (playing five 4) (FileError 2)).
  reflexivity.
Defined.

End TransportFacts.

(** * The flattener *)

Module FlattenFacts.

Local Open Scope float_scope.

Lemma convert_app tpb w l1 l2 :
  convert tpb w (l1 ++ l2) = (w1 <- convert tpb w l1 ;; convert tpb w1 l2).
Proof.
  revert w. induction l1 as [|x l1 IH]; intros w; simpl; [reflexivity|].
  destruct (convert_one tpb w x) as [e|w']; simpl; auto.
Qed.

(** One pass only ever appends to the events. *)
Lemma convert_one_events tpb w x w' :
  convert_one tpb w x = inr w' -> exists tail, events w' = events w ++ tail.
Proof.
  unfold convert_one. destruct x as [abs_tick m].
  destruct (Py.int_truediv (tempo w) tpb) as [e|q]; simpl; [discriminate|].
  destruct (Py.int_mul_float (abs_tick - last_tick w) q) as [e|a]; simpl;
    [discriminate|].
  destruct (body m) as [t| |[|b raw]|]; intros H; inversion H; simpl;
    eauto using app_nil_r.
Qed.

Lemma convert_events tpb l : forall w w',
  convert tpb w l = inr w' -> exists tail, events w' = events w ++ tail.
Proof.
  induction l as [|x l IH]; simpl; intros w w' H.
  - inversion H. exists []. rewrite app_nil_r. reflexivity.
  - destruct (convert_one tpb w x) as [e|w1] eqn:E1; simpl in H;
      [discriminate|].
    destruct (convert_one_events _ _ _ _ E1) as [t1 H1].
    destruct (IH _ _ H) as [t2 H2].
    exists (t1 ++ t2). rewrite H2, H1, app_assoc. reflexivity.
Qed.

(** The claim of C1 as the specification states it fails: the note-on of
    [tempo_example] is not timed at 2.0 seconds. *)
Lemma tempo_example_is_not_2s :
  _flatten tempo_example = inr [(0x1.8000000000001p+0, note_on)]
  /\ (0x1.8000000000001p+0 =? 2) = false
  /\ _flatten tempo_example <> inr [(2, note_on)].
Proof.
  assert (E : _flatten tempo_example = inr [(0x1.8000000000001p+0, note_on)])
    by (vm_compute; reflexivity).
  split; [exact E|]. split; [vm_compute; reflexivity|].
  rewrite E. intros H.
  pose (first_time := fun r : result (list timed_event) =>
                        match r with
                        | inr ((t, _) :: _) => (t =? 2)
                        | _ => false
                        end).
  assert (F : first_time (inr [(0x1.8000000000001p+0, note_on)])
              = first_time (inr [(2, note_on)])) by (rewrite H; reflexivity).
  vm_compute in F. discriminate.
Qed.

(** C1, amended. The note-on of [tempo_example] is timed at
    1.5000000000000002 s: 0.5 s at 500 000 us per beat for the first 480
    ticks and 1.0 s at 1 000 000 us per beat for the next 480, summed in
    binary64. In general a tempo change is not retroactive: the pass
    over the change itself still advances the clock at the old tempo,
    the following pass advances it at the new one, and the events a
    prefix of the merged list produced stay as they are whatever
    follows. *)
Theorem tempo_change_applies_afterwards :
  _flatten tempo_example = inr [(0x1.8000000000001p+0, note_on)]
  /\ (forall tpb w T d new T' d' b raw q_old a1 q_new a2,
        Py.int_truediv (tempo w) tpb = inr q_old ->
        Py.int_mul_float (T - last_tick w) q_old = inr a1 ->
        Py.int_truediv (Z.of_N new) tpb = inr q_new ->
        Py.int_mul_float (T' - T) q_new = inr a2 ->
        convert tpb w [(T, {| time := d; body := MetaSetTempo new |});
                       (T', {| time := d'; body := Message (b :: raw) |})]
        = inr {| tempo := Z.of_N new; last_tick := T';
                 elapsed_us := elapsed_us w + a1 + a2;
                 events := events w
                           ++ [((elapsed_us w + a1 + a2) / 1000000,
                                b :: raw)] |})
  /\ (forall tpb w pre post w1 w2,
        convert tpb w pre = inr w1 ->
        convert tpb w (pre ++ post) = inr w2 ->
        exists tail, events w2 = events w1 ++ tail).
Proof.
  split; [vm_compute; reflexivity|]. split.
  - intros tpb w T d new T' d' b raw q_old a1 q_new a2 H1 H2 H3 H4.
    unfold convert, convert_one; cbn [body tempo last_tick elapsed_us events].
    rewrite H1. cbn [bind]. rewrite H2. cbn [bind ret].
    cbn [body tempo last_tick elapsed_us events].
    rewrite H3. cbn [bind]. rewrite H4. reflexivity.
  - intros tpb w pre post w1 w2 H1 H2. rewrite convert_app, H1 in H2.
    simpl in H2. eapply convert_events; eauto.
Qed.

End FlattenFacts.

(** * The pacing loop *)

Module LoopFacts.

Local Open Scope float_scope.

(** [_find_index] returns the index of the first event whose time is at
    least the target, or the length when there is none; in a sequence in
    non-decreasing order every event from that index on is at least the
    target. *)
Lemma find_index_first (messages : list timed_event) (pos : float) :
  let i := _find_index messages pos in
  (i <= length messages)%nat
  /\ (forall j, (j < i)%nat ->
                (pos <=? fst (nth j messages no_event)) = false)
  /\ ((i < length messages)%nat ->
      F64.le pos (fst (nth i messages no_event)))
  /\ (nondecreasing (map fst messages) ->
      forall j, (i <= j < length messages)%nat ->
                F64.le pos (fst (nth j messages no_event))).
Proof.
  induction messages as [|[t raw] rest IH]; cbn [_find_index length].
  - repeat split; intros; lia.
  - destruct (pos <=? t) eqn:E.
    + repeat split; try lia.
      * intros _. exact E.
      * intros Hs j Hj. destruct j as [|j]; [exact E|].
        cbn [nth]. unfold nondecreasing in Hs. cbn [map fst] in Hs.
        inversion Hs as [|? ? _ Hf]; subst.
        eapply F64Facts.le_trans; [exact E|].
        rewrite Forall_forall in Hf. apply Hf.
        apply in_map, nth_In. cbn [length] in Hj. lia.
    + destruct IH as (A & B & C & D). repeat split.
      * lia.
      * intros j Hj. destruct j as [|j]; [exact E|]. cbn [nth].
        apply B. lia.
      * intros H. cbn [nth]. apply C. lia.
      * intros Hs j Hj. destruct j as [|j]; [lia|]. cbn [nth].
        unfold nondecreasing in Hs. cbn [map] in Hs.
        inversion Hs; subst. apply D; [assumption|lia].
Qed.

(** C6, the code at the failing input. In a sequence in non-decreasing
    order [_find_index] resolves the first event at or after the target,
    as the claim says, but the loop does not resume there. After the
    seek of [seek_schedule] to 3.5 s it sends the event at 4 s, which is
    the one [_find_index] resolves, and then goes on with the events at
    2 s and 3 s, which lie before the target, and sends the one at 4 s a
    second time: the assignment [i = idx] does not move the [range]
    iterator of the [for]. *)
Theorem seek_resumes_behind_target :
  (forall messages pos,
      nondecreasing (map fst messages) ->
      let i := _find_index messages pos in
      (i <= length messages)%nat
      /\ (forall j, (j < i)%nat ->
                    (pos <=? fst (nth j messages no_event)) = false)
      /\ (forall j, (i <= j < length messages)%nat ->
                    F64.le pos (fst (nth j messages no_event))))
  /\ _find_index five 3.5 = 4%nat
  /\ nondecreasing (map fst five)
  /\ trace (exec one_file (spawned (playing five 4)) seek_schedule)
     = [Send (snd (ev 0 x3c)); OnPosition 0 4;
        AllSoundOff;
        Send (snd (ev 4 x40)); OnPosition 4 4;
        Send (snd (ev 2 x3e)); OnPosition 2 4;
        Send (snd (ev 3 x3f)); OnPosition 3 4;
        Send (snd (ev 4 x40)); OnPosition 4 4;
        AllSoundOff; OnFinished].
Proof.
  split.
  { intros messages pos Hs i.
    destruct (find_index_first messages pos) as (A & B & _ & D).
    repeat split; [exact A|exact B|]. intros j [J1 J2]. apply D; auto. }
  split; [vm_compute; reflexivity|]. split; [|vm_compute; reflexivity].
  unfold nondecreasing, five, ev. cbn [map fst].
  repeat (constructor; [|repeat (constructor; try reflexivity)]).
  constructor.
Qed.

(** The same defect on the other seek branch: a seek caught inside the
    wait loop is followed by the event the loop was waiting for, here
    the one at 1 s after a seek to 3.5 s. *)
Lemma seek_in_wait_sends_stale_event :
  trace (exec one_file (spawned (playing five 4))
           (ticks 16 100 ++ [Call (CSeek 3.5)] ++ ticks 1 101 ++ ticks 50 102))
  = [Send (snd (ev 0 x3c)); OnPosition 0 4;
     AllSoundOff;
     Send (snd (ev 1 x3d)); OnPosition 1 4;
     Send (snd (ev 2 x3e)); OnPosition 2 4;
     Send (snd (ev 3 x3f)); OnPosition 3 4;
     Send (snd (ev 4 x40)); OnPosition 4 4;
     AllSoundOff; OnFinished].
Proof. vm_compute; reflexivity. Qed.

(** The claim of C4 as the specification states it fails: [load] during
    playback does not stop it. The stop signal stays clear, the state
    stays [PLAYING], and the running loop goes on sending the events of
    the sequence it started with. *)
Lemma load_does_not_stop_playback :
  let before := exec one_file (spawned (playing five 4)) (ticks 12 100) in
  let after := exec one_file before [Call (CLoad [x01])] in
  let later := exec one_file after (ticks 60 200) in
  trace before = [Send (snd (ev 0 x3c)); OnPosition 0 4]
  /\ _state (player after) = PLAYING
  /\ _stop_flag (player after) = false
  /\ trace after = trace before
  /\ trace later
     = [Send (snd (ev 0 x3c)); OnPosition 0 4;
        Send (snd (ev 1 x3d)); OnPosition 1 0x1.8000000000001p+0;
        Send (snd (ev 2 x3e)); OnPosition 2 0x1.8000000000001p+0;
        Send (snd (ev 3 x3f)); OnPosition 3 0x1.8000000000001p+0;
        Send (snd (ev 4 x40)); OnPosition 4 0x1.8000000000001p+0;
        AllSoundOff; OnFinished].
Proof. repeat split; vm_compute; reflexivity. Qed.

(** The claim of C3 as the specification states it fails: [skip] during
    playback ends the loop with [on_finished] invoked. *)
Lemma skip_fires_on_finished :
  let c := exec one_file (spawned (playing five 4))
             (ticks 12 100 ++ [Call CSkip] ++ ticks 6 100) in
  at_point (loop c) = Done
  /\ trace c = [Send (snd (ev 0 x3c)); OnPosition 0 4; AllSoundOff; OnFinished]
  /\ finished_count (trace c) = 1%nat.
Proof. repeat split; vm_compute; reflexivity. Qed.

End LoopFacts.

Module LoopWitnesses.

Import F64.

Lemma load_replaces_track_witness :
  load one_file [x01] (playing five 4)
  = (inr 0x1.8000000000001p+0%float,
     with_track tempo_example [(0x1.8000000000001p+0%float, note_on)]
       (playing five 4))
  /\ _messages (with_track tempo_example [(0x1.8000000000001p+0%float, note_on)]
                  (playing five 4))
     = [(0x1.8000000000001p+0%float, note_on)]
  /\ _duration (with_track tempo_example [(0x1.8000000000001p+0%float, note_on)]
                  (playing five 4)) = 0x1.8000000000001p+0%float
  /\ _pos (with_track tempo_example [(0x1.8000000000001p+0%float, note_on)]
             (playing five 4)) = 0%float
  /\ _state (with_track tempo_example [(0x1.8000000000001p+0%float, note_on)]
               (playing five 4)) = PLAYING
  /\ _stop_flag (with_track tempo_example [(0x1.8000000000001p+0%float, note_on)]
                   (playing five 4)) = false
  /\ _pause_evt (with_track tempo_example [(0x1.8000000000001p+0%float, note_on)]
                   (playing five 4)) = true
  /\ _seek_to (with_track tempo_example [(0x1.8000000000001p+0%float, note_on)]
                  (playing five 4)) = None
  /\ _volume (with_track tempo_example [(0x1.8000000000001p+0%float, note_on)]
                 (playing five 4)) = 1%float.
Proof.
  apply (TransportFacts.load_replaces_track one_file [x01] (playing five 4)
           tempo_example [(0x1.8000000000001p+0%float, note_on)]).
  - reflexivity.
  - vm_compute. reflexivity.
Defined.

End LoopWitnesses.

(** * Python arithmetic on floats *)

Module PyFacts.

Import F64 F64Facts Round RoundFacts.
Local Open Scope float_scope.

Lemma inr_inj {A B} (a b : B) : @inr A B a = inr b -> a = b.
Proof.
  intros H.
  exact (f_equal (fun r => match r with inr x => x | inl _ => a end) H).
Qed.

(** [x + d] is at least [x] when neither is negative. *)
Lemma add_ge x d : le 0 x -> le 0 d -> le x (x + d) /\ le 0 (x + d).
Proof.
  rewrite !le_0_iff. intros Hx Hd. unfold le.
  rewrite leb_spec, add_spec.
  destruct (SFadd_ge (Prim2SF x) (Prim2SF d) (Prim2SF_valid x) Hx Hd) as [A B].
  split; [exact A|exact B].
Qed.

Lemma Prim2SF_million :
  Prim2SF 1000000 = S754_finite false 8589934592000000 (-33).
Proof. reflexivity. Qed.

(** Division by 1 000 000.0 is monotone on the non-negative floats. *)
Lemma div_million_mono x y :
  le 0 x -> le x y -> le (x / 1000000) (y / 1000000) /\ le 0 (x / 1000000).
Proof.
  rewrite !le_0_iff. unfold le. rewrite !leb_spec, !div_spec, Prim2SF_million.
  intros Hx Hxy. split.
  - apply SFdiv_mono; auto using Prim2SF_valid.
  - apply SFdiv_nonneg. exact Hx.
Qed.

Lemma mul_nonneg x y :
  SFfinite_nonneg (Prim2SF x) -> SFfinite_nonneg (Prim2SF y) -> le 0 (x * y).
Proof.
  intros Hx Hy. apply le_0_iff. rewrite mul_spec. apply SFmul_nonneg; auto.
Qed.

Lemma build_finite_nonneg N D e sf :
  (0 <= N)%Z -> (0 < D)%Z -> fine N D e ->
  build false (round_at N D e) = sf ->
  match sf with
  | S754_infinity _ => True
  | _ => Prim2SF (SF2Prim sf) = sf /\ SFfinite_nonneg sf
  end.
Proof.
  intros HN HD Hf E.
  pose proof (build_valid false N D e HN HD Hf) as V. rewrite E in V.
  pose proof (build_nonneg (round_at N D e) (round_at_fst_nonneg N D e HN HD)) as P.
  rewrite E in P.
  destruct sf as [s|s| |s m ex]; simpl in P; try contradiction; auto;
    (split; [apply Prim2SF_SF2Prim; exact V | simpl; auto]).
Qed.

(** [float(z)] of a non-negative [int] is finite and not negative. *)
Lemma float_of_int_nonneg z f :
  (0 <= z)%Z -> Py.float_of_int z = inr f ->
  Prim2SF f = binary_normalize prec emax z 0 false
  /\ SFfinite_nonneg (Prim2SF f).
Proof.
  intros Hz. unfold Py.float_of_int, raise, ret.
  destruct z as [|p|p]; try lia.
  - cbn [binary_normalize]. intros E. apply inr_inj in E. subst f.
    split; reflexivity.
  - cbn [binary_normalize].
    destruct (binary_round_spec false p 0) as [R F]. cbv zeta in R, F.
    set (e' := Z.min 0 (fexp64 (Zdigits2 (Z.pos p) + 0))) in *.
    assert (HN : (0 <= Z.pos p * 2 ^ (0 - e'))%Z).
    { apply Z.mul_nonneg_nonneg; [lia|apply Z.pow_nonneg; lia]. }
    pose proof (build_finite_nonneg _ 1%Z e' _ HN Z.lt_0_1 F (eq_sym R)) as B.
    destruct (binary_round prec emax false p 0) as [s|s| |s m e];
      intros E; try discriminate E; apply inr_inj in E; subst f;
      destruct B as [B1 B2]; rewrite B1; auto.
Qed.

(** [a / b] of a non-negative by a positive [int] is finite and not
    negative. *)
Lemma int_truediv_nonneg a b q :
  (0 <= a)%Z -> (0 < b)%Z -> Py.int_truediv a b = inr q ->
  SFfinite_nonneg (Prim2SF q).
Proof.
  intros Ha Hb. unfold Py.int_truediv, raise, ret.
  destruct (Z.eqb_spec b 0) as [|_]; [lia|].
  destruct b as [|pb|pb]; try lia. destruct a as [|pa|pa]; try lia.
  - cbn [Py.Z2SF SFdiv xorb]. intros E. apply inr_inj in E. subst q.
    exact I.
  - cbn [Py.Z2SF].
    destruct (SFdiv_finite_spec false pa 0 false pb 0) as [R F].
    cbv zeta in R, F. cbn [xorb] in R.
    set (e' := Z.min (fexp64 (Zdigits2 (Z.pos pa) + 0 - (Zdigits2 (Z.pos pb) + 0)))
                     (0 - 0)) in *.
    assert (HN : (0 <= Z.pos pa * 2 ^ (0 - 0 - e'))%Z).
    { apply Z.mul_nonneg_nonneg; [lia|apply Z.pow_nonneg; lia]. }
    pose proof (build_finite_nonneg _ (Z.pos pb) e' _ HN (Pos2Z.is_pos pb)
                  F (eq_sym R)) as B.
    destruct (SFdiv prec emax (S754_finite false pa 0) (S754_finite false pb 0))
      as [s|s| |s m e];
      intros E; try discriminate E; apply inr_inj in E; subst q;
      destruct B as [B1 B2]; rewrite B1; auto.
Qed.

(** [z * f] of a non-negative [int] by a finite non-negative float. *)
Lemma int_mul_float_nonneg z f r :
  (0 <= z)%Z -> SFfinite_nonneg (Prim2SF f) ->
  Py.int_mul_float z f = inr r -> le 0 r.
Proof.
  intros Hz Hf. unfold Py.int_mul_float, bind, ret.
  destruct (Py.float_of_int z) as [e|x] eqn:E; [discriminate|].
  intros R. apply inr_inj in R. subst r.
  apply mul_nonneg; auto. eapply float_of_int_nonneg; eauto.
Qed.

End PyFacts.

(** * The merge *)

Module SortFacts.

Lemma insert_tick_perm x l : Permutation (insert_tick x l) (x :: l).
Proof.
  induction l as [|y l IH]; simpl; [reflexivity|].
  destruct (fst x <=? fst y); [reflexivity|].
  rewrite IH. apply perm_swap.
Qed.

Lemma sort_ticks_perm l : Permutation (sort_ticks l) l.
Proof.
  induction l as [|x l IH]; simpl; [reflexivity|].
  rewrite insert_tick_perm. constructor. exact IH.
Qed.

Lemma insert_tick_sorted x l :
  StronglySorted tick_le l -> StronglySorted tick_le (insert_tick x l).
Proof.
  induction l as [|y l IH]; simpl; intros H.
  - repeat constructor.
  - inversion H as [|? ? Hs Hf]; subst.
    destruct (Z.leb_spec (fst x) (fst y)) as [L|G].
    + constructor; [exact H|]. constructor; [exact L|].
      eapply Forall_impl; [|exact Hf]. unfold tick_le. intros; lia.
    + constructor; [apply IH; exact Hs|].
      eapply Permutation_Forall; [symmetry; apply insert_tick_perm|].
      constructor; [unfold tick_le; lia | exact Hf].
Qed.

Lemma sort_ticks_sorted l : StronglySorted tick_le (sort_ticks l).
Proof.
  induction l as [|x l IH]; simpl; [constructor|].
  apply insert_tick_sorted, IH.
Qed.

(** Insertion goes in front of the entries of its own tick. *)
Lemma insert_tick_at_tick k x l :
  StronglySorted tick_le l ->
  at_tick k (insert_tick x l) = at_tick k (x :: l).
Proof.
  unfold at_tick. induction l as [|y l IH]; intros H; [reflexivity|].
  inversion H as [|? ? Hs Hf]; subst. cbn [insert_tick].
  destruct (Z.leb_spec (fst x) (fst y)) as [L|G]; [reflexivity|].
  cbn [filter]. rewrite (IH Hs). cbn [filter].
  destruct (Z.eqb_spec (fst x) k) as [E|E]; [|reflexivity].
  destruct (Z.eqb_spec (fst y) k) as [E'|E']; [lia|reflexivity].
Qed.

(** The sort is stable: the entries of one tick keep their order. *)
Lemma sort_ticks_stable k l : at_tick k (sort_ticks l) = at_tick k l.
Proof.
  induction l as [|x l IH]; [reflexivity|]. cbn [sort_ticks].
  rewrite insert_tick_at_tick by apply sort_ticks_sorted.
  unfold at_tick in *. cbn [filter]. rewrite IH. reflexivity.
Qed.

Lemma abs_ticks_ge start track :
  Forall (fun m => 0 <= time m) track ->
  Forall (fun x => start <= fst x) (abs_ticks start track).
Proof.
  revert start. induction track as [|m track IH]; intros start H;
    [constructor|].
  inversion H; subst. cbn [abs_ticks]. constructor; [simpl; lia|].
  eapply Forall_impl; [|apply IH; assumption]. simpl. intros; lia.
Qed.

Lemma merge_tracks_nonneg tracks :
  Forall (Forall (fun m => 0 <= time m)) tracks ->
  Forall (fun x => 0 <= fst x) (merge_tracks tracks).
Proof.
  unfold merge_tracks. induction tracks as [|t ts IH]; intros H;
    [constructor|].
  inversion H; subst. cbn [flat_map]. apply Forall_app. split.
  - apply abs_ticks_ge. assumption.
  - apply IH. assumption.
Qed.

End SortFacts.

(** * The order of the flattened events *)

Module OrderFacts.

Import F64 F64Facts PyFacts.
Local Open Scope float_scope.

Lemma nondecreasing_snoc ts t :
  nondecreasing ts -> Forall (fun a => le a t) ts -> nondecreasing (ts ++ [t]).
Proof.
  unfold nondecreasing. induction ts as [|a ts IH]; intros H F; simpl.
  - repeat constructor.
  - inversion H; subst. inversion F; subst. constructor; [auto|].
    apply Forall_app. split; [assumption|]. repeat constructor. assumption.
Qed.

Lemma convert_one_ok tpb w T m w' :
  (0 < tpb)%Z -> (last_tick w <= T)%Z -> walk_ok w ->
  convert_one tpb w (T, m) = inr w' ->
  walk_ok w' /\ last_tick w' = T
  /\ map snd (events w') = map snd (events w) ++ emitted (T, m).
Proof.
  intros Htpb HT (Ht & He & Hs & Hf). unfold convert_one, bind.
  destruct (Py.int_truediv (tempo w) tpb) as [e|q] eqn:Eq; [discriminate|].
  destruct (Py.int_mul_float (T - last_tick w) q) as [e|a] eqn:Ea;
    [discriminate|].
  pose proof (int_truediv_nonneg _ _ _ Ht Htpb Eq) as Hq.
  assert (Ha : le 0 a).
  { eapply int_mul_float_nonneg; [|exact Hq|exact Ea]. lia. }
  destruct (add_ge _ _ He Ha) as [G1 G2].
  destruct (div_million_mono _ _ He G1) as [M1 M0].
  destruct (div_million_mono _ _ G2 (le_refl _ (le_not_nan_r _ _ G2)))
    as [M2 M3].
  assert (Hf' : Forall (fun t => le 0 t /\ le t ((elapsed_us w + a) / 1000000))
                       (map fst (events w))).
  { eapply Forall_impl; [|exact Hf]. cbv beta. intros t [A B].
    split; [exact A|]. eapply le_trans; eauto. }
  unfold emitted. cbn [snd].
  destruct (body m) as [t| |[|b raw]|]; intros E; apply inr_inj in E;
    subst w'; unfold walk_ok; cbn [tempo last_tick elapsed_us events];
    rewrite ?app_nil_r;
    try (split; [repeat split; auto; lia | split; reflexivity]).
  split; [|split; [reflexivity|]].
  - repeat split; auto.
    + rewrite map_app. apply nondecreasing_snoc; [exact Hs|].
      eapply Forall_impl; [|exact Hf']. cbv beta. tauto.
    + rewrite map_app. apply Forall_app. split; [exact Hf'|].
      repeat constructor; assumption.
  - rewrite map_app. reflexivity.
Qed.

Lemma convert_ok tpb merged : forall w w',
  (0 < tpb)%Z -> walk_ok w ->
  StronglySorted tick_le merged ->
  Forall (fun x => (last_tick w <= fst x)%Z) merged ->
  convert tpb w merged = inr w' ->
  walk_ok w'
  /\ map snd (events w') = map snd (events w) ++ flat_map emitted merged.
Proof.
  induction merged as [|[T m] rest IH]; intros w w' Htpb Hw Hs Hl H.
  - apply inr_inj in H. subst w'. rewrite app_nil_r. auto.
  - cbn [convert] in H. unfold bind in H.
    destruct (convert_one tpb w (T, m)) as [e|w1] eqn:E1; [discriminate|].
    inversion Hs as [|? ? Hs' Hf]; subst. inversion Hl as [|? ? L Hl']; subst.
    destruct (convert_one_ok _ _ _ _ _ Htpb L Hw E1) as (Hw1 & Hl1 & Hb1).
    destruct (IH w1 w' Htpb Hw1 Hs') as [Hw' Hb']; auto.
    + rewrite Hl1. exact Hf.
    + split; [exact Hw'|]. rewrite Hb', Hb1, <- app_assoc. reflexivity.
Qed.

Lemma walk_init_ok : walk_ok walk_init.
Proof.
  unfold walk_ok, walk_init. cbn [tempo elapsed_us events map].
  repeat split; try constructor. lia.
Qed.

(** [float(z)] raises nothing below 2 ^ 1023. *)
Lemma float_of_int_total z :
  (0 <= z < 2 ^ 1023)%Z -> exists f, Py.float_of_int z = inr f.
Proof.
  intros Hz. unfold Py.float_of_int, raise, ret.
  destruct z as [|p|p]; try lia.
  - eexists. reflexivity.
  - cbn [binary_normalize].
    destruct (RoundFacts.binary_round_spec false p 0) as [R _].
    cbv zeta in R.
    set (e' := Z.min 0 (Round.fexp64 (Zdigits2 (Z.pos p) + 0))) in *.
    assert (P : (0 < 2 ^ (0 - e'))%Z)
      by (apply RoundFacts.pow2_pos; unfold e'; lia).
    assert (HN : (0 <= Z.pos p * 2 ^ (0 - e'))%Z) by lia.
    pose proof (RoundFacts.round_at_exp_le _ 1%Z e' HN Z.lt_0_1) as U.
    rewrite Z.div_1_r, RoundFacts.Zdigits2_mul_pow in U by (unfold e'; lia).
    assert (Dp : (Zdigits2 (Z.pos p) <= 1023)%Z).
    { apply RoundFacts.Zdigits2_le_pow; lia. }
    rewrite R.
    destruct (RoundFacts.build_cases
                (Round.round_at (Z.pos p * 2 ^ (0 - e')) 1 e')
                (RoundFacts.round_at_fst_nonneg _ _ _ HN Z.lt_0_1))
      as [E|[(m & _ & _ & E)|[G _]]].
    + rewrite E. eexists. reflexivity.
    + rewrite E. eexists. reflexivity.
    + unfold e', Round.fexp64 in *. lia.
Qed.

(** [a / b] raises nothing for [a] below 2 ^ 1023 and [b] positive. *)
Lemma int_truediv_total a b :
  (0 <= a < 2 ^ 1023)%Z -> (0 < b)%Z -> exists q, Py.int_truediv a b = inr q.
Proof.
  intros Ha Hb. unfold Py.int_truediv, raise, ret.
  destruct (Z.eqb_spec b 0) as [|_]; [lia|].
  destruct b as [|pb|pb]; try lia. destruct a as [|pa|pa]; try lia.
  - eexists. reflexivity.
  - cbn [Py.Z2SF].
    destruct (RoundFacts.SFdiv_finite_spec false pa 0 false pb 0) as [R _].
    cbv zeta in R. cbn [xorb] in R.
    set (e' := Z.min (Round.fexp64 (Zdigits2 (Z.pos pa) + 0
                                    - (Zdigits2 (Z.pos pb) + 0))) (0 - 0))
      in *.
    assert (P : (0 < 2 ^ (0 - 0 - e'))%Z)
      by (apply RoundFacts.pow2_pos; unfold e'; lia).
    set (N := (Z.pos pa * 2 ^ (0 - 0 - e'))%Z) in *.
    assert (HN : (0 <= N)%Z) by (unfold N; lia).
    pose proof (RoundFacts.round_at_exp_le N (Z.pos pb) e' HN
                  (Pos2Z.is_pos pb)) as U.
    assert (Dq : (Zdigits2 (N / Z.pos pb) <= Zdigits2 (Z.pos pa) + (0 - 0 - e'))%Z).
    { rewrite <- RoundFacts.Zdigits2_mul_pow by (unfold e'; lia).
      apply RoundFacts.Zdigits2_le. split.
      - apply Z.div_pos; lia.
      - apply Z.div_le_upper_bound; [lia|]. fold N. nia. }
    assert (Dp : (Zdigits2 (Z.pos pa) <= 1023)%Z).
    { apply RoundFacts.Zdigits2_le_pow; lia. }
    rewrite R.
    destruct (RoundFacts.build_cases (Round.round_at N (Z.pos pb) e')
                (RoundFacts.round_at_fst_nonneg _ _ _ HN (Pos2Z.is_pos pb)))
      as [E|[(m & _ & _ & E)|[G _]]].
    + rewrite E. eexists. reflexivity.
    + rewrite E. eexists. reflexivity.
    + unfold e', Round.fexp64 in *. lia.
Qed.

Lemma convert_total tpb merged : forall w,
  (0 < tpb)%Z -> (0 <= tempo w < 2 ^ 1023)%Z -> (0 <= last_tick w)%Z ->
  StronglySorted tick_le merged ->
  Forall (fun x => (last_tick w <= fst x)%Z) merged ->
  Forall in_double_range merged ->
  exists w', convert tpb w merged = inr w'.
Proof.
  induction merged as [|[T m] rest IH]; intros w Htpb Ht Hl Hs Hf Hr.
  - eexists. reflexivity.
  - inversion Hs as [|? ? Hs' Hf']; subst.
    inversion Hf as [|? ? L Hfr]; subst.
    inversion Hr as [|? ? [R1 R2] Hrr]; subst. cbn [fst snd] in *.
    destruct (int_truediv_total (tempo w) tpb Ht Htpb) as [q Eq].
    destruct (float_of_int_total (T - last_tick w)) as [x Ex]; [lia|].
    cbn [convert]. unfold convert_one, Py.int_mul_float, bind, ret.
    rewrite Eq, Ex.
    destruct (body m) as [t| |[|b raw]|]; apply IH; auto;
      cbn [tempo last_tick]; lia.
Qed.

(** With ticks and tempos in the range of a double and a positive number
    of ticks per beat, [_flatten] returns. *)
Lemma flatten_total mid :
  (0 < ticks_per_beat mid)%Z ->
  Forall in_double_range (merge_tracks (tracks mid)) ->
  exists out, _flatten mid = inr out.
Proof.
  intros Htpb Hr. unfold _flatten.
  assert (Hr' : Forall in_double_range (sort_ticks (merge_tracks (tracks mid)))).
  { eapply Permutation_Forall; [symmetry; apply SortFacts.sort_ticks_perm|].
    exact Hr. }
  destruct (convert_total (ticks_per_beat mid)
              (sort_ticks (merge_tracks (tracks mid))) walk_init Htpb)
    as [w E]; auto.
  - unfold walk_init. cbn [tempo]. lia.
  - unfold walk_init. cbn [last_tick]. lia.
  - apply SortFacts.sort_ticks_sorted.
  - eapply Forall_impl; [|exact Hr']. intros x [[A _] _]. exact A.
  - unfold bind. rewrite E. eexists. reflexivity.
Qed.

(** C2. For tracks whose delta ticks are not negative and a positive
    number of ticks per beat, [_flatten] returns a sequence whenever the
    ticks and tempos fit a double, and any sequence it returns is in
    non-decreasing order of time, no time being negative; its bytes are
    those the entries of the sorted merge emit, in the order of the
    merge, and the sort keeps the entries of one tick in the order of
    the tracks and, within a track, of the file; and a second run
    returns the same sequence. *)
Theorem flatten_sorted_stable (mid : MidiFile) :
  (0 < ticks_per_beat mid)%Z ->
  Forall (Forall (fun m => (0 <= time m)%Z)) (tracks mid) ->
  let merged := merge_tracks (tracks mid) in
  (Forall in_double_range merged -> exists out, _flatten mid = inr out)
  /\ (forall out, _flatten mid = inr out ->
        nondecreasing (map fst out)
        /\ Forall (le 0) (map fst out)
        /\ map snd out = flat_map emitted (sort_ticks merged)
        /\ (forall out', _flatten mid = inr out' -> out' = out))
  /\ StronglySorted tick_le (sort_ticks merged)
  /\ Permutation (sort_ticks merged) merged
  /\ (forall k, at_tick k (sort_ticks merged) = at_tick k merged).
Proof.
  intros Htpb Hd merged. split; [apply flatten_total; exact Htpb|].
  split.
  - intros out H. unfold _flatten, bind in H. fold merged in H.
    destruct (convert (ticks_per_beat mid) walk_init (sort_ticks merged))
      as [e|w] eqn:E; [discriminate|].
    apply inr_inj in H. subst out.
    assert (Hl : Forall (fun x => (last_tick walk_init <= fst x)%Z)
                        (sort_ticks merged)).
    { eapply Permutation_Forall; [symmetry; apply SortFacts.sort_ticks_perm|].
      apply SortFacts.merge_tracks_nonneg. exact Hd. }
    destruct (convert_ok _ _ walk_init w Htpb walk_init_ok
                (SortFacts.sort_ticks_sorted merged) Hl E)
      as [(_ & _ & Hs & Hf) Hb].
    repeat split.
    + exact Hs.
    + eapply Forall_impl; [|exact Hf]. cbv beta. tauto.
    + exact Hb.
    + intros out' H'. unfold _flatten, bind in H'. fold merged in H'.
      rewrite E in H'. apply inr_inj in H'. auto.
  - repeat split.
    + apply SortFacts.sort_ticks_sorted.
    + apply SortFacts.sort_ticks_perm.
    + intros k. apply SortFacts.sort_ticks_stable.
Qed.

End OrderFacts.

Module OrderWitnesses.

Import F64.
Local Open Scope float_scope.

Lemma flatten_sorted_stable_witness :
  let merged := merge_tracks (tracks two_tracks) in
  _flatten two_tracks = inr two_tracks_out
  /\ nondecreasing (map fst two_tracks_out)
  /\ Forall (le 0) (map fst two_tracks_out)
  /\ map snd two_tracks_out = flat_map emitted (sort_ticks merged)
  /\ (forall out', _flatten two_tracks = inr out' -> out' = two_tracks_out)
  /\ StronglySorted tick_le (sort_ticks merged)
  /\ Permutation (sort_ticks merged) merged
  /\ (forall k, at_tick k (sort_ticks merged) = at_tick k merged).
Proof.
  assert (E : _flatten two_tracks = inr two_tracks_out)
    by (vm_compute; reflexivity).
  assert (Hd : Forall (Forall (fun m => (0 <= time m)%Z)) (tracks two_tracks))
    by (repeat constructor; discriminate).
  destruct (OrderFacts.flatten_sorted_stable two_tracks eq_refl Hd)
    as (_ & O & S).
  split; [exact E|]. destruct (O two_tracks_out E) as (A & B & C & D).
  repeat split; try assumption; apply S.
Defined.

End OrderWitnesses.

(** * The volume transform *)

Module VolumeFacts.

Import F64 F64Facts Round RoundFacts PyFacts.
Local Open Scope float_scope.

Lemma byte_int_range b : (0 <= byte_int b <= 255)%Z.
Proof. unfold byte_int. pose proof (Byte.to_N_bounded b). lia. Qed.

Lemma byte_of_int z :
  (0 <= z <= 255)%Z ->
  exists b, (if (z <? 0)%Z then None else Byte.of_N (Z.to_N z)) = Some b
            /\ byte_int b = z.
Proof.
  intros H. destruct (Z.ltb_spec z 0); [lia|].
  destruct (Byte.of_N (Z.to_N z)) as [b|] eqn:E.
  - exists b. split; [reflexivity|]. unfold byte_int.
    rewrite (Byte.to_of_N _ E). lia.
  - apply Byte.of_N_None_iff in E. lia.
Qed.

Lemma byte_of_byte_int b :
  (if (byte_int b <? 0)%Z then None else Byte.of_N (Z.to_N (byte_int b)))
  = Some b.
Proof.
  pose proof (byte_int_range b). destruct (Z.ltb_spec (byte_int b) 0); [lia|].
  unfold byte_int. rewrite N2Z.id. apply Byte.of_to_N.
Qed.

(** [float(z)] of a small non-negative [int] is a finite float with no
    positive exponent. *)
Lemma float_of_int_small z :
  (0 <= z < 2 ^ 52)%Z ->
  exists x, Py.float_of_int z = inr x
            /\ SFfinite_nonneg (Prim2SF x)
            /\ (forall m e, Prim2SF x = S754_finite false m e -> (e <= 0)%Z).
Proof.
  intros Hz. unfold Py.float_of_int, raise, ret.
  destruct z as [|p|p]; try lia.
  - cbn [binary_normalize]. eexists. split; [reflexivity|].
    split; [exact I|]. intros m e E. discriminate E.
  - cbn [binary_normalize].
    destruct (binary_round_spec false p 0) as [R F]. cbv zeta in R, F.
    set (e' := Z.min 0 (fexp64 (Zdigits2 (Z.pos p) + 0))) in *.
    assert (P : (0 < 2 ^ (0 - e'))%Z) by (apply pow2_pos; unfold e'; lia).
    assert (HN : (0 <= Z.pos p * 2 ^ (0 - e'))%Z) by lia.
    pose proof (build_finite_nonneg _ 1%Z e' _ HN Z.lt_0_1 F (eq_sym R)) as B.
    pose proof (round_at_exp_le _ 1%Z e' HN Z.lt_0_1) as U.
    rewrite Z.div_1_r, Zdigits2_mul_pow in U by (unfold e'; lia).
    assert (Dp : (Zdigits2 (Z.pos p) <= 52)%Z).
    { apply Zdigits2_le_pow; lia. }
    assert (U' : (snd (round_at (Z.pos p * 2 ^ (0 - e')) 1 e') <= 0)%Z).
    { unfold e', fexp64 in *. lia. }
    rewrite R in *.
    destruct (build_cases (round_at (Z.pos p * 2 ^ (0 - e')) 1 e')
                (round_at_fst_nonneg _ _ _ HN Z.lt_0_1))
      as [E|[(m & _ & _ & E)|[G _]]]; [| |lia].
    + rewrite E in *. destruct B as [B1 B2]. eexists. split; [reflexivity|].
      rewrite B1. split; [exact I|]. intros; discriminate.
    + rewrite E in *. destruct B as [B1 B2]. eexists. split; [reflexivity|].
      rewrite B1. split; [reflexivity|]. intros m0 e0 E0.
      assert (e0 = snd (round_at (Z.pos p * 2 ^ (0 - e')) 1 e')) by congruence.
      lia.
Qed.

Lemma Prim2SF_one : Prim2SF 1 = S754_finite false 4503599627370496 (-52).
Proof. reflexivity. Qed.

(** A gain in [0, 1] is a finite float with no positive exponent. *)
Lemma gain_small g :
  le 0 g -> le g 1 ->
  SFfinite_nonneg (Prim2SF g)
  /\ (forall m e, Prim2SF g = S754_finite false m e -> (e <= 0)%Z).
Proof.
  intros H0 H1. apply le_0_iff in H0. unfold le in H1.
  rewrite leb_spec, Prim2SF_one in H1.
  destruct (Prim2SF g) as [s|s| |s m e]; simpl in H0; try contradiction;
    subst; try discriminate H1.
  - split; [exact I|]. intros; discriminate.
  - split; [reflexivity|]. intros m0 e0 E.
    assert (e0 = e) by congruence. subst e0.
    unfold SFleb in H1. rewrite SFcompare_pos in H1. unfold cmp_pos in H1.
    destruct (Z.compare_spec e (-52)); first [lia | discriminate H1].
Qed.

(** [int] of a finite non-negative float is its integer part. *)
Lemma int_of_float_finite f :
  SFfinite_nonneg (Prim2SF f) ->
  exists z, Py.int_of_float f = inr z /\ (0 <= z)%Z.
Proof.
  unfold Py.int_of_float, ret.
  destruct (Prim2SF f) as [s|s| |s m e]; intros H;
    cbn [SFfinite_nonneg] in H; try contradiction.
  - exists 0%Z. split; [reflexivity|lia].
  - subst s. eexists. split; [reflexivity|]. cbv iota.
    destruct e as [|p|p].
    + apply Z.mul_nonneg_nonneg; [lia|]. apply Z.pow_nonneg. lia.
    + apply Z.mul_nonneg_nonneg; [lia|]. apply Z.pow_nonneg. lia.
    + apply Z.div_pos; [lia|]. apply pow2_pos. lia.
Qed.

(** The scaled value of a volume message: never an exception while the
    gain is in [0, 1]. *)
Lemma scaled_total g b :
  le 0 g -> le g 1 ->
  exists x scaled,
    Py.float_of_int (byte_int b) = inr x
    /\ Py.int_of_float (x * g) = inr scaled
    /\ (0 <= scaled)%Z.
Proof.
  intros H0 H1. pose proof (byte_int_range b) as Hb.
  destruct (float_of_int_small (byte_int b)) as (x & Ex & Fx & Bx); [lia|].
  destruct (gain_small g H0 H1) as [Fg Bg].
  assert (Fp : SFfinite_nonneg (Prim2SF (x * g))).
  { rewrite mul_spec. apply SFmul_finite_nonneg;
      auto using Prim2SF_valid. }
  destruct (int_of_float_finite _ Fp) as (z & Ez & Hz).
  exists x, z. auto.
Qed.

(** With a gain in [0, 1] the transform raises nothing. *)
Lemma apply_volume_total g raw :
  le 0 g -> le g 1 -> exists data, _apply_volume g raw = inr data.
Proof.
  intros H0 H1. unfold _apply_volume.
  destruct raw as [|b0 [|b1 [|b2 rest]]]; try (eexists; reflexivity).
  destruct ((Z.land (byte_int b0) 240 =? 176)%Z && (byte_int b1 =? 7)%Z);
    [|eexists; reflexivity].
  destruct (scaled_total g b2 H0 H1) as (x & scaled & Ex & Es & Hs).
  destruct (byte_of_int (Z.max 0 (Z.min 127 scaled))) as (v & Ev & Hv');
    [lia|].
  exists [b0; b1; v].
  unfold Py.int_mul_float, bind, ret. rewrite Ex, Es.
  cbn [bytes_of_ints]. unfold bind, ret.
  rewrite !byte_of_byte_int, Ev. reflexivity.
Qed.

(** The claim of C5 as the specification states it fails: the value
    written is not the rounded product. At gain 0.875 the value 3 becomes
    2 where 2.625 rounds to 3, and at gain 0.5 the value 127 becomes 63
    where [round] gives 64. *)
Lemma volume_is_not_rounded :
  _apply_volume 0.875 [xb0; x07; x03] = inr [xb0; x07; x02]
  /\ spec_round (3 * 0.875) = inr 3%Z
  /\ _apply_volume 0.5 [xb0; x07; x7f] = inr [xb0; x07; x3f]
  /\ spec_round (127 * 0.5) = inr 64%Z.
Proof. repeat split; vm_compute; reflexivity. Qed.

(** C5, amended. For a gain in [0, 1], a byte sequence of at least three
    bytes whose status nibble is control-change and whose controller is
    7 becomes the three bytes status, 7 and [int(value * gain)] clamped
    to [0, 127], where [int] drops the fraction of the binary64 product;
    no exception is raised. Any other byte sequence is returned as it
    is. At gain 0.5 the value 127 becomes 63. *)
Theorem apply_volume_truncates (gain : float) (raw : list byte) :
  le 0 gain -> le gain 1 ->
  (is_volume_message raw = false -> _apply_volume gain raw = inr raw)
  /\ (forall b0 b1 b2 rest,
        raw = b0 :: b1 :: b2 :: rest -> is_volume_message raw = true ->
        exists x scaled v,
          Py.float_of_int (byte_int b2) = inr x
          /\ Py.int_of_float (x * gain) = inr scaled
          /\ byte_int v = Z.max 0 (Z.min 127 scaled)
          /\ (0 <= byte_int v <= 127)%Z
          /\ _apply_volume gain raw = inr [b0; b1; v])
  /\ _apply_volume 0.5 [xb0; x07; x7f] = inr [xb0; x07; x3f].
Proof.
  intros H0 H1. split; [|split].
  - unfold is_volume_message, _apply_volume.
    destruct raw as [|b0 [|b1 [|b2 rest]]]; try reflexivity.
    intros ->. reflexivity.
  - intros b0 b1 b2 rest -> Hv.
    unfold is_volume_message in Hv. unfold _apply_volume. rewrite Hv.
    destruct (scaled_total gain b2 H0 H1) as (x & scaled & Ex & Es & Hs).
    destruct (byte_of_int (Z.max 0 (Z.min 127 scaled))) as (v & Ev & Hv');
      [lia|].
    exists x, scaled, v. repeat split; auto; try lia.
    unfold Py.int_mul_float, bind, ret. rewrite Ex, Es.
    cbn [bytes_of_ints]. unfold bind, ret.
    rewrite !byte_of_byte_int, Ev. reflexivity.
  - vm_compute. reflexivity.
Qed.

Lemma apply_volume_truncates_witness :
  (is_volume_message [xb0; x07; x7f] = false ->
   _apply_volume 0.5 [xb0; x07; x7f] = inr [xb0; x07; x7f])
  /\ (forall b0 b1 b2 rest,
        [xb0; x07; x7f] = b0 :: b1 :: b2 :: rest ->
        is_volume_message [xb0; x07; x7f] = true ->
        exists x scaled v,
          Py.float_of_int (byte_int b2) = inr x
          /\ Py.int_of_float (x * 0.5) = inr scaled
          /\ byte_int v = Z.max 0 (Z.min 127 scaled)
          /\ (0 <= byte_int v <= 127)%Z
          /\ _apply_volume 0.5 [xb0; x07; x7f] = inr [b0; b1; v])
  /\ _apply_volume 0.5 [xb0; x07; x7f] = inr [xb0; x07; x3f].
Proof.
  apply (apply_volume_truncates 0.5 [xb0; x07; x7f]); reflexivity.
Defined.

End VolumeFacts.

(** * When [on_finished] is invoked *)

Module FinishFacts.

Section WithFiles.

Variable mido_MidiFile : list byte -> result MidiFile.

Lemma finished_count_app tr out :
  finished_count (tr ++ out) = (finished_count tr + finished_count out)%nat.
Proof. unfold finished_count. rewrite filter_app, length_app. reflexivity. Qed.

Lemma exec_app c s1 s2 :
  exec mido_MidiFile c (s1 ++ s2)
  = exec mido_MidiFile (exec mido_MidiFile c s1) s2.
Proof. unfold exec. apply fold_left_app. Qed.

Ltac break_step :=
  repeat match goal with
         | |- context [if ?b then _ else _] => destruct b eqn:?
         | |- context [match _seek_to ?p with _ => _ end] =>
             destruct (_seek_to p) eqn:?
         | |- context [match _apply_volume ?v ?r with _ => _ end] =>
             destruct (_apply_volume v r) eqn:?
         | |- context [match Py.time_sleep ?d with _ => _ end] =>
             destruct (Py.time_sleep d) eqn:?
         end.

Lemma step_tick c now :
  step mido_MidiFile c (Tick now)
  = {| player := fst (fst (_run_step now (player c) (loop c)));
       loop := snd (fst (_run_step now (player c) (loop c)));
       trace := trace c ++ snd (_run_step now (player c) (loop c)) |}.
Proof.
  cbn [step]. destruct (_run_step now (player c) (loop c)) as [[p th] out].
  reflexivity.
Qed.

Lemma call_quiet c p : finished_count (snd (call mido_MidiFile c p)) = 0%nat.
Proof.
  destruct c; cbn [call]; try reflexivity.
  - unfold play. destruct (_state p); reflexivity.
  - unfold pause. destruct (_state p); reflexivity.
Qed.

(** Of the commands only [play] makes the state [PLAYING]. *)
Lemma call_state c p :
  c <> CPlay -> _state p <> PLAYING ->
  _state (fst (call mido_MidiFile c p)) <> PLAYING.
Proof.
  intros Hc Hp. destruct c; cbn [call]; try congruence;
    try (cbn; congruence).
  - unfold load. destruct (_ <- mido_MidiFile path ;; _) as [e|[mid ms]];
      cbn; assumption.
  - unfold pause. destruct (_state p) eqn:E; cbn; congruence.
Qed.

Lemma call_on_finished c p :
  on_finished (fst (call mido_MidiFile c p)) = on_finished p.
Proof.
  destruct c; cbn [call]; try reflexivity.
  - unfold load. destruct (_ <- mido_MidiFile path ;; _) as [e|[mid ms]];
      reflexivity.
  - unfold play. destruct (_state p); reflexivity.
  - unfold pause. destruct (_state p); reflexivity.
Qed.

Lemma step_counted c a : counted c -> counted (step mido_MidiFile c a).
Proof.
  unfold counted. destruct a as [now|cmd]; [rewrite step_tick|cbn [step]].
  - unfold _run_step. destruct (at_point (loop c)) eqn:L; break_step;
      cbn [fst snd loop trace goto at_point];
      rewrite ?L, ?finished_count_app;
      cbn [finished_count filter is_OnFinished length app]; lia.
  - destruct (call mido_MidiFile cmd (player c)) as [p out] eqn:E.
    cbn [loop trace]. rewrite finished_count_app.
    pose proof (call_quiet cmd (player c)) as Q. rewrite E in Q.
    cbn [snd] in Q. rewrite Q. destruct (at_point (loop c)); lia.
Qed.

Lemma exec_counted s : forall c,
  counted c -> counted (exec mido_MidiFile c s).
Proof.
  induction s as [|a s IH]; intros c H; [exact H|].
  cbn. apply IH, step_counted, H.
Qed.

Lemma step_silenced c a :
  is_CPlay a = false -> silenced c -> silenced (step mido_MidiFile c a).
Proof.
  unfold silenced. intros Ha (Hs & Hc & Hw).
  destruct a as [now|cmd]; [rewrite step_tick|cbn [step]].
  - unfold _run_step. destruct (at_point (loop c)) eqn:L; break_step;
      cbn [fst snd player loop trace goto at_point l_was_playing with_pos
           with_state with_seek_to _state reposition fetch];
      rewrite ?finished_count_app, ?Hc;
      try (rewrite (Hw eq_refl) in *); try discriminate;
      repeat split; try congruence; try reflexivity;
      try (intros; discriminate);
      try (intros _; destruct (_state (player c)); try reflexivity;
           congruence).
  - destruct (call mido_MidiFile cmd (player c)) as [p out] eqn:E.
    cbn [player loop trace]. rewrite finished_count_app, Hc.
    pose proof (call_quiet cmd (player c)) as Q. rewrite E in Q.
    cbn [snd] in Q. rewrite Q.
    assert (Hn : cmd <> CPlay) by (intros ->; discriminate Ha).
    pose proof (call_state cmd (player c) Hn Hs) as S. rewrite E in S.
    cbn [fst] in S. auto.
Qed.

Lemma exec_silenced s : forall c,
  forallb (fun a => negb (is_CPlay a)) s = true ->
  silenced c -> silenced (exec mido_MidiFile c s).
Proof.
  induction s as [|a s IH]; intros c Hs H; [exact H|].
  cbn in Hs. apply andb_prop in Hs as [Ha Hs].
  cbn. apply IH; [exact Hs|]. apply step_silenced; [|exact H].
  destruct (is_CPlay a); [discriminate|reflexivity].
Qed.

Lemma exec_cons c a s :
  exec mido_MidiFile c (a :: s)
  = exec mido_MidiFile (step mido_MidiFile c a) s.
Proof. reflexivity. Qed.

Lemma ticks_S n now : ticks (S n) now = Tick now :: ticks n now.
Proof. reflexivity. Qed.

Lemma ticks_add n m now : ticks (n + m) now = ticks n now ++ ticks m now.
Proof. unfold ticks. apply repeat_app. Qed.

Ltac tick :=
  rewrite ticks_S, exec_cons;
  cbn [step _run_step player loop trace at_point l_messages l_pos l_t0
       l_range l_i l_msg l_was_playing goto fetch reposition
       _state _stop_flag _pause_evt _mid _messages _duration _pos _seek_to
       _volume on_position on_finished with_pos with_state with_seek_to
       fst snd];
  cbv beta iota delta
    [goto fetch reposition with_pos with_state with_seek_to at_point
     l_messages l_pos l_t0 l_range l_i l_msg l_was_playing _state
     _stop_flag _pause_evt _mid _messages _duration _pos _seek_to _volume
     on_position on_finished].

(** One undisturbed pass through the body of the [for]: ten steps that
    send the event the iterator yields and move the position to it. *)
Lemma body_pass st mid pm dur pos vol onp onf (msgs : list timed_event)
    lp t0 k i m wp tr now data :
  (k <? length msgs)%nat = true ->
  due now t0 (nth k msgs no_event) ->
  _apply_volume vol (snd (nth k msgs no_event)) = inr data ->
  exec mido_MidiFile
    {| player := {| _state := st; _stop_flag := false; _pause_evt := true;
                    _mid := mid; _messages := pm; _duration := dur;
                    _pos := pos; _seek_to := None; _volume := vol;
                    on_position := onp; on_finished := onf |};
       loop := {| at_point := ForNext; l_messages := msgs; l_pos := lp;
                  l_t0 := t0; l_range := k; l_i := i; l_msg := m;
                  l_was_playing := wp |};
       trace := tr |}
    (ticks 10 now)
  = {| player := {| _state := st; _stop_flag := false; _pause_evt := true;
                    _mid := mid; _messages := pm; _duration := dur;
                    _pos := fst (nth k msgs no_event);
                    _seek_to := None; _volume := vol;
                    on_position := onp; on_finished := onf |};
       loop := {| at_point := ForNext; l_messages := msgs; l_pos := lp;
                  l_t0 := t0; l_range := S k; l_i := k;
                  l_msg := nth k msgs no_event;
                  l_was_playing := wp |};
       trace := tr ++ Send data
                      :: (if onp
                          then [OnPosition (fst (nth k msgs no_event)) dur]
                          else []) |}.
Proof.
  intros Hk Hd Hv. unfold due in Hd.
  tick. rewrite Hk. cbn [goto at_point l_messages l_pos l_t0 l_range l_i
                         l_msg l_was_playing].
  tick. tick. tick. tick. tick. rewrite Hd.
  cbn [goto at_point l_messages l_pos l_t0 l_range l_i l_msg l_was_playing].
  tick. tick. rewrite Hv.
  cbn [goto at_point l_messages l_pos l_t0 l_range l_i l_msg l_was_playing].
  tick. tick. cbn [exec ticks repeat fold_left].
  rewrite !app_nil_r, <- !app_assoc. reflexivity.
Qed.

Lemma skipn_nth (msgs : list timed_event) k :
  (k < length msgs)%nat ->
  skipn k msgs = nth k msgs no_event :: skipn (S k) msgs.
Proof.
  revert k. induction msgs as [|e msgs IH]; intros k H; cbn in H; [lia|].
  destruct k as [|k]; [reflexivity|]. cbn [skipn nth]. apply IH. lia.
Qed.

(** The passes that remain and the block after the loop, undisturbed. *)
Lemma run_rest st mid pm dur vol onp onf (msgs : list timed_event) lp t0 now :
  (forall e, In e msgs -> due now t0 e) ->
  (forall raw, exists data, _apply_volume vol raw = inr data) ->
  forall n k pos i m wp tr,
    (length msgs - k = n)%nat ->
    let c :=
      exec mido_MidiFile
        {| player := {| _state := st; _stop_flag := false; _pause_evt := true;
                        _mid := mid; _messages := pm; _duration := dur;
                        _pos := pos; _seek_to := None; _volume := vol;
                        on_position := onp; on_finished := onf |};
           loop := {| at_point := ForNext; l_messages := msgs; l_pos := lp;
                      l_t0 := t0; l_range := k; l_i := i; l_msg := m;
                      l_was_playing := wp |};
           trace := tr |}
        (ticks (10 * n + 3) now) in
    at_point (loop c) = Done
    /\ trace c
       = tr ++ flat_map (fun e => Send (volume_bytes vol (snd e))
                                  :: (if onp then [OnPosition (fst e) dur]
                                      else []))
                        (skipn k msgs)
            ++ AllSoundOff
               :: (if PlayerState_eqb st PLAYING && onf then [OnFinished]
                   else [])
    /\ _state (player c) = STOPPED
    /\ _pos (player c) = 0%float.
Proof.
  intros Hdue Hvol. induction n as [|n IH]; intros k pos i m wp tr Hn c.
  - subst c. cbn [Nat.mul Nat.add].
    assert (Hk : (k <? length msgs)%nat = false) by (apply Nat.ltb_ge; lia).
    tick. rewrite Hk.
    cbn [goto at_point l_messages l_pos l_t0 l_range l_i l_msg l_was_playing].
    tick. tick. cbn [exec ticks repeat fold_left trace loop player at_point
                     _state _pos].
    rewrite skipn_all2 by lia. cbn [flat_map].
    rewrite !app_nil_r. repeat split; reflexivity.
  - assert (Hlt : (k < length msgs)%nat) by lia.
    assert (Hk : (k <? length msgs)%nat = true) by (apply Nat.ltb_lt; lia).
    destruct (Hvol (snd (nth k msgs no_event))) as [data Hd].
    subst c. replace (10 * S n + 3)%nat with (10 + (10 * n + 3))%nat by lia.
    rewrite ticks_add, exec_app.
    rewrite (body_pass _ _ _ _ _ _ _ _ _ _ _ _ _ _ _ _ _ data Hk
               (Hdue _ (nth_In _ _ Hlt)) Hd).
    destruct (IH (S k) (fst (nth k msgs no_event)) k (nth k msgs no_event) wp
                (tr ++ Send data
                    :: (if onp then [OnPosition (fst (nth k msgs no_event)) dur]
                        else [])) ltac:(lia))
      as (A & B & C & D).
    repeat split; auto. rewrite B, (skipn_nth msgs k Hlt). cbn [flat_map].
    unfold volume_bytes at 2. rewrite Hd.
    rewrite <- !app_assoc. reflexivity.
Qed.

Lemma exec_calls s : forall c,
  forallb is_Call s = true ->
  loop (exec mido_MidiFile c s) = loop c
  /\ on_finished (player (exec mido_MidiFile c s)) = on_finished (player c)
  /\ finished_count (trace (exec mido_MidiFile c s)) = finished_count (trace c).
Proof.
  induction s as [|a s IH]; intros c H; [auto|].
  cbn in H. apply andb_prop in H as [Ha Hs].
  destruct a as [now|cmd]; [discriminate|].
  rewrite exec_cons. destruct (IH (step mido_MidiFile c (Call cmd)) Hs)
    as (A & B & C).
  rewrite A, B, C. cbn [step].
  pose proof (call_on_finished cmd (player c)) as F.
  pose proof (call_quiet cmd (player c)) as Q.
  destruct (call mido_MidiFile cmd (player c)) as [q out].
  cbn [fst snd] in F, Q. cbn [loop player trace].
  rewrite finished_count_app, Q. auto.
Qed.

Lemma spawned_counted p : counted (spawned p).
Proof. reflexivity. Qed.

(** C3, amended. A run of the pacing loop invokes [on_finished] at most
    once. It does so in the block after the [for], if and only if the
    state it reads under the lock there is still [PLAYING] (and a
    callback is installed), however the loop was left. So: an undisturbed
    run from [PLAYING] sends every event from the resume index in order
    and ends with exactly one invocation; once [stop] (or its locked
    part) has been executed before that block is reached, nothing is
    invoked unless [play] is called again; and [skip], which raises the
    stop signal and leaves the state as it is, ends a playing loop with
    the invocation. *)
Theorem on_finished_iff_playing_at_end :
  (forall p schedule,
      (finished_count (trace (exec mido_MidiFile (spawned p) schedule)) <= 1)%nat)
  /\ (forall c now1 calls now2,
        at_point (loop c) = Finish ->
        forallb is_Call calls = true ->
        let c' := exec mido_MidiFile c (Tick now1 :: calls ++ [Tick now2]) in
        at_point (loop c') = Done
        /\ finished_count (trace c')
           = (finished_count (trace c)
              + if PlayerState_eqb (_state (player c)) PLAYING
                   && on_finished (player c)
                then 1 else 0)%nat)
  /\ (forall p now0 now,
        _stop_flag p = false -> _pause_evt p = true -> _seek_to p = None ->
        F64.le 0 (_volume p) -> F64.le (_volume p) 1 ->
        (forall e, In e (_messages p) ->
                   due now (now0 - _pos p)%float e) ->
        let rest := skipn (_find_index (_messages p) (_pos p)) (_messages p) in
        let c := exec mido_MidiFile (spawned p)
                   (Tick now0 :: ticks (10 * length rest + 3) now) in
        at_point (loop c) = Done
        /\ trace c
           = flat_map (played p) rest
             ++ AllSoundOff
                :: (if PlayerState_eqb (_state p) PLAYING && on_finished p
                    then [OnFinished] else [])
        /\ _state (player c) = STOPPED
        /\ _pos (player c) = 0%float)
  /\ (forall p before after cmd,
        cmd = CStop \/ cmd = CStopLocked ->
        before_final
          (at_point (loop (exec mido_MidiFile (spawned p) before))) = true ->
        forallb (fun a => negb (is_CPlay a)) after = true ->
        finished_count
          (trace (exec mido_MidiFile (spawned p)
                    (before ++ Call cmd :: after))) = 0%nat)
  /\ (forall p, _state (fst (skip p)) = _state p
                /\ _stop_flag (fst (skip p)) = true).
Proof.
  split; [|split; [|split; [|split]]].
  - intros p schedule.
    pose proof (exec_counted schedule _ (spawned_counted p)) as H.
    unfold counted in H.
    destruct (at_point (loop (exec mido_MidiFile (spawned p) schedule))); lia.
  - intros c now1 calls now2 Hf Hc c'. subst c'.
    rewrite exec_cons, exec_app.
    set (c1 := step mido_MidiFile c (Tick now1)).
    assert (H1 : at_point (loop c1) = Final
                 /\ l_was_playing (loop c1)
                    = PlayerState_eqb (_state (player c)) PLAYING
                 /\ on_finished (player c1) = on_finished (player c)
                 /\ finished_count (trace c1) = finished_count (trace c)).
    { unfold c1. rewrite step_tick. unfold _run_step. rewrite Hf.
      cbn [fst snd loop player trace at_point l_was_playing on_finished
           with_pos with_state].
      rewrite app_nil_r. auto. }
    destruct H1 as (P1 & W1 & O1 & N1).
    destruct (exec_calls calls c1 Hc) as (L2 & O2 & N2).
    set (c2 := exec mido_MidiFile c1 calls) in *.
    cbn [exec fold_left]. rewrite step_tick. unfold _run_step.
    rewrite L2, P1. cbn [fst snd loop trace goto at_point].
    rewrite finished_count_app, N2, N1, W1, O2, O1.
    split; [reflexivity|].
    destruct (PlayerState_eqb (_state (player c)) PLAYING
              && on_finished (player c)); reflexivity.
  - intros p now0 now Hs Hp Hk G0 G1 Hd rest c.
    destruct p as [st sf pe mid pm dur pos sk vol onp onf].
    cbn [_stop_flag _pause_evt _seek_to _volume _messages _pos _state
         on_finished] in *.
    subst sf pe sk. subst c. rewrite exec_cons.
    cbn [step spawned _run_step player loop trace thread_init at_point
         _messages _pos l_i l_msg l_was_playing app].
    destruct (run_rest st mid pm dur vol onp onf pm pos (now0 - pos)%float now
                Hd (fun raw => VolumeFacts.apply_volume_total vol raw G0 G1)
                (length rest) (_find_index pm pos) pos 0%nat no_event false [])
      as (A & B & C & D).
    { subst rest. rewrite length_skipn. reflexivity. }
    repeat split; auto.
  - intros p before after cmd Hcmd Hb Ha. rewrite exec_app, exec_cons.
    set (c1 := exec mido_MidiFile (spawned p) before) in *.
    pose proof (exec_counted before _ (spawned_counted p)) as Hc.
    fold c1 in Hc. unfold counted in Hc.
    assert (N1 : finished_count (trace c1) = 0%nat).
    { destruct (at_point (loop c1)); try exact Hc; discriminate Hb. }
    assert (S1 : silenced (step mido_MidiFile c1 (Call cmd))).
    { unfold silenced.
      destruct Hcmd as [-> | ->]; cbn [step call stop stop_locked skip
        player loop trace _state with_pos with_state with_pause_evt
        with_stop_flag app];
        rewrite finished_count_app, N1;
        (split; [discriminate|]); (split; [reflexivity|]);
        intros F; rewrite F in Hb; discriminate Hb. }
    apply (exec_silenced after _ Ha S1).
  - intros p. split; reflexivity.
Qed.

End WithFiles.

End FinishFacts.

(** * The pacing loop under [stop], [pause] and [play] *)

Module RunFacts.

Section WithFiles.

Variable mido_MidiFile : list byte -> result MidiFile.

Ltac split_step :=
  repeat match goal with
         | |- context [if ?b then _ else _] => destruct b eqn:?
         | |- context [match _seek_to ?p with _ => _ end] =>
             destruct (_seek_to p) eqn:?
         | |- context [match _apply_volume ?v ?r with _ => _ end] =>
             destruct (_apply_volume v r) eqn:?
         | |- context [match Py.time_sleep ?d with _ => _ end] =>
             destruct (Py.time_sleep d) eqn:?
         end.

Ltac fields :=
  cbn [fst snd player loop trace goto at_point l_messages l_pos l_t0 l_range
       l_i l_msg l_was_playing with_pos with_state with_seek_to _state
       _stop_flag _pause_evt _mid _messages _duration _pos _seek_to _volume
       on_position on_finished reposition fetch].

Lemma sent_count_app tr out :
  sent_count (tr ++ out) = (sent_count tr + sent_count out)%nat.
Proof. unfold sent_count. rewrite filter_app, length_app. reflexivity. Qed.

Lemma exec_nil c : exec mido_MidiFile c [] = c.
Proof. reflexivity. Qed.

Lemma exec_ticks_cons c now nows :
  exec mido_MidiFile c (map Tick (now :: nows))
  = exec mido_MidiFile (step mido_MidiFile c (Tick now)) (map Tick nows).
Proof. reflexivity. Qed.

(** A step of the loop writes the position, the pending seek and the
    state, and nothing else of the player. *)
Lemma run_step_keeps now p th :
  let p' := fst (fst (_run_step now p th)) in
  _stop_flag p' = _stop_flag p /\ _pause_evt p' = _pause_evt p
  /\ _volume p' = _volume p /\ _messages p' = _messages p
  /\ _duration p' = _duration p /\ on_finished p' = on_finished p
  /\ on_position p' = on_position p.
Proof.
  unfold _run_step. destruct (at_point th); split_step; fields;
    repeat split; congruence.
Qed.

(** The sleep of the wait raises exactly when the delay is not a
    number: a delay that is not at most zero is positive, and
    [min(delta, 0.005)] is then a positive number of at most 0.005. *)
Lemma sleep_of_delay (d : float) :
  (d <=? 0)%float = false ->
  Py.time_sleep (Py.fmin d 0x1.47ae147ae147bp-8)
  = match Prim2SF d with
    | S754_nan => inl ValueError
    | _ => inr tt
    end.
Proof.
  intros H. rewrite leb_spec in H. unfold Py.fmin. rewrite ltb_spec.
  destruct (Prim2SF d) as [s|s| |s m e] eqn:E.
  - destruct s; discriminate H.
  - destruct s; [discriminate H|]. reflexivity.
  - cbn. unfold Py.time_sleep. rewrite E. reflexivity.
  - destruct s; [discriminate H|].
    destruct (SFltb _ _); [reflexivity|].
    unfold Py.time_sleep. rewrite E, ltb_spec, E. reflexivity.
Qed.

Lemma nan_not_due (d : float) :
  Prim2SF d = S754_nan -> (d <=? 0)%float = false.
Proof. intros E. rewrite leb_spec, E. reflexivity. Qed.

(** A step kills the thread exactly at a NaN delay, with the
    [ValueError] of [time.sleep], and changes nothing else then. *)
Lemma run_step_dies now p th :
  F64.le 0 (_volume p) -> F64.le (_volume p) 1 ->
  is_Crashed (at_point th) = false ->
  (nan_delay now p th = true ->
   _run_step now p th = (p, goto (Crashed ValueError) th, []))
  /\ (nan_delay now p th = false ->
      is_Crashed (at_point (snd (fst (_run_step now p th)))) = false).
Proof.
  intros G0 G1 Hc. unfold nan_delay, _run_step, delay.
  destruct (at_point th) eqn:E; try discriminate Hc.
  all: try (destruct (VolumeFacts.apply_volume_total (_volume p)
                        (snd (l_msg th)) G0 G1) as [data Hd]; rewrite Hd).
  all: try (split; [discriminate|intros _; split_step; fields; rewrite ?E;
                                 reflexivity]).
  destruct (_seek_to p) as [seek|];
    [split; [discriminate|intros _; reflexivity]|].
  cbv zeta.
  destruct (Prim2SF (fst (l_msg th) - (now - l_t0 th))) as [s|s| |s m e]
    eqn:D; (split; [try discriminate|try discriminate]); intros _.
  all: try (destruct (_ <=? _)%float eqn:L; [reflexivity|];
            rewrite (sleep_of_delay _ L), D; reflexivity).
  rewrite (nan_not_due _ D), (sleep_of_delay _ (nan_not_due _ D)), D.
  reflexivity.
Qed.

(** A dead thread takes no step. *)
Lemma run_step_dead now p th :
  is_Crashed (at_point th) = true -> _run_step now p th = (p, th, []).
Proof.
  intros H. unfold _run_step. destruct (at_point th); try discriminate H.
  reflexivity.
Qed.

(** With the stop signal up and the gate open every step but one at a
    NaN delay brings the loop nearer to [Done], away from the clock of
    the wait, and only a loop that is about to send still sends. *)
Lemma stopping_step now p th :
  _stop_flag p = true -> _pause_evt p = true ->
  F64.le 0 (_volume p) -> F64.le (_volume p) 1 ->
  nan_delay now p th = false ->
  let r := _run_step now p th in
  let th' := snd (fst r) in
  (steps_to_done (at_point th') <= steps_to_done (at_point th) - 1)%nat
  /\ (is_Crashed (at_point th) = false -> is_Crashed (at_point th') = false)
  /\ at_point th' <> WaitSeek
  /\ (sent_count (snd r)
      + match at_point th' with Emit => 1 | _ => 0 end
      = match at_point th with Emit => 1 | _ => 0 end)%nat
  /\ (finished_count (snd r)
      = match at_point th with
        | Final => if l_was_playing th && on_finished p then 1 else 0
        | _ => 0
        end)%nat
  /\ (match at_point th with
      | Final | Done => _state p = STOPPED /\ _pos p = 0%float
      | _ => True
      end ->
      match at_point th' with
      | Final | Done => _state (fst (fst r)) = STOPPED
                        /\ _pos (fst (fst r)) = 0%float
      | _ => True
      end).
Proof.
  intros Hs Hp G0 G1 Hn. cbv zeta.
  destruct (is_Crashed (at_point th)) eqn:Hc.
  { rewrite (run_step_dead now p th Hc). fields.
    destruct (at_point th); try discriminate Hc. cbn.
    repeat split; auto; discriminate. }
  destruct (run_step_dies now p th G0 G1 Hc) as [_ Hlive].
  specialize (Hlive Hn). revert Hlive. unfold _run_step.
  destruct (at_point th) eqn:E; rewrite ?Hs, ?Hp.
  all: try (destruct (VolumeFacts.apply_volume_total (_volume p)
                        (snd (l_msg th)) G0 G1) as [data Hd]; rewrite Hd).
  all: split_step; fields; rewrite ?E;
    cbn [steps_to_done is_Crashed finished_count filter is_OnFinished
         length];
    intros Hlive; try discriminate Hlive;
    repeat split; auto; try lia; try reflexivity; try discriminate;
    tauto.
Qed.

Lemma exec_stopping nows : forall c,
  _stop_flag (player c) = true -> _pause_evt (player c) = true ->
  F64.le 0 (_volume (player c)) -> F64.le (_volume (player c)) 1 ->
  is_Crashed (at_point (loop c)) = false ->
  nan_delay (hd 0%float nows) (player c) (loop c) = false ->
  match at_point (loop c) with
  | Final | Done => _state (player c) = STOPPED /\ _pos (player c) = 0%float
  | _ => True
  end ->
  let c' := exec mido_MidiFile c (map Tick nows) in
  (steps_to_done (at_point (loop c'))
   <= steps_to_done (at_point (loop c)) - length nows)%nat
  /\ is_Crashed (at_point (loop c')) = false
  /\ (sent_count (trace c')
      + match at_point (loop c') with Emit => 1 | _ => 0 end
      = sent_count (trace c)
        + match at_point (loop c) with Emit => 1 | _ => 0 end)%nat
  /\ match at_point (loop c') with
     | Final | Done => _state (player c') = STOPPED
                       /\ _pos (player c') = 0%float
     | _ => True
     end.
Proof.
  induction nows as [|now nows IH]; intros c Hs Hp G0 G1 Hc Hn Hd.
  - cbn. repeat split; auto. lia.
  - cbv zeta. rewrite exec_ticks_cons. cbn [hd] in Hn.
    set (c1 := step mido_MidiFile c (Tick now)).
    pose proof (FinishFacts.step_tick mido_MidiFile c now) as E1.
    fold c1 in E1.
    destruct (run_step_keeps now (player c) (loop c))
      as (K1 & K2 & K3 & _).
    destruct (stopping_step now (player c) (loop c) Hs Hp G0 G1 Hn)
      as (S1 & S2 & S5 & S3 & _ & S4).
    assert (P1 : player c1 = fst (fst (_run_step now (player c) (loop c))))
      by (rewrite E1; reflexivity).
    assert (L1 : loop c1 = snd (fst (_run_step now (player c) (loop c))))
      by (rewrite E1; reflexivity).
    assert (T1 : trace c1 = trace c ++ snd (_run_step now (player c) (loop c)))
      by (rewrite E1; reflexivity).
    destruct (IH c1) as (A & B & C & D).
    + rewrite P1, K1. exact Hs.
    + rewrite P1, K2. exact Hp.
    + rewrite P1, K3. exact G0.
    + rewrite P1, K3. exact G1.
    + rewrite L1. apply S2, Hc.
    + unfold nan_delay. rewrite L1.
      destruct (at_point (snd (fst (_run_step now (player c) (loop c)))));
        try reflexivity. congruence.
    + rewrite L1, P1. apply S4, Hd.
    + repeat split; auto.
      * rewrite L1 in A. cbn [length]. lia.
      * rewrite C, T1, L1, sent_count_app. lia.
Qed.

(** Once a thread is dead the schedule's steps no longer change it, and
    the calls change the player alone. *)
Lemma exec_dead nows : forall c,
  is_Crashed (at_point (loop c)) = true ->
  exec mido_MidiFile c (map Tick nows) = c.
Proof.
  induction nows as [|now nows IH]; intros c Hc; [reflexivity|].
  rewrite exec_ticks_cons.
  assert (E : step mido_MidiFile c (Tick now) = c).
  { rewrite FinishFacts.step_tick, (run_step_dead now _ _ Hc).
    cbn [fst snd]. rewrite app_nil_r. destruct c; reflexivity. }
  rewrite E. apply IH, Hc.
Qed.

(** X1. [stop] and [skip] end the pacing loop. From any point before
    its last block, at a gain in [0, 1], six steps of the loop after the
    call it has finished, the state is [STOPPED] and the position 0.0; a
    paused loop is included, since both calls open the pause gate. One
    more event is sent when the loop was about to send it, none
    otherwise. The exception is a loop that is at the clock of its wait
    with a delay that is not a number: its next step raises the
    [ValueError] of [time.sleep], the thread is dead without having run
    its last block, nothing more is sent or invoked, and the player is
    left as the call left it, after [skip] in the state it was in. *)
Theorem stop_ends_the_loop (c : config) (cmd : command) (nows : list float) :
  cmd = CStop \/ cmd = CSkip ->
  before_final (at_point (loop c)) = true ->
  is_Crashed (at_point (loop c)) = false ->
  F64.le 0 (_volume (player c)) -> F64.le (_volume (player c)) 1 ->
  (6 <= length nows)%nat ->
  let c' := exec mido_MidiFile c (Call cmd :: map Tick nows) in
  (nan_delay (hd 0%float nows) (player c) (loop c) = false ->
   at_point (loop c') = Done
   /\ _state (player c') = STOPPED
   /\ _pos (player c') = 0%float
   /\ sent_count (trace c')
      = (sent_count (trace c)
         + match at_point (loop c) with Emit => 1 | _ => 0 end)%nat)
  /\ (nan_delay (hd 0%float nows) (player c) (loop c) = true ->
      at_point (loop c') = Crashed ValueError
      /\ player c' = fst (call mido_MidiFile cmd (player c))
      /\ _state (player c')
         = match cmd with CSkip => _state (player c) | _ => STOPPED end
      /\ sent_count (trace c') = sent_count (trace c)
      /\ finished_count (trace c') = finished_count (trace c)).
Proof.
  intros Hcmd Hb Hc G0 G1 Hn c'. subst c'. rewrite FinishFacts.exec_cons.
  set (c1 := step mido_MidiFile c (Call cmd)).
  assert (H1 : _stop_flag (player c1) = true /\ _pause_evt (player c1) = true
               /\ _volume (player c1) = _volume (player c)
               /\ loop c1 = loop c
               /\ sent_count (trace c1) = sent_count (trace c)
               /\ finished_count (trace c1) = finished_count (trace c)
               /\ _seek_to (player c1) = _seek_to (player c)
               /\ player c1 = fst (call mido_MidiFile cmd (player c))
               /\ _state (player c1)
                  = match cmd with
                    | CSkip => _state (player c)
                    | _ => STOPPED
                    end).
  { unfold c1. destruct Hcmd as [-> | ->];
      cbn [step call stop stop_locked skip player loop trace app fst snd
           _stop_flag _pause_evt _volume _seek_to _state with_pos
           with_state with_pause_evt with_stop_flag];
      rewrite ?sent_count_app, ?FinishFacts.finished_count_app; cbn;
      repeat split; auto; lia. }
  destruct H1 as (F1 & F2 & F3 & F4 & F5 & F6 & F7 & F8 & F9).
  assert (N : forall now, nan_delay now (player c1) (loop c1)
                          = nan_delay now (player c) (loop c)).
  { intros now. unfold nan_delay. rewrite F4, F7. reflexivity. }
  split; intros Hd.
  - destruct (exec_stopping nows c1) as (A & B & C & D); auto.
    + rewrite F3. exact G0.
    + rewrite F3. exact G1.
    + rewrite F4. exact Hc.
    + rewrite N. exact Hd.
    + rewrite F4. destruct (at_point (loop c)); try exact I; discriminate Hb.
    + rewrite F4 in *.
      assert (Z0 : steps_to_done
                     (at_point (loop (exec mido_MidiFile c1 (map Tick nows))))
                   = 0%nat).
      { assert (steps_to_done (at_point (loop c)) <= 6)%nat
          by (destruct (at_point (loop c)); cbn; lia).
        lia. }
      destruct (at_point (loop (exec mido_MidiFile c1 (map Tick nows))))
        eqn:E; try discriminate Z0; try discriminate B.
      destruct D as [D1 D2]. repeat split; auto. lia.
  - destruct nows as [|now nows]; [cbn in Hn; lia|]. cbn [hd] in Hd.
    rewrite exec_ticks_cons.
    assert (G0' : F64.le 0 (_volume (player c1))) by (rewrite F3; exact G0).
    assert (G1' : F64.le (_volume (player c1)) 1) by (rewrite F3; exact G1).
    assert (Hc' : is_Crashed (at_point (loop c1)) = false)
      by (rewrite F4; exact Hc).
    destruct (run_step_dies now (player c1) (loop c1) G0' G1' Hc')
      as [Hdie _].
    rewrite N in Hdie. specialize (Hdie Hd).
    assert (E : step mido_MidiFile c1 (Tick now)
                = {| player := player c1;
                     loop := goto (Crashed ValueError) (loop c1);
                     trace := trace c1 |}).
    { rewrite FinishFacts.step_tick, Hdie. cbn [fst snd].
      rewrite app_nil_r. reflexivity. }
    rewrite E, exec_dead by reflexivity.
    cbn [player loop trace goto at_point]. auto.
Qed.

(** While the gate is shut a step sends only what is past the gate. *)
Lemma paused_step now p th :
  _pause_evt p = false ->
  let r := _run_step now p th in
  (sent_count (snd r) + past_gate (_stop_flag p) (at_point (snd (fst r)))
   <= past_gate (_stop_flag p) (at_point th))%nat
  /\ (at_point th = WaitGate -> r = (p, th, [])).
Proof.
  intros Hp. cbv zeta. unfold _run_step.
  destruct (at_point th) eqn:E; rewrite ?Hp; split_step; fields;
    rewrite ?E; cbn [past_gate sent_count filter is_Send length Nat.add];
    split; try lia; try discriminate; try reflexivity;
    destruct (_stop_flag p); lia.
Qed.

Lemma exec_paused nows : forall c,
  _pause_evt (player c) = false ->
  let c' := exec mido_MidiFile c (map Tick nows) in
  (sent_count (trace c')
   + past_gate (_stop_flag (player c)) (at_point (loop c'))
   <= sent_count (trace c)
      + past_gate (_stop_flag (player c)) (at_point (loop c)))%nat
  /\ (at_point (loop c) = WaitGate -> c' = c).
Proof.
  induction nows as [|now nows IH]; intros c Hp.
  - cbn. split; [lia|reflexivity].
  - cbv zeta. rewrite exec_ticks_cons.
    set (c1 := step mido_MidiFile c (Tick now)).
    pose proof (FinishFacts.step_tick mido_MidiFile c now) as E1.
    fold c1 in E1.
    destruct (run_step_keeps now (player c) (loop c)) as (K1 & K2 & _).
    destruct (paused_step now (player c) (loop c) Hp) as [S1 S2].
    assert (P1 : player c1 = fst (fst (_run_step now (player c) (loop c))))
      by (rewrite E1; reflexivity).
    assert (L1 : loop c1 = snd (fst (_run_step now (player c) (loop c))))
      by (rewrite E1; reflexivity).
    assert (T1 : trace c1 = trace c ++ snd (_run_step now (player c) (loop c)))
      by (rewrite E1; reflexivity).
    destruct (IH c1) as [A B].
    + rewrite P1, K2. exact Hp.
    + rewrite P1, K1 in A. split.
      * rewrite T1, L1, sent_count_app in A. lia.
      * intros G. assert (C1 : c1 = c).
        { rewrite E1, (S2 G). cbn [fst snd]. rewrite app_nil_r.
          destruct c; reflexivity. }
        rewrite B; [exact C1|]. rewrite C1. exact G.
Qed.

(** X4. After [pause] on a playing track the loop sends one more event
    at most, the one that was already past the pause gate, and a loop waiting
    at the gate stays where it is however often it is scheduled. *)
Theorem pause_holds_the_loop (c : config) (nows : list float) :
  _state (player c) = PLAYING ->
  let c' := exec mido_MidiFile c (Call CPause :: map Tick nows) in
  (sent_count (trace c')
   <= sent_count (trace c)
      + past_gate (_stop_flag (player c)) (at_point (loop c)))%nat
  /\ (sent_count (trace c') <= sent_count (trace c) + 1)%nat
  /\ (at_point (loop c) = WaitGate ->
      loop c' = loop c /\ trace c' = trace c ++ [AllSoundOff]).
Proof.
  intros Hs c'. subst c'. rewrite FinishFacts.exec_cons.
  set (c1 := step mido_MidiFile c (Call CPause)).
  assert (H1 : _pause_evt (player c1) = false
               /\ _stop_flag (player c1) = _stop_flag (player c)
               /\ loop c1 = loop c
               /\ trace c1 = trace c ++ [AllSoundOff]).
  { unfold c1. cbn [step call]. unfold pause. rewrite Hs.
    cbn. auto. }
  destruct H1 as (F1 & F2 & F3 & F4).
  destruct (exec_paused nows c1 F1) as [A B].
  rewrite F2, F3, F4, sent_count_app in A.
  cbn [sent_count filter is_Send length] in A.
  assert (P : (past_gate (_stop_flag (player c)) (at_point (loop c)) <= 1)%nat).
  { destruct (at_point (loop c)), (_stop_flag (player c)); cbn; lia. }
  split; [|split].
  - unfold sent_count in *. lia.
  - unfold sent_count in *. lia.
  - intros G. rewrite B by (rewrite F3; exact G). auto.
Qed.

(** The gain [set_volume] stores is in [0, 1]. *)
Lemma stored_gain_range v :
  F64.le 0 (Py.fmax 0 (Py.fmin 1 v)) /\ F64.le (Py.fmax 0 (Py.fmin 1 v)) 1.
Proof.
  unfold Py.fmax, Py.fmin, F64.le.
  assert (Z1 : (0 <? 1)%float = true) by reflexivity.
  destruct (v <? 1)%float eqn:A.
  - destruct (0 <? v)%float eqn:B.
    + split; apply F64Facts.lt_le; assumption.
    + split; reflexivity.
  - rewrite Z1. split; reflexivity.
Qed.

Lemma call_keeps_gain cmd p :
  F64.le 0 (_volume p) -> F64.le (_volume p) 1 ->
  F64.le 0 (_volume (fst (call mido_MidiFile cmd p)))
  /\ F64.le (_volume (fst (call mido_MidiFile cmd p))) 1.
Proof.
  intros G0 G1. destruct cmd; cbn [call]; try (cbn; auto; fail).
  - unfold load. destruct (_ <- mido_MidiFile path ;; _) as [e|[mid ms]];
      cbn; auto.
  - unfold play. destruct (_state p); cbn; auto.
  - unfold pause. destruct (_state p); cbn; auto.
  - cbn. apply stored_gain_range.
Qed.

Lemma step_keeps_gain c a :
  F64.le 0 (_volume (player c)) -> F64.le (_volume (player c)) 1 ->
  let c' := step mido_MidiFile c a in
  F64.le 0 (_volume (player c')) /\ F64.le (_volume (player c')) 1.
Proof.
  intros G0 G1. cbv zeta. destruct a as [now|cmd].
  - rewrite FinishFacts.step_tick. cbn [player loop].
    destruct (run_step_keeps now (player c) (loop c)) as (_ & _ & K & _).
    rewrite K. split; assumption.
  - cbn [step].
    pose proof (call_keeps_gain cmd (player c) G0 G1) as [A B].
    destruct (call mido_MidiFile cmd (player c)) as [p out].
    cbn [fst player loop] in *. auto.
Qed.

(** Of all the steps of a schedule only a step of the loop at a NaN
    delay kills the thread. *)
Lemma step_dies c a :
  F64.le 0 (_volume (player c)) -> F64.le (_volume (player c)) 1 ->
  is_Crashed (at_point (loop c)) = false ->
  let c' := step mido_MidiFile c a in
  is_Crashed (at_point (loop c'))
  = match a with
    | Tick now => nan_delay now (player c) (loop c)
    | Call _ => false
    end
  /\ (forall e, at_point (loop c') = Crashed e -> e = ValueError).
Proof.
  intros G0 G1 Hc. cbv zeta. destruct a as [now|cmd].
  - rewrite FinishFacts.step_tick. cbn [player loop].
    destruct (run_step_dies now (player c) (loop c) G0 G1 Hc) as [A B].
    destruct (nan_delay now (player c) (loop c)).
    + rewrite (A eq_refl). cbn [fst snd goto at_point is_Crashed].
      split; [reflexivity|]. intros e [= <-]. reflexivity.
    + specialize (B eq_refl). split; [exact B|].
      intros e He. rewrite He in B. discriminate B.
  - cbn [step]. destruct (call mido_MidiFile cmd (player c)) as [p out].
    cbn [loop]. split; [exact Hc|].
    intros e He. rewrite He in Hc. discriminate Hc.
Qed.

Lemma step_dead c a :
  is_Crashed (at_point (loop c)) = true ->
  loop (step mido_MidiFile c a) = loop c.
Proof.
  intros Hc. destruct a as [now|cmd].
  - rewrite FinishFacts.step_tick, (run_step_dead now _ _ Hc). reflexivity.
  - cbn [step]. destruct (call mido_MidiFile cmd (player c)) as [p out].
    reflexivity.
Qed.

Lemma exec_dead_loop schedule : forall c,
  is_Crashed (at_point (loop c)) = true ->
  loop (exec mido_MidiFile c schedule) = loop c.
Proof.
  induction schedule as [|a s IH]; intros c Hc; [reflexivity|].
  rewrite FinishFacts.exec_cons, IH; rewrite step_dead; auto.
Qed.

Lemma exec_keeps_gain schedule : forall c,
  F64.le 0 (_volume (player c)) -> F64.le (_volume (player c)) 1 ->
  let c' := exec mido_MidiFile c schedule in
  F64.le 0 (_volume (player c')) /\ F64.le (_volume (player c')) 1.
Proof.
  induction schedule as [|a s IH]; intros c G0 G1; [cbn; auto|].
  cbv zeta. rewrite FinishFacts.exec_cons.
  destruct (step_keeps_gain c a G0 G1) as [A B]. apply IH; assumption.
Qed.

(** X6. Whatever the caller and the loop do, in whatever order, the
    gain stays in [0, 1] once it is, so [_apply_volume] never raises in
    the loop. One thing kills the pacing thread: a step at the clock of
    its wait, with no seek pending, when the delay is not a number;
    [time.sleep] then raises [ValueError]. The thread is dead at the end
    of a schedule exactly when the schedule has such a step. *)
Theorem loop_dies_only_in_sleep (c : config) (schedule : list action) :
  F64.le 0 (_volume (player c)) -> F64.le (_volume (player c)) 1 ->
  is_Crashed (at_point (loop c)) = false ->
  let c' := exec mido_MidiFile c schedule in
  F64.le 0 (_volume (player c')) /\ F64.le (_volume (player c')) 1
  /\ (forall e, at_point (loop c') = Crashed e -> e = ValueError)
  /\ (is_Crashed (at_point (loop c')) = true <->
      exists before now after,
        schedule = before ++ Tick now :: after
        /\ nan_delay now (player (exec mido_MidiFile c before))
             (loop (exec mido_MidiFile c before)) = true).
Proof.
  intros G0 G1 Hc. cbv zeta.
  destruct (exec_keeps_gain schedule c G0 G1) as [A B].
  split; [exact A|]. split; [exact B|]. clear A B.
  revert c G0 G1 Hc.
  induction schedule as [|a s IH]; intros c G0 G1 Hc.
  - cbn [exec fold_left]. split.
    + intros e He. rewrite He in Hc. discriminate Hc.
    + rewrite Hc. split; [discriminate|].
      intros (before & now & after & E & _).
      destruct before; discriminate E.
  - rewrite FinishFacts.exec_cons.
    set (c1 := step mido_MidiFile c a).
    destruct (step_keeps_gain c a G0 G1) as [G0' G1']. fold c1 in G0', G1'.
    destruct (step_dies c a G0 G1 Hc) as [D1 D2]. fold c1 in D1, D2.
    destruct (is_Crashed (at_point (loop c1))) eqn:Hc1.
    + rewrite (exec_dead_loop s c1 Hc1). split; [exact D2|].
      rewrite Hc1. split; [intros _|reflexivity].
      destruct a as [now|cmd]; [|discriminate D1].
      exists [], now, s. split; [reflexivity|]. symmetry. exact D1.
    + destruct (IH c1 G0' G1' Hc1) as [I1 I2]. split; [exact I1|].
      rewrite I2. split.
      * intros (before & now & after & E & N).
        exists (a :: before), now, after. split; [rewrite E; reflexivity|].
        rewrite FinishFacts.exec_cons. exact N.
      * intros (before & now & after & E & N).
        destruct before as [|b before]; cbn [app] in E.
        -- injection E as -> ->. cbn [exec fold_left] in N.
           rewrite <- D1 in N. discriminate N.
        -- injection E as -> ->. exists before, now, after.
           split; [reflexivity|]. rewrite FinishFacts.exec_cons in N.
           exact N.
Qed.

Lemma sourced_more ms e : sourced [] e -> sourced ms e.
Proof.
  destruct e; cbn; auto.
  - intros (ev & g & [] & _).
  - intros (ev & [] & _).
Qed.

Lemma call_sourced ms cmd p : Forall (sourced ms) (snd (call mido_MidiFile cmd p)).
Proof.
  destruct cmd; cbn [call snd]; try (repeat constructor; fail).
  - unfold play. destruct (_state p); repeat constructor.
  - unfold pause. destruct (_state p); repeat constructor.
Qed.

(** What a step of the loop sends or reports comes from its snapshot of
    the sequence. *)
Lemma run_step_sourced now p th :
  F64.le 0 (_volume p) -> F64.le (_volume p) 1 ->
  holds_event th ->
  let r := _run_step now p th in
  let th' := snd (fst r) in
  holds_event th'
  /\ at_point th' <> Entry
  /\ Forall (sourced (l_messages th')) (snd r)
  /\ l_messages th' = match at_point th with
                      | Entry => _messages p
                      | _ => l_messages th
                      end.
Proof.
  intros G0 G1 Hh. cbv zeta. unfold holds_event in *. unfold _run_step.
  destruct (at_point th) eqn:E.
  - fields. repeat split; [discriminate|constructor].
  - destruct (l_range th <? length (l_messages th))%nat eqn:R.
    + apply Nat.ltb_lt in R. destruct (_stop_flag p); fields;
        repeat split; try discriminate; try constructor; exact R.
    + fields. repeat split; [discriminate|constructor].
  - destruct (_seek_to p) as [seek|].
    + destruct (length (l_messages (reposition now seek th))
                <=? l_i (reposition now seek th))%nat eqn:R; fields.
      * repeat split; [discriminate|repeat constructor].
      * cbn [reposition l_messages l_i] in R. apply Nat.leb_gt in R.
        repeat split; [|discriminate|repeat constructor].
        apply nth_In. exact R.
    + fields. repeat split; [|discriminate|constructor].
      apply nth_In. exact Hh.
  - destruct (_stop_flag p); fields; repeat split;
      try discriminate; try constructor; exact Hh.
  - destruct (_pause_evt p); fields; rewrite ?E; repeat split;
      try discriminate; try constructor; try exact Hh.
  - destruct (_stop_flag p); fields; repeat split;
      try discriminate; try constructor; exact Hh.
  - destruct (_seek_to p) as [seek|];
      [|destruct (_ <=? _)%float; [|destruct (Py.time_sleep _)]]; fields;
      repeat split; try discriminate; repeat constructor; exact Hh.
  - destruct (_stop_flag p); fields; repeat split;
      try discriminate; try constructor; exact Hh.
  - destruct (_apply_volume (_volume p) (snd (l_msg th))) as [e|data] eqn:V;
      fields; repeat split; try discriminate; try constructor;
      try exact Hh; try constructor.
    cbn [sourced]. exists (l_msg th), (_volume p). auto.
  - fields. repeat split; try discriminate; try constructor; exact Hh.
  - destruct (on_position p); fields; repeat split; try discriminate;
      repeat constructor.
    cbn [sourced]. exists (l_msg th). auto.
  - fields. repeat split; [discriminate|constructor].
  - fields. repeat split; [discriminate|].
    destruct (l_was_playing th && on_finished p); repeat constructor.
  - fields. rewrite E. repeat split; [discriminate|constructor].
  - fields. rewrite E. repeat split; [discriminate|constructor].
Qed.

Lemma step_sourced c a :
  F64.le 0 (_volume (player c)) -> F64.le (_volume (player c)) 1 ->
  holds_event (loop c) ->
  Forall (sourced match at_point (loop c) with
                  | Entry => []
                  | _ => l_messages (loop c)
                  end) (trace c) ->
  let c' := step mido_MidiFile c a in
  holds_event (loop c')
  /\ Forall (sourced match at_point (loop c') with
                     | Entry => []
                     | _ => l_messages (loop c')
                     end) (trace c').
Proof.
  intros G0 G1 Hh Ht. cbv zeta. destruct a as [now|cmd].
  - rewrite FinishFacts.step_tick. cbn [player loop trace].
    destruct (run_step_sourced now (player c) (loop c) G0 G1 Hh)
      as (A & B & C & D).
    split; [exact A|].
    destruct (at_point (snd (fst (_run_step now (player c) (loop c)))))
      eqn:E; try congruence; clear E.
    all: apply Forall_app; split; [|exact C].
    all: rewrite D; destruct (at_point (loop c)); try exact Ht.
    all: eapply Forall_impl; [|exact Ht]; intros x; apply sourced_more.
  - cbn [step].
    pose proof (call_sourced match at_point (loop c) with
                             | Entry => []
                             | _ => l_messages (loop c)
                             end cmd (player c)) as S.
    destruct (call mido_MidiFile cmd (player c)) as [p out].
    cbn [loop trace snd] in *. split; [exact Hh|].
    apply Forall_app. split; assumption.
Qed.

Lemma exec_sourced schedule : forall c,
  F64.le 0 (_volume (player c)) -> F64.le (_volume (player c)) 1 ->
  holds_event (loop c) ->
  Forall (sourced match at_point (loop c) with
                  | Entry => []
                  | _ => l_messages (loop c)
                  end) (trace c) ->
  let c' := exec mido_MidiFile c schedule in
  Forall (sourced match at_point (loop c') with
                  | Entry => []
                  | _ => l_messages (loop c')
                  end) (trace c').
Proof.
  induction schedule as [|a s IH]; intros c G0 G1 Hh Ht; [exact Ht|].
  cbv zeta. rewrite FinishFacts.exec_cons.
  destruct (step_keeps_gain c a G0 G1) as [A B].
  destruct (step_sourced c a G0 G1 Hh Ht) as [D E].
  apply IH; assumption.
Qed.

Lemma call_keeps_messages cmd p :
  is_CLoad (Call cmd) = false ->
  _messages (fst (call mido_MidiFile cmd p)) = _messages p.
Proof.
  destruct cmd; cbn [is_CLoad call]; try discriminate; intros _;
    try reflexivity.
  - unfold play. destruct (_state p); reflexivity.
  - unfold pause. destruct (_state p); reflexivity.
Qed.

Lemma exec_snapshot schedule : forall c ms,
  forallb (fun a => negb (is_CLoad a)) schedule = true ->
  _messages (player c) = ms ->
  l_messages (loop c) = [] \/ l_messages (loop c) = ms ->
  let c' := exec mido_MidiFile c schedule in
  l_messages (loop c') = [] \/ l_messages (loop c') = ms.
Proof.
  induction schedule as [|a s IH]; intros c ms Hs Hm Hl; [exact Hl|].
  cbn [forallb] in Hs. apply andb_prop in Hs as [Ha Hs].
  cbv zeta. rewrite FinishFacts.exec_cons. apply IH; [exact Hs| |].
  - destruct a as [now|cmd].
    + rewrite FinishFacts.step_tick. cbn [player].
      destruct (run_step_keeps now (player c) (loop c))
        as (_ & _ & _ & K & _). rewrite K. exact Hm.
    + cbn [step].
      pose proof (call_keeps_messages cmd (player c)) as K.
      destruct (call mido_MidiFile cmd (player c)) as [p out].
      cbn [fst player] in *. rewrite K; [exact Hm|].
      destruct (is_CLoad (Call cmd)); [discriminate|reflexivity].
  - destruct a as [now|cmd].
    + rewrite FinishFacts.step_tick. cbn [loop].
      unfold _run_step. destruct (at_point (loop c)); split_step; fields;
        auto.
    + cbn [step]. destruct (call mido_MidiFile cmd (player c)) as [p out].
      exact Hl.
Qed.

(** X7. A pacing loop sends nothing but events of the sequence it
    copied when it started, each through the volume transform at a gain
    in [0, 1], and reports no position but the time of such an event;
    when no [load] intervenes that sequence is the one of the player. *)
Theorem loop_sends_only_the_sequence (p : MIDIPlayer) (schedule : list action) :
  F64.le 0 (_volume p) -> F64.le (_volume p) 1 ->
  let c := exec mido_MidiFile (spawned p) schedule in
  Forall (sourced (l_messages (loop c))) (trace c)
  /\ (forallb (fun a => negb (is_CLoad a)) schedule = true ->
      l_messages (loop c) = [] \/ l_messages (loop c) = _messages p).
Proof.
  intros G0 G1 c. split.
  - pose proof (exec_sourced schedule (spawned p) G0 G1 I
                  (Forall_nil _)) as H.
    fold c in H. cbv zeta in H.
    destruct (at_point (loop c)); try exact H.
    eapply Forall_impl; [|exact H]. intros e. apply sourced_more.
  - intros Hs. apply (exec_snapshot schedule (spawned p) (_messages p) Hs);
      [reflexivity|left; reflexivity].
Qed.

(** X8. [_find_index] is monotone in the target: a later position never
    resolves to an earlier index, whatever the order of the event
    times. *)
Lemma find_index_mono (messages : list timed_event) (pos1 pos2 : float) :
  F64.le pos1 pos2 ->
  (_find_index messages pos1 <= _find_index messages pos2)%nat.
Proof.
  intros H. induction messages as [|[t raw] rest IH]; cbn [_find_index];
    [lia|].
  destruct (pos1 <=? t)%float eqn:A; [lia|].
  destruct (pos2 <=? t)%float eqn:B; [|lia].
  assert (C : F64.le pos1 t) by (eapply F64Facts.le_trans; eauto).
  unfold F64.le in C. congruence.
Qed.

Ltac norm :=
  cbn [step call play pause _run_step player loop trace at_point l_messages
       l_pos l_t0 l_range l_i l_msg l_was_playing goto fetch reposition
       _state _stop_flag _pause_evt _mid _messages _duration _pos _seek_to
       _volume on_position on_finished with_pos with_state with_seek_to
       with_pause_evt with_stop_flag fst snd app].

(** The records written out field by field, so that the steps taken so
    far do not pile up inside them. *)
Ltac flat :=
  cbv beta iota delta
    [goto fetch reposition with_pos with_state with_seek_to with_pause_evt
     with_stop_flag at_point l_messages l_pos l_t0 l_range l_i l_msg
     l_was_playing _state _stop_flag _pause_evt _mid _messages _duration
     _pos _seek_to _volume on_position on_finished].

Ltac tick1 := rewrite FinishFacts.exec_cons; norm; flat.

(** X5. A pause does not stop the loop's clock: the anchor [t0] taken
    before the pause is the one used after it. When [play] resumes a
    paused loop at a clock reading by which every event is due against
    that anchor, all the remaining events are sent at that one reading,
    without any wait, and the track ends as finished, with
    [on_finished] when it is set. *)
Theorem resume_catches_up (p : MIDIPlayer) (now0 : float)
    (paused : list float) (now1 : float) :
  _state p = PLAYING -> _stop_flag p = false -> _pause_evt p = true ->
  _seek_to p = None ->
  F64.le 0 (_volume p) -> F64.le (_volume p) 1 ->
  (3 <= length paused)%nat ->
  let rest := skipn (_find_index (_messages p) (_pos p)) (_messages p) in
  rest <> [] ->
  (forall e, In e (_messages p) -> due now1 (now0 - _pos p)%float e) ->
  let c := exec mido_MidiFile (spawned p)
             (Tick now0 :: Call CPause :: map Tick paused
              ++ Call CPlay :: ticks (10 * length rest) now1) in
  at_point (loop c) = Done
  /\ trace c
     = AllSoundOff :: flat_map (played p) rest
       ++ AllSoundOff :: (if on_finished p then [OnFinished] else []).
Proof.
  intros Hst Hsf Hpe Hsk G0 G1 Hn rest Hr Hd c.
  destruct p as [st sf pe mid pm dur pos sk vol onp onf].
  cbn [_state _stop_flag _pause_evt _seek_to _volume _messages _pos
       on_finished] in *.
  subst st sf pe sk.
  remember (_find_index pm pos) as idx eqn:Eidx.
  assert (Hidx : (idx < length pm)%nat).
  { destruct (Nat.lt_ge_cases idx (length pm)) as [L|L]; [exact L|].
    exfalso. apply Hr. unfold rest. apply skipn_all2. exact L. }
  assert (Hk : (idx <? length pm)%nat = true) by (apply Nat.ltb_lt; exact Hidx).
  destruct paused as [|n1 [|n2 [|n3 tail]]]; cbn [length] in Hn; try lia.
  subst c. unfold spawned, thread_init.
  tick1. rewrite <- Eidx. tick1. cbn [map app].
  tick1. rewrite Hk. norm. flat. tick1. tick1.
  rewrite FinishFacts.exec_app.
  match goal with
  | |- context [exec mido_MidiFile ?c0 (map Tick tail)] =>
      destruct (exec_paused tail c0 eq_refl) as [_ B];
      rewrite (B eq_refl); clear B
  end.
  tick1.
  assert (Hlen : length rest = S (length pm - S idx)).
  { unfold rest. rewrite length_skipn. lia. }
  rewrite Hlen.
  replace (10 * S (length pm - S idx))%nat
    with (7 + (10 * (length pm - S idx) + 3))%nat by lia.
  rewrite FinishFacts.ticks_add, FinishFacts.exec_app.
  assert (Hdue : due now1 (now0 - pos)%float (nth idx pm no_event)).
  { apply Hd, nth_In, Hidx. }
  destruct (VolumeFacts.apply_volume_total vol (snd (nth idx pm no_event))
              G0 G1) as [data Hv].
  change (ticks 7 now1) with (map Tick (repeat now1 7)). cbn [repeat map].
  tick1. tick1. tick1. unfold due in Hdue. rewrite Hdue. norm. flat.
  tick1. tick1. rewrite Hv. norm. flat.
  tick1. tick1. rewrite exec_nil.
  match goal with
  | |- context [exec mido_MidiFile
                  {| player := _; loop := _; trace := ?tr |} _] =>
      destruct (FinishFacts.run_rest mido_MidiFile PLAYING mid pm dur vol onp
                  onf pm pos (now0 - pos)%float now1 Hd
                  (fun raw => VolumeFacts.apply_volume_total vol raw G0 G1)
                  (length pm - S idx) (S idx) (fst (nth idx pm no_event))
                  idx (nth idx pm no_event) false tr eq_refl)
        as (A & B & _)
  end.
  split; [exact A|]. etransitivity; [exact B|]. unfold rest.
  rewrite (FinishFacts.skipn_nth pm idx Hidx). cbn [flat_map].
  unfold played. cbn [_volume on_position _duration snd fst].
  unfold volume_bytes at 2. rewrite Hv.
  cbn [PlayerState_eqb andb app]. rewrite <- !app_assoc.
  cbn [app]. reflexivity.
Qed.

Lemma finishing_step n c now :
  still_to_finish n c ->
  F64.le 0 (_volume (player c)) -> F64.le (_volume (player c)) 1 ->
  nan_delay now (player c) (loop c) = false ->
  still_to_finish n (step mido_MidiFile c (Tick now)).
Proof.
  unfold still_to_finish. intros [Hf H] G0 G1 Hn.
  assert (Hc : is_Crashed (at_point (loop c)) = false).
  { destruct (at_point (loop c)); try reflexivity. contradiction. }
  destruct (run_step_dies now (player c) (loop c) G0 G1 Hc) as [_ Hlive].
  specialize (Hlive Hn). revert Hlive.
  rewrite FinishFacts.step_tick. cbn [player loop trace].
  destruct (run_step_keeps now (player c) (loop c))
    as (_ & _ & _ & _ & _ & K & _).
  intros Hlive. split; [rewrite K; exact Hf|]. revert Hlive.
  unfold _run_step.
  destruct (at_point (loop c)) eqn:E; try contradiction.
  all: try match type of H with _ /\ _ => destruct H as [H1 H2] end.
  all: try (destruct (VolumeFacts.apply_volume_total (_volume (player c))
                        (snd (l_msg (loop c))) G0 G1) as [data Hd];
            rewrite Hd).
  all: split_step; fields; rewrite ?E, ?FinishFacts.finished_count_app;
    cbn [finished_count filter is_OnFinished length is_Crashed];
    rewrite ?Nat.add_0_r, ?H1; intros Hlive; try discriminate Hlive.
  all: try (split; [assumption|exact H2]).
  all: try (split; [reflexivity|exact H2]).
  all: try (cbn [andb] in *; cbn [finished_count filter is_OnFinished length];
            first [lia | congruence]).
  match goal with
  | B : _ && _ = false |- _ => rewrite H1, Hf in B; discriminate B
  end.
Qed.

Lemma exec_finishing n nows : forall c,
  still_to_finish n c ->
  _stop_flag (player c) = true -> _pause_evt (player c) = true ->
  F64.le 0 (_volume (player c)) -> F64.le (_volume (player c)) 1 ->
  nan_delay (hd 0%float nows) (player c) (loop c) = false ->
  still_to_finish n (exec mido_MidiFile c (map Tick nows)).
Proof.
  induction nows as [|now nows IH]; intros c H Hs Hp G0 G1 Hn; [exact H|].
  rewrite exec_ticks_cons. cbn [hd] in Hn.
  destruct (run_step_keeps now (player c) (loop c)) as (K1 & K2 & K3 & _).
  destruct (stopping_step now (player c) (loop c) Hs Hp G0 G1 Hn)
    as (_ & _ & S & _).
  apply IH.
  - apply finishing_step; assumption.
  - rewrite FinishFacts.step_tick. cbn [player]. rewrite K1. exact Hs.
  - rewrite FinishFacts.step_tick. cbn [player]. rewrite K2. exact Hp.
  - rewrite FinishFacts.step_tick. cbn [player]. rewrite K3. exact G0.
  - rewrite FinishFacts.step_tick. cbn [player]. rewrite K3. exact G1.
  - rewrite FinishFacts.step_tick. unfold nan_delay. cbn [loop].
    destruct (at_point (snd (fst (_run_step now (player c) (loop c)))));
      try reflexivity. congruence.
Qed.

(** X2. [stop] sets its two signals before it takes the lock. When the
    loop runs to its end between the two halves, it reads the state as
    [PLAYING] in its last block and invokes [on_finished] although
    [stop] was called. (The loop does run to its end unless its next
    step is the sleep on a delay that is not a number.) *)
Theorem stop_can_lose_the_race (c : config) (nows : list float) :
  _state (player c) = PLAYING -> on_finished (player c) = true ->
  before_final (at_point (loop c)) = true ->
  is_Crashed (at_point (loop c)) = false ->
  F64.le 0 (_volume (player c)) -> F64.le (_volume (player c)) 1 ->
  nan_delay (hd 0%float nows) (player c) (loop c) = false ->
  (6 <= length nows)%nat ->
  let c' := exec mido_MidiFile c
              (Call CSkip :: map Tick nows ++ [Call CStopLocked]) in
  at_point (loop c') = Done
  /\ _state (player c') = STOPPED
  /\ finished_count (trace c') = S (finished_count (trace c)).
Proof.
  intros Hs Hf Hb Hc G0 G1 Hnan Hn c'. subst c'.
  rewrite FinishFacts.exec_cons, FinishFacts.exec_app.
  set (c1 := step mido_MidiFile c (Call CSkip)).
  assert (K : player c1 = with_pause_evt true (with_stop_flag true (player c))
              /\ loop c1 = loop c /\ trace c1 = trace c ++ []).
  { unfold c1. cbn. auto. }
  destruct K as (K1 & K2 & K3).
  assert (G0' : F64.le 0 (_volume (player c1))) by (rewrite K1; exact G0).
  assert (G1' : F64.le (_volume (player c1)) 1) by (rewrite K1; exact G1).
  assert (I1 : still_to_finish (finished_count (trace c)) c1).
  { unfold still_to_finish. rewrite K1, K2, K3, app_nil_r.
    cbn [on_finished _state with_pause_evt with_stop_flag].
    split; [exact Hf|].
    destruct (at_point (loop c)); try discriminate Hb; try discriminate Hc;
      auto. }
  assert (F1 : _stop_flag (player c1) = true) by (rewrite K1; reflexivity).
  assert (F2 : _pause_evt (player c1) = true) by (rewrite K1; reflexivity).
  assert (Hnan' : nan_delay (hd 0%float nows) (player c1) (loop c1) = false).
  { unfold nan_delay in *. rewrite K1, K2. exact Hnan. }
  pose proof (exec_finishing _ nows c1 I1 F1 F2 G0' G1' Hnan') as I2.
  assert (Hc' : is_Crashed (at_point (loop c1)) = false)
    by (rewrite K2; exact Hc).
  assert (Hd' : match at_point (loop c1) with
                | Final | Done => _state (player c1) = STOPPED
                                  /\ _pos (player c1) = 0%float
                | _ => True
                end).
  { rewrite K2. destruct (at_point (loop c)); try exact I; discriminate Hb. }
  destruct (exec_stopping nows c1 F1 F2 G0' G1' Hc' Hnan' Hd')
    as (A & B & _ & _).
  set (c2 := exec mido_MidiFile c1 (map Tick nows)) in *.
  assert (Z0 : steps_to_done (at_point (loop c2)) = 0%nat).
  { assert (steps_to_done (at_point (loop c1)) <= 6)%nat
      by (destruct (at_point (loop c1)); cbn; lia).
    lia. }
  unfold still_to_finish in I2. destruct I2 as [_ I2].
  destruct (at_point (loop c2)) eqn:E; try discriminate Z0; try contradiction.
  cbn [exec fold_left step call stop_locked player loop trace].
  rewrite E, FinishFacts.finished_count_app.
  cbn [finished_count filter is_OnFinished length _state with_pos with_state].
  repeat split. lia.
Qed.

(** X3. [stop] followed at once by [play] leaves the running pacing
    thread running: the stop signal it would have seen is cleared again,
    the player differs from the one before only in its position, and a
    second thread is started beside the first. *)
Theorem stop_then_play_keeps_the_thread (c : config) :
  _state (player c) = PLAYING -> _stop_flag (player c) = false ->
  _pause_evt (player c) = true ->
  exec mido_MidiFile c [Call CStop; Call CPlay]
  = {| player := with_pos 0%float (player c); loop := loop c;
       trace := trace c ++ [AllSoundOff; StartThread] |}.
Proof.
  intros Hs Hf Hp. destruct c as [p th tr].
  destruct p as [st sf pe mid pm dur pos sk vol onp onf].
  cbn [player _state _stop_flag _pause_evt] in *. subst st sf pe.
  cbn. rewrite <- app_assoc. reflexivity.
Qed.

End WithFiles.
End RunFacts.

(** * The volume transform never amplifies *)

Module GainFacts.

Import F64 F64Facts Round RoundFacts PyFacts VolumeFacts.

Lemma rne_one N : rne N 1 = N.
Proof.
  unfold rne. rewrite Z.div_1_r, Z.mod_1_r. reflexivity.
Qed.

(** A float of the format rounds to itself. *)
Lemma round_at_exact mx ex :
  canonical mx ex -> round_at (Z.pos mx) 1 ex = (Z.pos mx, ex).
Proof.
  unfold canonical, round_at. intros C. cbv zeta.
  rewrite Z.div_1_r, C, Z.max_id, Z.sub_diag, Z.mul_1_l.
  change (2 ^ 0) with 1. rewrite rne_one, C, Z.max_id, Z.sub_diag.
  change (2 ^ 0) with 1. rewrite Z.div_1_r. reflexivity.
Qed.

(** [float(z)] is exact for an [int] of at most 53 bits. *)
Lemma float_of_int_exact z :
  0 < z < 2 ^ 53 ->
  exists x mx ex,
    Py.float_of_int z = inr x
    /\ Prim2SF x = S754_finite false mx ex
    /\ canonical mx ex /\ ex <= 0 /\ Z.pos mx = z * 2 ^ (- ex).
Proof.
  intros Hz. unfold Py.float_of_int, raise, ret.
  destruct z as [|p|p]; try lia. cbn [binary_normalize].
  destruct (binary_round_spec false p 0) as [R F]. cbv zeta in R, F.
  assert (Dp : 0 < Zdigits2 (Z.pos p) <= 53).
  { split; [apply Zdigits2_pos; lia|apply Zdigits2_le_pow; lia]. }
  set (e' := Z.min 0 (fexp64 (Zdigits2 (Z.pos p) + 0))) in *.
  assert (He : e' = fexp64 (Zdigits2 (Z.pos p)) /\ e' <= 0 /\ -1074 <= e').
  { unfold e', fexp64. rewrite Z.add_0_r. lia. }
  destruct He as (He1 & He2 & He3).
  assert (P : 0 < 2 ^ (0 - e')) by (apply pow2_pos; lia).
  assert (HN : 0 < Z.pos p * 2 ^ (0 - e')) by lia.
  destruct (Z.pos p * 2 ^ (0 - e')) as [|m|m] eqn:EN; try lia.
  assert (C : canonical m e').
  { unfold canonical. rewrite <- EN, Zdigits2_mul_pow by lia.
    replace (Zdigits2 (Z.pos p) + (0 - e') + e') with (Zdigits2 (Z.pos p))
      by lia.
    symmetry. exact He1. }
  assert (HN' : 0 <= Z.pos m) by lia.
  pose proof (build_finite_nonneg _ 1 e' _ HN' Z.lt_0_1 F (eq_sym R)) as B.
  rewrite (round_at_exact m e' C) in R.
  unfold build in R. cbn [fst snd] in R.
  destruct (e' <=? 971) eqn:L; [|apply Z.leb_gt in L; lia].
  rewrite R in *. destruct B as [B _].
  exists (SF2Prim (S754_finite false m e')), m, e'.
  split; [reflexivity|]. split; [exact B|].
  split; [exact C|]. split; [exact He2|].
  rewrite <- EN. replace (0 - e') with (- e') by lia. reflexivity.
Qed.

(** The integer part of a float from its mantissa at a lower exponent. *)
Lemma trunc_value (m : positive) (e a : Z) :
  a <= e -> a <= 0 ->
  match e with
  | Zneg p => Z.pos m / 2 ^ Z.pos p
  | _ => Z.pos m * 2 ^ e
  end = (Z.pos m * 2 ^ (e - a)) / 2 ^ (- a).
Proof.
  intros H1 H2.
  assert (Pa : 0 < 2 ^ (- a)) by (apply pow2_pos; lia).
  destruct e as [|p|p].
  - rewrite Z.sub_0_l, Z.div_mul by lia. change (2 ^ 0) with 1. lia.
  - replace (Z.pos p - a) with (Z.pos p + - a) by lia.
    rewrite Z.pow_add_r, Z.mul_assoc, Z.div_mul by lia. reflexivity.
  - assert (Pp : 0 < 2 ^ (Z.neg p - a)) by (apply pow2_pos; lia).
    replace (- a) with (Z.pos p + (Z.neg p - a)) by lia.
    rewrite Z.pow_add_r by lia.
    rewrite Z.div_mul_cancel_r by lia. reflexivity.
Qed.

(** A gain of at most 1, in integers. *)
Lemma gain_le_one g mg eg :
  Prim2SF g = S754_finite false mg eg -> le g 1 ->
  canonical mg eg /\ eg <= 0 /\ Z.pos mg <= 2 ^ (- eg).
Proof.
  intros E H1.
  pose proof (Prim2SF_valid g) as V. rewrite E in V.
  destruct (valid_canonical _ _ _ V) as [C _].
  pose proof (Prim2SF_valid 1) as V1. rewrite Prim2SF_one in V1.
  destruct (valid_canonical _ _ _ V1) as [C1 _].
  unfold le in H1. rewrite leb_spec, E, Prim2SF_one in H1.
  unfold SFleb in H1. rewrite SFcompare_pos in H1.
  assert (Hc : cmp_pos mg eg 4503599627370496 (-52) <> Gt).
  { destruct (cmp_pos mg eg 4503599627370496 (-52)); congruence. }
  assert (He : eg <= -52).
  { unfold cmp_pos in Hc. destruct (Z.compare_spec eg (-52)); try lia.
    congruence. }
  pose proof (cmp_pos_value mg eg 4503599627370496 (-52) eg C C1 Hc
                (Z.le_refl _) He) as Hv.
  rewrite Z.sub_diag in Hv. change (2 ^ 0) with 1 in Hv.
  split; [exact C|]. split; [lia|].
  rewrite Z.mul_1_r in Hv.
  replace (- eg) with (52 + (-52 - eg)) by lia.
  rewrite Z.pow_add_r by lia. exact Hv.
Qed.

(** The product of a small [int] and a gain in [0, 1], truncated, is at
    most the [int]. *)
Lemma scaled_le g z x scaled :
  le 0 g -> le g 1 -> 0 <= z < 2 ^ 53 ->
  Py.float_of_int z = inr x ->
  Py.int_of_float (x * g) = inr scaled ->
  0 <= scaled <= z.
Proof.
  intros H0 H1 Hz Ex Es.
  destruct (Z.eq_dec z 0) as [->|Hnz].
  { cbn in Ex. apply inr_inj in Ex. subst x.
    unfold Py.int_of_float in Es. rewrite mul_spec in Es.
    destruct (gain_small g H0 H1) as [Fg _].
    change (Prim2SF (SF2Prim (S754_zero false))) with (S754_zero false) in Es.
    destruct (Prim2SF g) as [s|s| |s m e]; cbn in Fg; try contradiction;
      cbn in Es; apply inr_inj in Es; lia. }
  destruct (float_of_int_exact z) as (x' & mx & ex & Ex' & Px & Cx & Hex & Hmx);
    [lia|].
  rewrite Ex in Ex'. apply inr_inj in Ex'. subst x'.
  unfold Py.int_of_float in Es. pose proof (Prim2SF_valid (x * g)) as Vp.
  rewrite mul_spec, Px in Es, Vp.
  destruct (gain_small g H0 H1) as [Fg _].
  destruct (Prim2SF g) as [s|s| |s mg eg] eqn:Eg; cbn in Fg;
    try contradiction.
  { cbn in Es. apply inr_inj in Es. lia. }
  subst s. destruct (gain_le_one g mg eg Eg H1) as (Cg & Heg & Hmg).
  rewrite SFmul_finite_spec in Es, Vp. cbn [xorb] in Es, Vp.
  assert (HN : 0 <= Z.pos mx * Z.pos mg <= Z.pos mx * 2 ^ (- eg)).
  { split; [lia|]. apply Z.mul_le_mono_nonneg_l; lia. }
  pose proof (round_at_mono _ _ 1 (ex + eg) HN Z.lt_0_1) as M.
  assert (Fx : fine (Z.pos mx) 1 ex).
  { unfold fine. rewrite Z.div_1_r. unfold canonical in Cx. lia. }
  replace (ex + eg) with (ex - (- eg)) in M at 2 by lia.
  rewrite (round_at_scale (Z.pos mx) 1 ex (- eg) ltac:(lia) Z.lt_0_1
             ltac:(lia) Fx) in M.
  rewrite (round_at_exact mx ex Cx) in M.
  pose proof (round_at_fst_nonneg (Z.pos mx * Z.pos mg) 1 (ex + eg)
                ltac:(lia) Z.lt_0_1) as Hf.
  destruct (build_cases _ Hf) as [E|[(m & Em & El & E)|[_ E]]];
    rewrite E in *.
  - apply inr_inj in Es. lia.
  - set (e3 := snd (round_at (Z.pos mx * Z.pos mg) 1 (ex + eg))) in *.
    destruct (valid_canonical _ _ _ Vp) as [Cm _].
    unfold build in M. cbn [fst snd] in M.
    destruct (ex <=? 971) eqn:L; [|apply Z.leb_gt in L; lia].
    unfold SFleb in M. rewrite SFcompare_pos in M.
    assert (Hc : cmp_pos m e3 mx ex <> Gt).
    { destruct (cmp_pos m e3 mx ex); congruence. }
    set (a := Z.min e3 ex).
    pose proof (cmp_pos_value m e3 mx ex a Cm Cx Hc ltac:(lia) ltac:(lia))
      as Hv.
    cbv zeta in Es. apply inr_inj in Es.
    rewrite (trunc_value m e3 a) in Es by lia.
    assert (Pa : 0 < 2 ^ (- a)) by (apply pow2_pos; lia).
    assert (Xa : Z.pos mx * 2 ^ (ex - a) = z * 2 ^ (- a)).
    { rewrite Hmx. rewrite <- Z.mul_assoc, <- Z.pow_add_r by lia.
      f_equal. f_equal. lia. }
    rewrite Xa in Hv. subst scaled. split.
    + apply Z.div_pos; [|lia].
      apply Z.mul_nonneg_nonneg; [lia|]. apply Z.pow_nonneg. lia.
    + apply Z.div_le_upper_bound; [lia|]. lia.
  - unfold build in M. cbn [fst snd] in M.
    destruct (ex <=? 971) eqn:L; [|apply Z.leb_gt in L; lia].
    unfold SFleb, SFcompare in M. discriminate M.
Qed.

(** At gain 1.0 the product is the [int] itself. *)
Lemma scaled_full z x :
  0 <= z < 2 ^ 53 ->
  Py.float_of_int z = inr x ->
  Py.int_of_float (x * 1) = inr z.
Proof.
  intros Hz Ex.
  destruct (Z.eq_dec z 0) as [->|Hnz].
  { cbn in Ex. apply inr_inj in Ex. subst x. reflexivity. }
  destruct (float_of_int_exact z) as (x' & mx & ex & Ex' & Px & Cx & Hex & Hmx);
    [lia|].
  rewrite Ex in Ex'. apply inr_inj in Ex'. subst x'.
  unfold Py.int_of_float. rewrite mul_spec, Px, Prim2SF_one.
  rewrite SFmul_finite_spec. cbn [xorb].
  assert (Fx : fine (Z.pos mx) 1 ex).
  { unfold fine. rewrite Z.div_1_r. unfold canonical in Cx. lia. }
  change (Z.pos 4503599627370496) with (2 ^ 52).
  replace (ex + -52) with (ex - 52) by lia.
  rewrite (round_at_scale (Z.pos mx) 1 ex 52 ltac:(lia) Z.lt_0_1
             ltac:(lia) Fx).
  rewrite (round_at_exact mx ex Cx).
  unfold build. cbn [fst snd].
  destruct (ex <=? 971) eqn:L; [|apply Z.leb_gt in L; lia].
  cbv zeta. unfold ret. f_equal.
  rewrite (trunc_value mx ex ex) by lia.
  rewrite Z.sub_diag. change (2 ^ 0) with 1. rewrite Z.mul_1_r, Hmx.
  apply Z.div_mul. pose proof (pow2_pos (- ex)). lia.
Qed.

(** At gain 0.0 the product is zero. *)
Lemma scaled_mute z x :
  0 <= z < 2 ^ 52 ->
  Py.float_of_int z = inr x ->
  Py.int_of_float (x * 0) = inr 0.
Proof.
  intros Hz Ex.
  destruct (float_of_int_small z Hz) as (x' & Ex' & Fx & _).
  rewrite Ex in Ex'. apply inr_inj in Ex'. subst x'.
  unfold Py.int_of_float. rewrite mul_spec.
  change (Prim2SF 0) with (S754_zero false).
  destruct (Prim2SF x) as [s|s| |s m e]; cbn in Fx; try contradiction;
    reflexivity.
Qed.

(** X9. At a gain in [0, 1] a channel-volume message comes out with a
    value that is at most the value it had and at most 127; at gain 1.0
    the value is kept (up to the limit of 127), at gain 0.0 it is 0.
    Status and controller bytes are kept and bytes after the third are
    dropped. *)
Theorem volume_never_amplifies (gain : float) (b0 b1 b2 : byte)
    (rest : list byte) :
  le 0 gain -> le gain 1 ->
  is_volume_message (b0 :: b1 :: b2 :: rest) = true ->
  exists v,
    _apply_volume gain (b0 :: b1 :: b2 :: rest) = inr [b0; b1; v]
    /\ byte_int v <= byte_int b2
    /\ byte_int v <= 127
    /\ (gain = 1%float -> byte_int v = Z.min 127 (byte_int b2))
    /\ (gain = 0%float -> byte_int v = 0).
Proof.
  intros H0 H1 Hv. unfold is_volume_message in Hv.
  unfold _apply_volume. rewrite Hv.
  pose proof (byte_int_range b2) as Hb.
  destruct (scaled_total gain b2 H0 H1) as (x & scaled & Ex & Es & Hs).
  destruct (scaled_le gain (byte_int b2) x scaled H0 H1 ltac:(lia) Ex Es)
    as [_ Hle].
  destruct (byte_of_int (Z.max 0 (Z.min 127 scaled))) as (v & Ev & Hv');
    [lia|].
  exists v. split; [|split; [|split; [|split]]].
  - unfold Py.int_mul_float, bind, ret. rewrite Ex, Es.
    cbn [bytes_of_ints]. unfold bind, ret.
    rewrite !byte_of_byte_int, Ev. reflexivity.
  - lia.
  - lia.
  - intros ->.
    rewrite (scaled_full (byte_int b2) x ltac:(lia) Ex) in Es.
    apply inr_inj in Es. lia.
  - intros ->.
    rewrite (scaled_mute (byte_int b2) x ltac:(lia) Ex) in Es.
    apply inr_inj in Es. lia.
Qed.

End GainFacts.

(** * What [load] establishes *)

Module LoadFacts.

Import F64 F64Facts PyFacts.

Lemma insert_tick_not_nil x l : insert_tick x l <> [].
Proof. destruct l as [|y l]; cbn; [discriminate|]. destruct (_ <=? _); discriminate. Qed.

Lemma sort_ticks_not_nil l : l <> [] -> sort_ticks l <> [].
Proof. destruct l; [congruence|]. intros _. cbn. apply insert_tick_not_nil. Qed.

Lemma merge_tracks_nil tracks :
  Forall (fun t => t = []) tracks -> merge_tracks tracks = [].
Proof.
  unfold merge_tracks. induction 1 as [|t ts Ht _ IH]; [reflexivity|].
  subst t. cbn. exact IH.
Qed.

Lemma merge_tracks_not_nil tracks :
  Exists (fun t => t <> []) tracks -> merge_tracks tracks <> [].
Proof.
  unfold merge_tracks. induction 1 as [t ts Ht|t ts _ IH]; cbn.
  - destruct t as [|m t]; [congruence|]. discriminate.
  - intros H. apply app_eq_nil in H. tauto.
Qed.

(** X11. A file whose tracks are all empty flattens to the empty
    sequence whatever its ticks per beat. With zero ticks per beat
    [_flatten] raises [ZeroDivisionError] as soon as any track has a
    message, a meta message included. *)
Theorem flatten_zero_ticks_per_beat (mid : MidiFile) :
  (Forall (fun t => t = []) (tracks mid) -> _flatten mid = inr [])
  /\ (ticks_per_beat mid = 0 -> Exists (fun t => t <> []) (tracks mid) ->
      _flatten mid = inl ZeroDivisionError).
Proof.
  unfold _flatten. split.
  - intros H. rewrite (merge_tracks_nil _ H). reflexivity.
  - intros Hz H. apply merge_tracks_not_nil, sort_ticks_not_nil in H.
    destruct (sort_ticks (merge_tracks (tracks mid))) as [|[T m] rest];
      [congruence|].
    rewrite Hz. reflexivity.
Qed.

(** The times [_flatten] returns are in order and none is negative. *)
Lemma flatten_times mid out :
  0 < ticks_per_beat mid ->
  Forall (Forall (fun m => 0 <= time m)) (tracks mid) ->
  _flatten mid = inr out ->
  nondecreasing (map fst out) /\ Forall (le 0) (map fst out).
Proof.
  intros Htpb Hd H. unfold _flatten, bind in H.
  set (merged := merge_tracks (tracks mid)) in *.
  destruct (convert (ticks_per_beat mid) walk_init (sort_ticks merged))
    as [e|w] eqn:E; [discriminate|].
  apply inr_inj in H. subst out.
  assert (Hl : Forall (fun x => last_tick walk_init <= fst x)
                      (sort_ticks merged)).
  { eapply Permutation_Forall; [symmetry; apply SortFacts.sort_ticks_perm|].
    apply SortFacts.merge_tracks_nonneg. exact Hd. }
  destruct (OrderFacts.convert_ok _ _ walk_init w Htpb OrderFacts.walk_init_ok
              (SortFacts.sort_ticks_sorted merged) Hl E)
    as [(_ & _ & Hs & Hf) _].
  split; [exact Hs|]. eapply Forall_impl; [|exact Hf]. cbv beta. tauto.
Qed.

(** In a sequence in order the last time is the largest. *)
Lemma last_is_largest (ts : list float) (d : float) :
  nondecreasing ts -> Forall (le 0) ts ->
  Forall (fun t => le t (last ts d)) ts.
Proof.
  unfold nondecreasing. induction 1 as [|t ts Hs IH Hf]; intros H0;
    [constructor|].
  inversion H0 as [|? ? Ht H0']; subst.
  destruct ts as [|t' ts'].
  - cbn. constructor; [|constructor]. apply le_refl.
    eapply le_not_nan_r. exact Ht.
  - change (last (t :: t' :: ts') d) with (last (t' :: ts') d).
    constructor; [|apply IH; exact H0'].
    rewrite Forall_forall in Hf. apply Hf.
    destruct (@exists_last _ (t' :: ts') ltac:(discriminate)) as (l' & a & E).
    rewrite E, last_last. apply in_or_app. right. left. reflexivity.
Qed.

(** From position 0 the search stops at the first event. *)
Lemma find_index_start (messages : list timed_event) :
  Forall (le 0) (map fst messages) -> _find_index messages 0 = 0%nat.
Proof.
  destruct messages as [|[t raw] rest]; [reflexivity|].
  intros H. inversion H as [|? ? Ht _]; subst. cbn [_find_index].
  unfold le in Ht. cbn [fst] in Ht. rewrite Ht. reflexivity.
Qed.

Section Load.

Variable mido_MidiFile : list byte -> result MidiFile.

(** X10. After a [load] that succeeds on a file with positive ticks per
    beat and no negative delta, the duration is not negative, the event
    times are in non-decreasing order and lie between 0 and the
    duration, and the search from the new position 0 resolves the first
    event: what [seek] and the pacing loop rely on. *)
Theorem load_establishes_invariants (path : list byte) (p : MIDIPlayer)
    (mid : MidiFile) (d : float) :
  mido_MidiFile path = inr mid ->
  0 < ticks_per_beat mid ->
  Forall (Forall (fun m => 0 <= time m)) (tracks mid) ->
  fst (load mido_MidiFile path p) = inr d ->
  let p' := snd (load mido_MidiFile path p) in
  _duration p' = d
  /\ le 0 (_duration p')
  /\ nondecreasing (map fst (_messages p'))
  /\ Forall (fun e => le 0 (fst e) /\ le (fst e) (_duration p')) (_messages p')
  /\ _find_index (_messages p') (_pos p') = 0%nat.
Proof.
  intros Hm Htpb Hd Hl. unfold load, bind in *. rewrite Hm in *.
  destruct (_flatten mid) as [e|out] eqn:F; [discriminate Hl|].
  cbn [fst snd ret] in *. apply inr_inj in Hl.
  cbn [with_track _duration _messages _pos] in *.
  destruct (flatten_times mid out Htpb Hd F) as [Hs H0].
  pose proof (last_is_largest (map fst out) 0%float Hs H0) as Hlast.
  split; [exact Hl|].
  destruct out as [|e0 out']; cbn [_find_index].
  - repeat split; try constructor.
  - set (out := e0 :: out') in *.
    assert (El : fst (last out (0%float, [])) = last (map fst out) 0%float).
    { clearbody out. clear. induction out as [|a [|b l] IH]; try reflexivity.
      exact IH. }
    rewrite El. repeat split.
    + rewrite Forall_forall in H0. apply H0.
      destruct (@exists_last _ (map fst out) ltac:(discriminate))
        as (l' & a & E).
      rewrite E, last_last. apply in_or_app. right. left. reflexivity.
    + exact Hs.
    + rewrite Forall_forall in *. intros e He. split.
      * apply H0. apply in_map. exact He.
      * apply Hlast. apply in_map. exact He.
    + exact (find_index_start out H0).
Qed.

End Load.

End LoadFacts.

(** * Time as a function of the tick *)

Module TickFacts.

Import F64 F64Facts Round RoundFacts PyFacts.

Lemma build_plus me : 0 <= fst me -> plus_signed (build false me).
Proof.
  intros H. destruct (build_cases me H) as [E|[(m & _ & _ & E)|[_ E]]];
    rewrite E; reflexivity.
Qed.

Lemma float_of_int_plus z f :
  0 <= z -> Py.float_of_int z = inr f ->
  plus_signed (Prim2SF f) /\ SFfinite_nonneg (Prim2SF f)
  /\ (z = 0 -> Prim2SF f = S754_zero false).
Proof.
  intros Hz E. destruct (float_of_int_nonneg z f Hz E) as [P F].
  split; [|split; [exact F|]].
  - rewrite P. destruct z as [|p|p]; try lia; [reflexivity|].
    cbn [binary_normalize].
    destruct (binary_round_spec false p 0) as [R _]. cbv zeta in R.
    rewrite R. apply build_plus. apply round_at_fst_nonneg; [|lia].
    apply Z.mul_nonneg_nonneg; [lia|]. apply Z.pow_nonneg. lia.
  - intros ->. rewrite P. reflexivity.
Qed.

Lemma int_truediv_plus a b q :
  0 <= a -> 0 < b -> Py.int_truediv a b = inr q ->
  plus_signed (Prim2SF q) /\ SFfinite_nonneg (Prim2SF q).
Proof.
  intros Ha Hb E. split; [|eapply int_truediv_nonneg; eauto].
  unfold Py.int_truediv, raise, ret in E.
  destruct (Z.eqb_spec b 0) as [|_]; [lia|].
  destruct b as [|pb|pb]; try lia. destruct a as [|pa|pa]; try lia.
  - cbn in E. apply inr_inj in E. subst q. reflexivity.
  - cbn [Py.Z2SF] in E.
    destruct (SFdiv_finite_spec false pa 0 false pb 0) as [R F].
    cbv zeta in R, F. cbn [xorb] in R.
    set (e' := Z.min (fexp64 (Zdigits2 (Z.pos pa) + 0
                              - (Zdigits2 (Z.pos pb) + 0))) (0 - 0)) in *.
    assert (P : 0 < 2 ^ (0 - 0 - e')) by (apply pow2_pos; unfold e'; lia).
    set (N := Z.pos pa * 2 ^ (0 - 0 - e')) in *.
    assert (HN : 0 <= N) by (unfold N; lia).
    pose proof (build_finite_nonneg N (Z.pos pb) e' _ HN (Pos2Z.is_pos pb) F
                  (eq_sym R)) as B.
    pose proof (build_plus (round_at N (Z.pos pb) e')
                  (round_at_fst_nonneg _ _ _ HN (Pos2Z.is_pos pb))) as Pl.
    rewrite <- R in Pl.
    destruct (SFdiv prec emax (S754_finite false pa 0)
                (S754_finite false pb 0)) as [s|s| |s m e];
      try discriminate E; apply inr_inj in E; subst q;
      destruct B as [B _]; rewrite B; exact Pl.
Qed.

Lemma SFmul_plus x y :
  plus_signed x -> plus_signed y ->
  SFfinite_nonneg x -> SFfinite_nonneg y ->
  plus_signed (SFmul prec emax x y)
  /\ (x = S754_zero false -> SFmul prec emax x y = S754_zero false).
Proof.
  intros Px Py Fx Fy.
  destruct x as [sx|sx| |sx mx ex]; cbn in Px, Fx; try contradiction;
    destruct y as [sy|sy| |sy my ey]; cbn in Py, Fy; try contradiction;
    subst; try (split; [reflexivity|]; intros; try reflexivity;
                discriminate).
  split; [|discriminate]. rewrite SFmul_finite_spec. apply build_plus.
  apply round_at_fst_nonneg; lia.
Qed.

Lemma SFadd_plus x y :
  plus_signed x -> plus_signed y ->
  plus_signed (SFadd prec emax x y)
  /\ (y = S754_zero false -> SFadd prec emax x y = x).
Proof.
  intros Px Py.
  destruct x as [sx|sx| |sx mx ex]; cbn in Px; try contradiction;
    destruct y as [sy|sy| |sy my ey]; cbn in Py; try contradiction;
    subst; try (split; [reflexivity|]; intros; try reflexivity;
                discriminate).
  split; [|discriminate]. rewrite SFadd_finite_spec. cbv zeta.
  apply build_plus. apply round_at_fst_nonneg; [|lia].
  apply Z.mul_nonneg_nonneg; [|apply Z.pow_nonneg; lia].
  apply Z.add_nonneg_nonneg; apply Z.mul_nonneg_nonneg; try lia;
    apply Z.pow_nonneg; lia.
Qed.

(** One pass of the walk: the events it adds carry the elapsed time it
    arrives at, and at the tick of the entry before it the elapsed time
    stays what it was. *)
Lemma convert_one_at_tick tpb w T m w' :
  0 < tpb -> 0 <= tempo w -> last_tick w <= T ->
  plus_signed (Prim2SF (elapsed_us w)) ->
  convert_one tpb w (T, m) = inr w' ->
  0 <= tempo w' /\ last_tick w' = T
  /\ plus_signed (Prim2SF (elapsed_us w'))
  /\ events w'
     = events w ++ timed (fun _ => (elapsed_us w' / 1000000)%float) (T, m)
  /\ (T = last_tick w -> elapsed_us w' = elapsed_us w).
Proof.
  intros Htpb Ht HT Pw H. unfold convert_one in H.
  destruct (Py.int_truediv (tempo w) tpb) as [e|q] eqn:Eq; [discriminate H|].
  cbn [bind] in H.
  destruct (Py.int_mul_float (T - last_tick w) q) as [e|adv] eqn:Ea;
    [discriminate H|].
  cbn [bind] in H.
  destruct (int_truediv_plus _ _ _ Ht Htpb Eq) as [Pq Fq].
  unfold Py.int_mul_float, bind, ret in Ea.
  destruct (Py.float_of_int (T - last_tick w)) as [e|x] eqn:Ex;
    [discriminate Ea|].
  apply inr_inj in Ea.
  destruct (float_of_int_plus (T - last_tick w) x ltac:(lia) Ex) as (Px & Fx & Zx).
  destruct (SFmul_plus _ _ Px Pq Fx Fq) as [Pm Zm].
  assert (Padv : plus_signed (Prim2SF adv)).
  { subst adv. rewrite mul_spec. exact Pm. }
  destruct (SFadd_plus _ _ Pw Padv) as [Ps Zs].
  assert (Pe : plus_signed (Prim2SF (elapsed_us w + adv))).
  { rewrite add_spec. exact Ps. }
  assert (Same : T = last_tick w -> (elapsed_us w + adv)%float = elapsed_us w).
  { intros ->. apply Prim2SF_inj. rewrite add_spec. apply Zs.
    subst adv. rewrite mul_spec. apply Zm, Zx. lia. }
  unfold timed, emitted. cbn [fst snd].
  destruct (body m) as [t| |[|b raw]|]; apply inr_inj in H; subst w';
    cbn [tempo last_tick elapsed_us events map];
    rewrite ?app_nil_r; repeat split; auto; lia.
Qed.

Lemma flat_map_timed f g l :
  (forall en, In en l -> f (fst en) = g (fst en)) ->
  flat_map (timed f) l = flat_map (timed g) l.
Proof.
  induction l as [|en l IH]; intros H; [reflexivity|].
  cbn [flat_map]. rewrite IH by (intros; apply H; right; assumption).
  unfold timed at 1 3. rewrite (H en) by (left; reflexivity). reflexivity.
Qed.

Lemma convert_at_ticks tpb merged : forall w w',
  0 < tpb -> 0 <= tempo w ->
  plus_signed (Prim2SF (elapsed_us w)) ->
  StronglySorted tick_le merged ->
  Forall (fun x => last_tick w <= fst x) merged ->
  convert tpb w merged = inr w' ->
  exists time_of,
    time_of (last_tick w) = (elapsed_us w / 1000000)%float
    /\ events w' = events w ++ flat_map (timed time_of) merged.
Proof.
  induction merged as [|[T m] rest IH]; intros w w' Htpb Ht Pw Hs Hl H.
  - apply inr_inj in H. subst w'.
    exists (fun _ => (elapsed_us w / 1000000)%float).
    rewrite app_nil_r. auto.
  - cbn [convert] in H. unfold bind in H.
    destruct (convert_one tpb w (T, m)) as [e|w1] eqn:E1; [discriminate|].
    inversion Hs as [|? ? Hs' Hf]; subst. inversion Hl as [|? ? L Hl']; subst.
    cbn [fst] in L.
    destruct (convert_one_at_tick _ _ _ _ _ Htpb Ht L Pw E1)
      as (Ht1 & Hl1 & Pw1 & Ev1 & Same).
    destruct (IH w1 w' Htpb Ht1 Pw1 Hs') as (f1 & F1 & Ev'); auto.
    { rewrite Hl1. exact Hf. }
    rewrite Hl1 in F1.
    exists (fun k => if k =? last_tick w then (elapsed_us w / 1000000)%float
                     else f1 k).
    split; [rewrite Z.eqb_refl; reflexivity|].
    assert (FT : (if T =? last_tick w then (elapsed_us w / 1000000)%float
                  else f1 T) = (elapsed_us w1 / 1000000)%float).
    { destruct (Z.eqb_spec T (last_tick w)) as [K|K]; [|exact F1].
      rewrite (Same K). reflexivity. }
    rewrite Ev', Ev1, <- app_assoc. f_equal. cbn [flat_map]. f_equal.
    + unfold timed. cbn [fst]. rewrite FT. reflexivity.
    + apply flat_map_timed. intros en Hen.
      destruct (Z.eqb_spec (fst en) (last_tick w)) as [K|K]; [|reflexivity].
      rewrite Forall_forall in Hf. pose proof (Hf en Hen) as Le.
      unfold tick_le in Le. cbn [fst] in Le.
      assert (TK : T = last_tick w) by lia.
      rewrite K, <- TK, F1, (Same TK). reflexivity.
Qed.

(** X12. The time [_flatten] gives an event depends on its absolute
    tick alone: events on the same tick get the same time, whichever
    track they are on and whatever tempo changes sit on that tick, and
    tick 0 is time 0.0. *)
Theorem time_depends_on_tick_only (mid : MidiFile) (out : list timed_event) :
  0 < ticks_per_beat mid ->
  Forall (Forall (fun m => 0 <= time m)) (tracks mid) ->
  _flatten mid = inr out ->
  exists time_of : Z -> float,
    time_of 0 = 0%float
    /\ out = flat_map (timed time_of) (sort_ticks (merge_tracks (tracks mid))).
Proof.
  intros Htpb Hd H. unfold _flatten, bind in H.
  set (merged := merge_tracks (tracks mid)) in *.
  destruct (convert (ticks_per_beat mid) walk_init (sort_ticks merged))
    as [e|w] eqn:E; [discriminate|].
  apply inr_inj in H. subst out.
  assert (Hl : Forall (fun x => last_tick walk_init <= fst x)
                      (sort_ticks merged)).
  { eapply Permutation_Forall; [symmetry; apply SortFacts.sort_ticks_perm|].
    apply SortFacts.merge_tracks_nonneg. exact Hd. }
  destruct (convert_at_ticks _ _ walk_init w Htpb ltac:(cbn; lia) eq_refl
              (SortFacts.sort_ticks_sorted merged) Hl E) as (f & F0 & Ev).
  exists f. split; [exact F0|exact Ev].
Qed.

End TickFacts.

(** * The serial sender *)

Module SenderFacts.

Section WithDevices.

Variable serial_Serial : list byte -> Z -> option SerialException.
Variable write_raises : Serial -> list byte -> bool.

(** [all_sound_off] is [send] on each of the sixteen messages in turn. *)
Lemma all_sound_off_sends s :
  all_sound_off write_raises s
  = inr (flat_map (fun m => send write_raises m s) sound_off_messages).
Proof.
  unfold all_sound_off, sound_off_messages. cbn. rewrite !app_nil_r.
  reflexivity.
Qed.

Lemma send_not_connected data s :
  connected s = false -> send write_raises data s = [].
Proof.
  unfold connected, send. destruct (_port s) as [p|]; [|reflexivity].
  intros ->. reflexivity.
Qed.

(** X13. [all_sound_off] never raises, also when writes fail, and writes
    nothing while the sender is not connected. On an open port it
    writes only messages of the form (0xB0 + channel, 120, 0), each
    three bytes and none a channel-volume message; all sixteen, in
    channel order, when no write fails. *)
Theorem all_sound_off_writes (s : MIDISerial) :
  exists evs,
    all_sound_off write_raises s = inr evs
    /\ (connected s = false -> evs = [])
    /\ (forall p, _port s = Some p -> is_open p = true ->
          Forall (fun ev => exists m, In m sound_off_messages
                                      /\ ev = Wrote (port p) m) evs
          /\ ((forall m, In m sound_off_messages -> write_raises p m = false) ->
              evs = map (Wrote (port p)) sound_off_messages))
    /\ Forall (fun m => is_volume_message m = false
                        /\ length m = 3%nat) sound_off_messages.
Proof.
  exists (flat_map (fun m => send write_raises m s) sound_off_messages).
  split; [apply all_sound_off_sends|]. split; [|split].
  - intros H. induction sound_off_messages as [|m l IH]; [reflexivity|].
    cbn [flat_map]. rewrite IH, (send_not_connected m s H). reflexivity.
  - intros p Hp Ho. split.
    + induction sound_off_messages as [|m l IH]; [constructor|].
      cbn [flat_map]. apply Forall_app. split.
      * unfold send. rewrite Hp, Ho.
        destruct (write_raises p m); constructor; [|constructor].
        exists m. split; [left; reflexivity|reflexivity].
      * eapply Forall_impl; [|exact IH]. cbv beta.
        intros ev (m' & Hm & E). exists m'. split; [right; exact Hm|exact E].
    + induction sound_off_messages as [|m l IH]; intros Hw; [reflexivity|].
      cbn [flat_map map]. rewrite IH by (intros; apply Hw; right; assumption).
      unfold send at 1. rewrite Hp, Ho, Hw by (left; reflexivity).
      reflexivity.
  - unfold sound_off_messages. repeat constructor.
Qed.

(** X14. [connect] closes the open port first. When opening the new
    device raises, the exception is passed on and the sender is left
    not connected, even if it was connected before; when it succeeds
    the sender is connected to the new device at the given baud rate.
    After [disconnect] it is not connected. *)
Theorem connect_replaces_the_port (port_name : list byte) (baud : Z)
    (s : MIDISerial) :
  let r := connect serial_Serial port_name baud s in
  let closing := match _port s with
                 | Some p => if is_open p then [Closed (port p)] else []
                 | None => []
                 end in
  (forall e, serial_Serial port_name baud = Some e ->
             fst (fst r) = inl e
             /\ connected (snd (fst r)) = false
             /\ snd r = closing)
  /\ (serial_Serial port_name baud = None ->
      fst (fst r) = inr tt
      /\ _port (snd (fst r))
         = Some {| port := port_name; baudrate := baud; is_open := true |}
      /\ connected (snd (fst r)) = true
      /\ snd r = closing ++ [Opened port_name baud])
  /\ connected (fst (disconnect (snd (fst r)))) = false.
Proof.
  cbv zeta. unfold connect, connected.
  destruct (_port s) as [p|] eqn:Hp; [destruct (is_open p) eqn:Ho|];
    destruct (serial_Serial port_name baud) as [e|] eqn:Hs;
    cbn [fst snd _port close is_open app disconnect];
    rewrite ?Hp, ?Ho; (split; [|split]); try reflexivity;
    try (intros e' [= <-]); try discriminate; auto.
Qed.

End WithDevices.

End SenderFacts.

(** * The time label *)

Module LabelFacts.

Lemma uint_of_digits u : uint_of (digits_of u) = Some u.
Proof.
  induction u; cbn [digits_of uint_of]; try rewrite IHu; reflexivity.
Qed.

Lemma digits_of_not_nil n : digits_of (N.to_uint n) <> [].
Proof.
  destruct n as [|p]; [discriminate|]. cbn [N.to_uint].
  pose proof (DecimalPos.Unsigned.to_uint_nonnil p) as H.
  destruct (Pos.to_uint p); try congruence; discriminate.
Qed.

Lemma uint_of_zero s :
  uint_of (x30 :: s) = option_map Decimal.D0 (uint_of s).
Proof. cbn [uint_of]. destruct (uint_of s); reflexivity. Qed.

(** Two digits at least, and the number read back. *)
Lemma format_02d_reads z :
  0 <= z ->
  read_decimal (format_02d z) = Some z
  /\ (2 <= length (format_02d z))%nat.
Proof.
  intros Hz. unfold format_02d.
  destruct (Z.ltb_spec z 0) as [|_]; [lia|].
  pose proof (digits_of_not_nil (Z.to_N z)) as Hn.
  pose proof (uint_of_digits (N.to_uint (Z.to_N z))) as Hu.
  pose proof (DecimalN.Unsigned.of_to (Z.to_N z)) as Ho.
  destruct (digits_of (N.to_uint (Z.to_N z))) as [|d ds] eqn:E;
    [congruence|].
  destruct (Nat.ltb_spec (length (d :: ds)) 2) as [L|L].
  - split; [|cbn [length] in *; lia].
    unfold read_decimal. rewrite uint_of_zero, Hu. cbn [option_map].
    change (N.of_uint (Decimal.D0 (N.to_uint (Z.to_N z))))
      with (N.of_uint (N.to_uint (Z.to_N z))).
    rewrite Ho. f_equal. lia.
  - split; [|exact L]. unfold read_decimal. rewrite Hu. cbn [option_map].
    rewrite Ho. f_equal. lia.
Qed.

(** Below a hundred the field has exactly two digits. *)
Lemma format_02d_two z : 0 <= z < 100 -> length (format_02d z) = 2%nat.
Proof.
  intros Hz.
  assert (H : forallb (fun n => (length (format_02d (Z.of_nat n)) =? 2)%nat)
                      (seq 0 100) = true) by (vm_compute; reflexivity).
  rewrite forallb_forall in H.
  specialize (H (Z.to_nat z)). rewrite Z2Nat.id in H by lia.
  apply Nat.eqb_eq, H, in_seq. lia.
Qed.

(** [max(0.0, s)] truncates to an [int] that is not negative, unless
    [s] is +infinity. *)
Lemma whole_seconds s :
  Prim2SF s <> S754_infinity false ->
  exists whole, Py.int_of_float (Py.fmax 0 s) = inr whole /\ 0 <= whole
                /\ ((0 <? s)%float = false -> whole = 0).
Proof.
  intros Hi. unfold Py.fmax. destruct (0 <? s)%float eqn:L.
  - rewrite ltb_spec in L. change (Prim2SF 0) with (S754_zero false) in L.
    unfold Py.int_of_float, ret.
    destruct (Prim2SF s) as [sg|sg| |sg m e]; try discriminate L.
    + destruct sg; [discriminate L|congruence].
    + destruct sg; [discriminate L|].
      eexists. split; [reflexivity|]. split; [|discriminate].
      destruct e as [|p|p].
      * apply Z.mul_nonneg_nonneg; [lia|]. apply Z.pow_nonneg. lia.
      * apply Z.mul_nonneg_nonneg; [lia|]. apply Z.pow_nonneg. lia.
      * apply Z.div_pos; [lia|]. apply RoundFacts.pow2_pos. lia.
  - exists 0. repeat split; try reflexivity; lia.
Qed.

(** X15. [fmt_time] raises [OverflowError] on +infinity and on nothing
    else. It shows the whole seconds of [max(0.0, s)] as minutes, a
    colon and seconds: the seconds field has exactly two digits and
    reads back as the seconds modulo 60, the minutes field has at least
    two digits, exactly two below 100 minutes, and reads back as the
    minutes. A negative number, a zero and a NaN give 00:00. *)
Theorem fmt_time_shows_whole_seconds (s : float) :
  (Prim2SF s = S754_infinity false -> fmt_time s = inl OverflowError)
  /\ (Prim2SF s <> S754_infinity false ->
      exists whole mm ss,
        Py.int_of_float (Py.fmax 0 s) = inr whole /\ 0 <= whole
        /\ fmt_time s = inr (mm ++ x3a :: ss)
        /\ read_decimal mm = Some (whole / 60)
        /\ read_decimal ss = Some (whole mod 60)
        /\ length ss = 2%nat
        /\ (2 <= length mm)%nat
        /\ (whole < 6000 -> length mm = 2%nat)
        /\ ((0 <? s)%float = false ->
            fmt_time s = inr [x30; x30; x3a; x30; x30])).
Proof.
  split.
  - intros Hi. unfold fmt_time, Py.fmax.
    assert (L : (0 <? s)%float = true).
    { rewrite ltb_spec, Hi. reflexivity. }
    rewrite L. unfold Py.int_of_float. rewrite Hi. reflexivity.
  - intros Hi. destruct (whole_seconds s Hi) as (whole & Ew & Hw & Hz).
    exists whole, (format_02d (whole / 60)), (format_02d (whole mod 60)).
    assert (Hm : 0 <= whole / 60) by (apply Z.div_pos; lia).
    assert (Hs : 0 <= whole mod 60 < 60) by (apply Z.mod_pos_bound; lia).
    destruct (format_02d_reads (whole / 60) Hm) as [Rm Lm].
    destruct (format_02d_reads (whole mod 60)) as [Rs _]; [lia|].
    assert (F : fmt_time s = inr (format_02d (whole / 60)
                                  ++ x3a :: format_02d (whole mod 60))).
    { unfold fmt_time. cbv zeta. rewrite Ew. reflexivity. }
    repeat split; auto.
    + apply format_02d_two. lia.
    + intros Hq. apply format_02d_two. split; [lia|].
      apply Z.div_lt_upper_bound; lia.
    + intros L. rewrite F, (Hz L). reflexivity.
Qed.

End LabelFacts.

(** * The application *)

Module AppFacts.

Section WithSystem.

Variable mido_MidiFile : list byte -> result MidiFile.
Variable os_path_basename : list byte -> list byte.

(** The loop never takes the state out of [STOPPED]. *)
Lemma ticks_keep_stopped steps : forall c,
  _state (player c) = STOPPED ->
  _state (player (exec mido_MidiFile c (map Tick steps))) = STOPPED.
Proof.
  induction steps as [|now steps IH]; intros c H; [exact H|].
  cbn [map]. rewrite FinishFacts.exec_cons. apply IH.
  rewrite FinishFacts.step_tick. cbn [player].
  unfold _run_step. destruct (at_point (loop c));
    repeat match goal with
           | |- context [if ?b then _ else _] => destruct b
           | |- context [match ?x with _ => _ end] => destruct x
           end; cbn; auto.
Qed.

Lemma load_fails path p e :
  mido_MidiFile path = inl e -> load mido_MidiFile path p = (inl e, p).
Proof. intros H. unfold load, bind. rewrite H. reflexivity. Qed.

Lemma load_ok path p mid messages :
  mido_MidiFile path = inr mid -> _flatten mid = inr messages ->
  load mido_MidiFile path p
  = (inr (_duration (with_track mid messages p)), with_track mid messages p).
Proof. intros Hm Hf. unfold load, bind. rewrite Hm, Hf. reflexivity. Qed.

(** [_play_track] on a file the parser rejects. *)
Lemma play_track_unloadable idx steps a e :
  0 <= idx < Z.of_nat (length (items (App._queue_widget a))) ->
  mido_MidiFile (nth (Z.to_nat idx) (items (App._queue_widget a)) []) = inl e ->
  let r := (App._play_track mido_MidiFile os_path_basename) idx steps a in
  fst r = inr tt
  /\ App._current_idx (snd r) = App._current_idx a
  /\ App._queue_widget (snd r) = App._queue_widget a
  /\ App._duration (snd r) = App._duration a
  /\ App.orphans (snd r) = App.orphans a
  /\ _state (player (App.world (snd r))) = STOPPED
  /\ App.screen (snd r) = App.screen a ++ [App.StatusErr (App.LoadError e)].
Proof.
  intros Hi He. cbv zeta. unfold App._play_track.
  destruct (Z.ltb_spec idx 0) as [|_]; [lia|].
  destruct (Z.leb_spec (Z.of_nat (length (items (App._queue_widget a)))) idx)
    as [|_]; [lia|].
  cbn [orb]. cbv zeta.
  change (App._queue_widget (App.player_call mido_MidiFile CStop a))
    with (App._queue_widget a).
  rewrite (load_fails _ _ e He).
  cbn [fst snd App.show App._current_idx App._queue_widget App._duration
       App.orphans App.screen App.world App.sleep App.with_world
       App.player_call].
  repeat split.
  apply ticks_keep_stopped. reflexivity.
Qed.

(** X17. A file that cannot be loaded blocks the queue. When the next
    path is one the parser rejects, [_skip_next] and
    [_on_track_finished] raise nothing, leave the player [STOPPED] and
    the current index where it was ([_skip_next] shows the error), so
    however often [_skip_next] is pressed the index stays and the same
    file is tried again. *)
Theorem unloadable_file_blocks_the_queue (a : App.t) (e : exn) :
  let paths := items (App._queue_widget a) in
  let nxt := App._current_idx a + 1 in
  0 <= nxt < Z.of_nat (length paths) ->
  mido_MidiFile (nth (Z.to_nat nxt) paths []) = inl e ->
  (forall steps,
      let r := (App._skip_next mido_MidiFile os_path_basename) steps a in
      fst r = inr tt
      /\ App._current_idx (snd r) = App._current_idx a
      /\ App._queue_widget (snd r) = App._queue_widget a
      /\ _state (player (App.world (snd r))) = STOPPED
      /\ App.screen (snd r)
         = App.screen a ++ [App.StatusErr (App.LoadError e)])
  /\ (forall steps,
        let r := (App._on_track_finished mido_MidiFile os_path_basename) steps a in
        fst r = inr tt
        /\ App._current_idx (snd r) = App._current_idx a
        /\ App._queue_widget (snd r) = App._queue_widget a
        /\ _state (player (App.world (snd r))) = STOPPED)
  /\ (forall presses : list (list float),
        App._current_idx
          (fold_left (fun a steps => snd ((App._skip_next mido_MidiFile os_path_basename) steps a)) presses a)
        = App._current_idx a).
Proof.
  intros paths nxt Hn He.
  assert (Skip : forall a0 steps,
             App._current_idx a0 = App._current_idx a ->
             App._queue_widget a0 = App._queue_widget a ->
             let r := (App._skip_next mido_MidiFile os_path_basename) steps a0 in
             fst r = inr tt
             /\ App._current_idx (snd r) = App._current_idx a0
             /\ App._queue_widget (snd r) = App._queue_widget a0
             /\ _state (player (App.world (snd r))) = STOPPED
             /\ App.screen (snd r)
                = App.screen a0 ++ [App.StatusErr (App.LoadError e)]).
  { intros a0 steps Hc Hq. cbv zeta. unfold App._skip_next. rewrite Hc, Hq.
    fold paths nxt. destruct paths as [|p0 ps] eqn:Ep; [cbn in Hn; lia|].
    rewrite <- Ep in *.
    destruct (Z.ltb_spec nxt (Z.of_nat (length paths))) as [_|]; [|lia].
    destruct (play_track_unloadable nxt steps a0 e) as (A & B & C & _ & _ & D & E).
    - rewrite Hq. exact Hn.
    - rewrite Hq. exact He.
    - repeat split; congruence. }
  split; [|split].
  - intros steps. apply Skip; reflexivity.
  - intros steps. cbv zeta. unfold App._on_track_finished. cbv zeta.
    assert (Q : App._queue_widget (App.button App.ShowPlay a)
                = App._queue_widget a
                /\ App._current_idx (App.button App.ShowPlay a)
                   = App._current_idx a).
    { unfold App.button. destruct (App._play_btn_ref a); auto. }
    destruct Q as [Q1 Q2]. rewrite Q1, Q2. fold paths nxt.
    destruct (Z.ltb_spec nxt (Z.of_nat (length paths))) as [_|]; [|lia].
    destruct (play_track_unloadable nxt steps (App.button App.ShowPlay a) e)
      as (A & B & C & _ & _ & D & _).
    + rewrite Q1. exact Hn.
    + rewrite Q1. exact He.
    + repeat split; congruence.
  - intros presses.
    assert (G : forall a0,
               App._current_idx a0 = App._current_idx a ->
               App._queue_widget a0 = App._queue_widget a ->
               App._current_idx
                 (fold_left (fun a steps => snd ((App._skip_next mido_MidiFile os_path_basename) steps a))
                    presses a0) = App._current_idx a).
    { induction presses as [|steps presses IH]; intros a0 Hc Hq; [exact Hc|].
      cbn [fold_left].
      destruct (Skip a0 steps Hc Hq) as (_ & B & C & _).
      apply IH; congruence. }
    apply G; reflexivity.
Qed.

(** Every position of the slider gives a gain in [0, 1]. *)
Lemma slider_gain_exists_nat n :
  (n <= 127)%nat -> exists gain, slider_gain (Z.of_nat n) gain.
Proof.
  intros H. unfold slider_gain.
  do 128 (destruct n as [|n];
          [eexists; split; [vm_compute; reflexivity|];
           repeat split; try reflexivity; try (intros; discriminate)|]).
  lia.
Qed.

Lemma slider_gain_exists v :
  0 <= v <= 127 -> exists gain, slider_gain v gain.
Proof.
  intros H. rewrite <- (Z2Nat.id v) by lia.
  apply slider_gain_exists_nat. lia.
Qed.

(** After [stop] and six steps a pacing thread has ended, wherever it
    was: it has finished, or it is dead of the sleep on a delay that is
    not a number. *)
Lemma stop_then_sleep (c : config) (steps : list float) :
  is_Crashed (at_point (loop c)) = false ->
  F64.le 0 (_volume (player c)) -> F64.le (_volume (player c)) 1 ->
  (6 <= length steps)%nat ->
  let c' := exec mido_MidiFile (step mido_MidiFile c (Call CStop))
              (map Tick steps) in
  (at_point (loop c') = Done \/ at_point (loop c') = Crashed ValueError)
  /\ _state (player c') = STOPPED
  /\ _stop_flag (player c') = true /\ _pause_evt (player c') = true
  /\ _volume (player c') = _volume (player c)
  /\ on_position (player c') = on_position (player c)
  /\ on_finished (player c') = on_finished (player c)
  /\ (_seek_to (player c) = None -> _seek_to (player c') = None)
  /\ (sent_count (trace c') <= sent_count (trace c) + 1)%nat.
Proof.
  intros Hc G0 G1 Hn. cbv zeta.
  set (c1 := step mido_MidiFile c (Call CStop)).
  assert (H1 : _stop_flag (player c1) = true /\ _pause_evt (player c1) = true
               /\ _volume (player c1) = _volume (player c)
               /\ loop c1 = loop c
               /\ sent_count (trace c1) = sent_count (trace c)
               /\ _state (player c1) = STOPPED
               /\ _pos (player c1) = 0%float
               /\ on_position (player c1) = on_position (player c)
               /\ on_finished (player c1) = on_finished (player c)
               /\ _seek_to (player c1) = _seek_to (player c)).
  { unfold c1. cbn [step call stop stop_locked skip player loop trace app].
    rewrite RunFacts.sent_count_app. cbn. repeat split; auto. }
  destruct H1 as (F1 & F2 & F3 & F4 & F5 & F6 & F7 & F8 & F9 & F10).
  assert (G0' : F64.le 0 (_volume (player c1))) by (rewrite F3; exact G0).
  assert (G1' : F64.le (_volume (player c1)) 1) by (rewrite F3; exact G1).
  assert (Hc' : is_Crashed (at_point (loop c1)) = false)
    by (rewrite F4; exact Hc).
  assert (Hd' : match at_point (loop c1) with
                | Final | Done => _state (player c1) = STOPPED
                                  /\ _pos (player c1) = 0%float
                | _ => True
                end) by (destruct (at_point (loop c1)); auto).
  destruct (nan_delay (hd 0%float steps) (player c1) (loop c1)) eqn:Hnan.
  { destruct steps as [|now steps]; [cbn in Hn; lia|]. cbn [hd] in Hnan.
    rewrite RunFacts.exec_ticks_cons.
    destruct (RunFacts.run_step_dies now (player c1) (loop c1) G0' G1' Hc')
      as [Hdie _].
    specialize (Hdie Hnan).
    assert (E : step mido_MidiFile c1 (Tick now)
                = {| player := player c1;
                     loop := goto (Crashed ValueError) (loop c1);
                     trace := trace c1 |}).
    { rewrite FinishFacts.step_tick, Hdie. cbn [fst snd].
      rewrite app_nil_r. reflexivity. }
    rewrite E, RunFacts.exec_dead by reflexivity.
    cbn [player loop trace goto at_point].
    repeat split; auto. lia. }
  destruct (RunFacts.exec_stopping mido_MidiFile steps c1 F1 F2 G0' G1' Hc'
              Hnan Hd')
    as (A & B & C & D).
  set (c' := exec mido_MidiFile c1 (map Tick steps)) in *.
  assert (Z0 : steps_to_done (at_point (loop c')) = 0%nat).
  { assert (steps_to_done (at_point (loop c1)) <= 6)%nat
      by (destruct (at_point (loop c1)); cbn; lia).
    lia. }
  assert (K : _stop_flag (player c') = _stop_flag (player c1)
              /\ _pause_evt (player c') = _pause_evt (player c1)
              /\ _volume (player c') = _volume (player c1)
              /\ on_position (player c') = on_position (player c1)
              /\ on_finished (player c') = on_finished (player c1)
              /\ (_seek_to (player c1) = None -> _seek_to (player c') = None)).
  { unfold c'. clear. generalize c1. clear c1.
    induction steps as [|now steps IH]; intros c1; [cbn; tauto|].
    cbn [map]. rewrite FinishFacts.exec_cons.
    destruct (IH (step mido_MidiFile c1 (Tick now)))
      as (I1 & I2 & I3 & I4 & I5 & I6).
    rewrite I1, I2, I3, I4, I5.
    rewrite FinishFacts.step_tick in *. cbn [player] in *.
    destruct (RunFacts.run_step_keeps now (player c1) (loop c1))
      as (K1 & K2 & K3 & _ & _ & K6 & K7).
    repeat split; auto.
    intros Hs. apply I6. clear - Hs. unfold _run_step.
    destruct (at_point (loop c1)); rewrite ?Hs;
      repeat match goal with
             | |- context [if ?b then _ else _] => destruct b
             | |- context [match _apply_volume ?v ?r with _ => _ end] =>
                 destruct (_apply_volume v r)
             | |- context [match Py.time_sleep ?d with _ => _ end] =>
                 destruct (Py.time_sleep d)
             end; cbn; auto. }
  destruct K as (K1 & K2 & K3 & K4 & K5 & K6).
  destruct (at_point (loop c')) eqn:E; try discriminate Z0;
    try discriminate B.
  destruct D as [D1 D2].
  repeat split; try congruence.
  - left. reflexivity.
  - intros Hs. apply K6. congruence.
  - destruct (at_point (loop c1)); lia.
Qed.

(** What [_play_track] comes to on a file that loads, once the thread
    of before has ended. *)
Lemma play_track_loaded (a : App.t) (idx : Z) (steps : list float)
    (mid : MidiFile) (messages : list timed_event) (gain : float)
    (c : config) :
  let path := nth (Z.to_nat idx) (items (App._queue_widget a)) [] in
  c = exec mido_MidiFile (step mido_MidiFile (App.world a) (Call CStop))
        (map Tick steps) ->
  0 <= idx < Z.of_nat (length (items (App._queue_widget a))) ->
  mido_MidiFile path = inr mid ->
  _flatten mid = inr messages ->
  slider_gain (App._vol_var a) gain ->
  at_point (loop c) = Done \/ at_point (loop c) = Crashed ValueError ->
  _state (player c) = STOPPED ->
  let r := App._play_track mido_MidiFile os_path_basename idx steps a in
  fst r = inr tt
  /\ App.world (snd r)
     = {| player := with_pause_evt true
                      (with_stop_flag false
                         (with_state PLAYING
                            (with_volume gain
                               (with_track mid messages (player c)))));
          loop := thread_init;
          trace := trace c ++ [StartThread] |}
  /\ App._current_idx (snd r) = idx
  /\ _playing (App._queue_widget (snd r)) = idx
  /\ items (App._queue_widget (snd r)) = items (App._queue_widget a)
  /\ App.orphans (snd r) = App.orphans a
  /\ App._duration (snd r) = _duration (with_track mid messages (player c)).
Proof.
  intros path Ec Hi Hm Hf (Hg & _ & _ & Hclamp & _) Hd Hs. cbv zeta.
  unfold App._play_track.
  destruct (Z.ltb_spec idx 0) as [|_]; [lia|].
  destruct (Z.leb_spec (Z.of_nat (length (items (App._queue_widget a)))) idx)
    as [|_]; [lia|].
  cbn [orb]. cbv zeta.
  unfold App.sleep, App.player_call.
  cbn [App.world App.with_world App._queue_widget]. rewrite <- Ec.
  fold path. rewrite (load_ok path (player c) mid messages Hm Hf).
  cbv iota beta.
  cbn [App._vol_var App.show App.with_queue App.with_current
       App.with_duration App.with_world].
  rewrite Hg. cbv iota beta. unfold App.player_play.
  cbn [App.world App.with_world App.show App.with_queue App.with_current
       App.with_duration step call set_volume player loop trace fst snd].
  rewrite Hclamp. unfold play.
  cbn [_state with_volume with_track]. rewrite Hs.
  destruct Hd as [Hd|Hd]; rewrite Hd.
  all: cbv iota beta; unfold App.button.
  all: destruct (App._play_btn_ref a) eqn:Hb;
    cbn [App._play_btn_ref App.with_world App.show App.with_queue
         App.with_current App.with_duration App.world App._current_idx
         App._queue_widget App.orphans App._duration fst snd set_playing
         _playing items _items]; rewrite ?Hb;
    cbn [App._play_btn_ref App.with_world App.show App.with_queue
         App.with_current App.with_duration App.world App._current_idx
         App._queue_widget App.orphans App._duration fst snd set_playing
         _playing items _items];
    rewrite ?app_nil_r; repeat split; reflexivity.
Qed.

(** X16. [_play_track] on a file that loads, when no seek is pending
    and the pacing thread of before gets six steps during the sleep:
    that thread has ended (after one more event at most) and none is
    set aside; the player is [PLAYING] the new sequence at the gain of
    the volume slider, the index is current in the App and in the
    queue, and the thread [play] starts sends the whole sequence from
    its first event once every event is due, and ends as finished, with
    [on_finished] when it is set. (Neither [stop] nor [load] nor [play]
    clears a pending seek, hence the condition.) *)
Theorem play_track_plays_the_file (a : App.t) (idx : Z) (steps : list float)
    (mid : MidiFile) (messages : list timed_event) :
  0 <= idx < Z.of_nat (length (items (App._queue_widget a))) ->
  mido_MidiFile (nth (Z.to_nat idx) (items (App._queue_widget a)) [])
  = inr mid ->
  0 < ticks_per_beat mid ->
  Forall (Forall (fun m => 0 <= time m)) (tracks mid) ->
  _flatten mid = inr messages ->
  0 <= App._vol_var a <= 127 ->
  is_Crashed (at_point (loop (App.world a))) = false ->
  F64.le 0 (_volume (player (App.world a))) ->
  F64.le (_volume (player (App.world a))) 1 ->
  _seek_to (player (App.world a)) = None ->
  (6 <= length steps)%nat ->
  let r := App._play_track mido_MidiFile os_path_basename idx steps a in
  let w := App.world (snd r) in
  fst r = inr tt
  /\ App._current_idx (snd r) = idx
  /\ _playing (App._queue_widget (snd r)) = idx
  /\ App.orphans (snd r) = App.orphans a
  /\ loop w = thread_init
  /\ _state (player w) = PLAYING
  /\ _messages (player w) = messages
  /\ slider_gain (App._vol_var a) (_volume (player w))
  /\ (sent_count (trace w) <= sent_count (trace (App.world a)) + 1)%nat
  /\ (forall now0 now,
        (forall e, In e messages -> due now (now0 - 0)%float e) ->
        let c := exec mido_MidiFile w
                   (Tick now0 :: ticks (10 * length messages + 3) now) in
        at_point (loop c) = Done
        /\ trace c
           = trace w ++ flat_map (played (player w)) messages
             ++ AllSoundOff
                :: (if on_finished (player w) then [OnFinished] else [])).
Proof.
  intros Hi Hm Htpb Hdl Hf Hv Hc G0 G1 Hsk Hn. cbv zeta.
  destruct (slider_gain_exists _ Hv) as [gain Hg].
  destruct (stop_then_sleep (App.world a) steps Hc G0 G1 Hn)
    as (S1 & S2 & S3 & S4 & S5 & S6 & S7 & S8 & S9).
  remember (exec mido_MidiFile (step mido_MidiFile (App.world a) (Call CStop))
              (map Tick steps)) as c eqn:Ec.
  destruct (play_track_loaded a idx steps mid messages gain c Ec Hi Hm Hf Hg
              S1 S2) as (R1 & R2 & R3 & R4 & R5 & R6 & R7).
  rewrite R2.
  specialize (S8 Hsk).
  destruct (player c) as [st sf pe md pm dur pos sk vol onp onf] eqn:Ep.
  cbn [_seek_to on_position on_finished] in S8, S6, S7. subst sk.
  cbn [player loop trace with_pause_evt with_stop_flag with_state with_volume
       with_track _state _messages _volume on_finished].
  split; [exact R1|]. split; [exact R3|]. split; [exact R4|].
  split; [exact R6|]. split; [reflexivity|]. split; [reflexivity|].
  split; [reflexivity|]. split; [exact Hg|]. split.
  { rewrite RunFacts.sent_count_app. cbn. lia. }
  intros now0 now Hdue.
  destruct Hg as (_ & Hg0 & Hg1 & _).
  destruct (LoadFacts.flatten_times mid messages Htpb Hdl Hf) as [_ H0].
  pose proof (LoadFacts.find_index_start messages H0) as Hidx.
  rewrite FinishFacts.exec_cons.
  cbn [step _run_step player loop trace thread_init at_point _messages _pos
       l_i l_msg l_was_playing with_pause_evt with_stop_flag with_state
       with_volume with_track _state _stop_flag _pause_evt _mid _duration
       _seek_to _volume on_position on_finished].
  rewrite Hidx, app_nil_r.
  destruct (FinishFacts.run_rest mido_MidiFile PLAYING (Some mid) messages
              match messages with
              | [] => 0%float
              | _ => fst (last messages (0%float, []))
              end gain onp onf messages 0%float (now0 - 0)%float now Hdue
              (fun raw => VolumeFacts.apply_volume_total gain raw Hg0 Hg1)
              (length messages) 0%nat 0%float 0%nat no_event false
              (trace c ++ [StartThread]) ltac:(lia))
    as (A & B & _).
  split; [exact A|]. etransitivity; [exact B|]. reflexivity.
Qed.

Ltac app_fields :=
  cbn [App.world App.orphans App._queue_widget App._queue_paths
       App._current_idx App._scrubbing App._pos_var App._vol_var
       App._duration App._play_btn_ref App.screen App.with_world
       App.with_orphans App.show App.with_queue App.with_queue_paths
       App.with_current
       App.with_duration fst snd items _items _playing _selected
       clear_playing set_playing] in *.

(** X18. At the end of the queue [_on_track_finished] clears the
    current index and the playing mark and leaves the player alone, and
    the next [_play_pause] then starts the first track; [_skip_next] at
    the end of the queue stops the player instead. *)
Theorem queue_end_then_play_restarts (a : App.t) (s0 steps : list float) :
  items (App._queue_widget a) <> [] ->
  Z.of_nat (length (items (App._queue_widget a))) <= App._current_idx a + 1 ->
  _state (player (App.world a)) = STOPPED ->
  let a' := snd (App._on_track_finished mido_MidiFile os_path_basename s0 a) in
  App._current_idx a' = -1
  /\ _playing (App._queue_widget a') = -1
  /\ items (App._queue_widget a') = items (App._queue_widget a)
  /\ App.world a' = App.world a
  /\ App._play_pause mido_MidiFile os_path_basename steps a'
     = App._play_track mido_MidiFile os_path_basename 0 steps a'
  /\ (let b := snd (App._skip_next mido_MidiFile os_path_basename s0 a) in
      App._current_idx b = -1
      /\ _state (player (App.world b)) = STOPPED
      /\ _stop_flag (player (App.world b)) = true).
Proof.
  intros Hne Hlen Hst. cbv zeta.
  destruct a as [w orph q qp cur scr pv vv dur btn scrn]. app_fields.
  unfold App._on_track_finished, App._skip_next, App.button,
    App.player_call.
  cbv zeta. unfold items in *. destruct btn; app_fields.
  all: destruct (Z.ltb_spec (cur + 1) (Z.of_nat (length (_items q))))
    as [|_]; [lia|].
  all: destruct (_items q) as [|p0 ps] eqn:E; [congruence|].
  all: app_fields; repeat split; try reflexivity; try exact E.
  all: unfold App._play_pause; app_fields; rewrite Hst; unfold items;
    app_fields; rewrite ?E; reflexivity.
Qed.

(** X19. [_on_vol_slide] at a slider value [v] in 0..127 shows [v] and
    sets the gain [v / 127], which is in [0, 1] and is stored as it is
    (1.0 at 127 and 0.0 at 0); nothing else of the player changes. *)
Theorem vol_slide_sets_the_gain (a : App.t) (val : option float) (v : Z) :
  match val with
  | Some f => Py.int_of_float f
  | None => ret (App._vol_var a)
  end = inr v ->
  0 <= v <= 127 ->
  let r := App._on_vol_slide mido_MidiFile val a in
  fst r = inr tt
  /\ slider_gain v (_volume (player (App.world (snd r))))
  /\ App.screen (snd r) = App.screen a ++ [App.VolumeLabel v]
  /\ with_volume (_volume (player (App.world a)))
       (player (App.world (snd r))) = player (App.world a).
Proof.
  intros Hv Hr. cbv zeta. unfold App._on_vol_slide. rewrite Hv.
  destruct (slider_gain_exists v Hr) as [gain Hg].
  pose proof Hg as (Hd & _ & _ & Hclamp & _).
  cbn [App.show]. rewrite Hd.
  unfold App.player_call.
  cbn [fst snd App.world App.with_world App.screen step call set_volume
       player]. rewrite Hclamp.
  cbn [_volume with_volume]. app_fields.
  split; [reflexivity|]. split; [exact Hg|]. split; [reflexivity|].
  destruct (player (App.world a)); reflexivity.
Qed.

Lemma pop_shifts {A} (l : list A) (j k : nat) (d : A) :
  (j <= k)%nat -> (j < length l)%nat ->
  nth k (firstn j l ++ skipn (S j) l) d = nth (S k) l d.
Proof.
  revert j k. induction l as [|x l IH]; intros j k Hjk Hj; cbn in Hj; [lia|].
  destruct j as [|j].
  - cbn. reflexivity.
  - destruct k as [|k]; [lia|]. cbn [firstn skipn app nth].
    apply IH; lia.
Qed.

(** X20. The App is not told when a row is removed. After the removal
    of the current row or one before it the current index is what it
    was, the track that was to be next sits at the current index, and
    [_on_track_finished] goes on with the one after it: one track is
    skipped. *)
Theorem removal_makes_the_queue_skip (a : App.t) (j : nat) (steps : list float) :
  let paths := items (App._queue_widget a) in
  Z.of_nat j <= App._current_idx a ->
  App._current_idx a + 2 < Z.of_nat (length paths) ->
  let a' := App.click_remove j a in
  let cur := Z.to_nat (App._current_idx a) in
  App._current_idx a' = App._current_idx a
  /\ length (items (App._queue_widget a')) = (length paths - 1)%nat
  /\ nth cur (items (App._queue_widget a')) [] = nth (cur + 1) paths []
  /\ nth (cur + 1) (items (App._queue_widget a')) [] = nth (cur + 2) paths []
  /\ App._on_track_finished mido_MidiFile os_path_basename steps a'
     = App._play_track mido_MidiFile os_path_basename
         (App._current_idx a + 1) steps (App.button App.ShowPlay a').
Proof.
  intros paths Hc Hl a' cur. subst paths a' cur.
  unfold App.click_remove, _remove, items in *.
  destruct a as [w orph q qp ci scr pv vv dur btn scrn]. app_fields.
  assert (Hj : (j < length (_items q))%nat) by lia.
  apply Nat.ltb_lt in Hj. rewrite Hj. apply Nat.ltb_lt in Hj.
  assert (Len : length (firstn j (_items q) ++ skipn (S j) (_items q))
                = (length (_items q) - 1)%nat).
  { rewrite length_app, length_firstn, length_skipn. lia. }
  split; [reflexivity|]. split; [exact Len|]. split; [|split].
  - replace (Z.to_nat ci + 1)%nat with (S (Z.to_nat ci)) by lia.
    apply pop_shifts; lia.
  - replace (Z.to_nat ci + 2)%nat with (S (Z.to_nat ci + 1)) by lia.
    apply pop_shifts; lia.
  - unfold App._on_track_finished, App.button, items. cbv zeta.
    destruct btn; app_fields; rewrite Len.
    all: destruct (Z.ltb_spec (ci + 1) (Z.of_nat (length (_items q) - 1)))
      as [_|]; [reflexivity|lia].
Qed.

(** X21. [_open_files] appends the chosen paths, in order, to the queue
    and to [_queue_paths], and changes neither the current track nor
    the player: the two lists stay equal when they were. A removal
    takes the path from the queue only, so after one [_queue_paths] is
    longer than the queue. *)
Theorem open_files_appends (a : App.t) (paths : list (list byte)) :
  let a' := App._open_files paths a in
  items (App._queue_widget a') = items (App._queue_widget a) ++ paths
  /\ App._queue_paths a' = App._queue_paths a ++ paths
  /\ App._current_idx a' = App._current_idx a
  /\ _playing (App._queue_widget a') = _playing (App._queue_widget a)
  /\ App.world a' = App.world a
  /\ (App._queue_paths a = items (App._queue_widget a) ->
      App._queue_paths a' = items (App._queue_widget a')
      /\ forall j, (j < length (items (App._queue_widget a')))%nat ->
           App._queue_paths (App.click_remove j a') = App._queue_paths a'
           /\ (length (items (App._queue_widget (App.click_remove j a')))
               < length (App._queue_paths (App.click_remove j a')))%nat).
Proof.
  cbv zeta. unfold App._open_files.
  set (f := fun (a : App.t) (p : list byte) =>
              App.with_queue_paths (App._queue_paths a ++ [p])
                (App.with_queue (add p (App._queue_widget a)) a)).
  assert (H : forall ps b,
             items (App._queue_widget (fold_left f ps b))
             = items (App._queue_widget b) ++ ps
             /\ App._queue_paths (fold_left f ps b) = App._queue_paths b ++ ps
             /\ App._current_idx (fold_left f ps b) = App._current_idx b
             /\ _playing (App._queue_widget (fold_left f ps b))
                = _playing (App._queue_widget b)
             /\ App.world (fold_left f ps b) = App.world b).
  { induction ps as [|p ps IH]; intros b; cbn [fold_left].
    - rewrite !app_nil_r. auto.
    - destruct (IH (f b p)) as (I1 & I2 & I3 & I4 & I5).
      rewrite I1, I2, I3, I4, I5. unfold f, add, items.
      cbn [App.with_queue_paths App.with_queue App._queue_widget
           App._queue_paths App._current_idx App.world _items _playing].
      rewrite <- !app_assoc. auto. }
  destruct (H paths a) as (H1 & H2 & H3 & H4 & H5).
  set (a1 := fold_left f paths a) in *.
  assert (K : forall b,
             App._queue_paths b = items (App._queue_widget b) ->
             forall j, (j < length (items (App._queue_widget b)))%nat ->
               App._queue_paths (App.click_remove j b) = App._queue_paths b
               /\ (length (items (App._queue_widget (App.click_remove j b)))
                   < length (App._queue_paths (App.click_remove j b)))%nat).
  { intros b Hb j Hj. unfold App.click_remove, _remove, items in *.
    cbn [App.with_queue App._queue_paths App._queue_widget _items].
    split; [reflexivity|]. rewrite Hb.
    apply Nat.ltb_lt in Hj. rewrite Hj. apply Nat.ltb_lt in Hj.
    rewrite length_app, length_firstn, length_skipn. lia. }
  assert (E : App._queue_paths a = items (App._queue_widget a) ->
              App._queue_paths a1 = items (App._queue_widget a1)).
  { intros Ha. rewrite H1, H2, Ha. reflexivity. }
  destruct paths as [|p ps].
  - repeat (split; [assumption|]). intros Ha. split; [auto|]. apply K; auto.
  - destruct (App._current_idx (App.show [App.StatusInfo (App.Added (length (p :: ps)))]
              a1) =? -1);
      cbn [App.show App._queue_widget App._queue_paths App._current_idx
           App.world];
      (repeat (split; [assumption|])); intros Ha;
      (split; [auto|]); intros j Hj;
      apply (K a1 (E Ha) j) in Hj; exact Hj.
Qed.
End WithSystem.

End AppFacts.

Module ExtraWitnesses.

Local Open Scope float_scope.

Lemma stop_ends_the_loop_witness :
  (let c := spawned (playing five 4) in
   let c' := exec one_file c (Call CStop :: map Tick (repeat 100 6)) in
   at_point (loop c') = Done
   /\ _state (player c') = STOPPED
   /\ _pos (player c') = 0
   /\ sent_count (trace c')
      = (sent_count (trace c)
         + match at_point (loop c) with Emit => 1 | _ => 0 end)%nat)
  /\ (let c' := exec one_file stuck (Call CSkip :: map Tick (repeat 100 6)) in
      at_point (loop c') = Crashed ValueError
      /\ player c' = fst (call one_file CSkip (player stuck))
      /\ _state (player c') = PLAYING
      /\ sent_count (trace c') = sent_count (trace stuck)
      /\ finished_count (trace c') = finished_count (trace stuck)).
Proof.
  split.
  - apply (RunFacts.stop_ends_the_loop one_file (spawned (playing five 4))
             CStop (repeat 100 6)).
    + left. reflexivity.
    + reflexivity.
    + reflexivity.
    + reflexivity.
    + reflexivity.
    + cbn. lia.
    + reflexivity.
  - apply (RunFacts.stop_ends_the_loop one_file stuck CSkip (repeat 100 6)).
    + right. reflexivity.
    + reflexivity.
    + reflexivity.
    + reflexivity.
    + reflexivity.
    + cbn. lia.
    + reflexivity.
Defined.

Lemma pause_holds_the_loop_witness :
  let c := spawned (playing five 4) in
  let c' := exec one_file c (Call CPause :: map Tick (repeat 100 9)) in
  (sent_count (trace c')
   <= sent_count (trace c)
      + past_gate (_stop_flag (player c)) (at_point (loop c)))%nat
  /\ (sent_count (trace c') <= sent_count (trace c) + 1)%nat
  /\ (at_point (loop c) = WaitGate ->
      loop c' = loop c /\ trace c' = trace c ++ [AllSoundOff]).
Proof.
  apply (RunFacts.pause_holds_the_loop one_file (spawned (playing five 4))
           (repeat 100 9)).
  reflexivity.
Defined.

Lemma five_due : forall e, In e five -> due 200 (100 - 0) e.
Proof.
  intros e H. unfold five in H. cbn [In] in H.
  repeat (destruct H as [<-|H]; [reflexivity|]). contradiction.
Defined.

Lemma resume_catches_up_witness :
  let p := playing five 4 in
  let rest := skipn (_find_index (_messages p) (_pos p)) (_messages p) in
  let c := exec one_file (spawned p)
             (Tick 100 :: Call CPause :: map Tick [150; 150; 150; 199]
              ++ Call CPlay :: ticks (10 * length rest) 200) in
  at_point (loop c) = Done
  /\ trace c
     = AllSoundOff :: flat_map (played p) rest
       ++ AllSoundOff :: (if on_finished p then [OnFinished] else []).
Proof.
  apply (RunFacts.resume_catches_up one_file (playing five 4) 100
           [150; 150; 150; 199] 200).
  - reflexivity.
  - reflexivity.
  - reflexivity.
  - reflexivity.
  - reflexivity.
  - reflexivity.
  - cbn. lia.
  - discriminate.
  - exact five_due.
Defined.

Lemma loop_dies_only_in_sleep_witness :
  let c := spawned (playing endless infinity) in
  let schedule := Call (CSeek infinity) :: ticks 7 100 in
  let c' := exec one_file c schedule in
  F64.le 0 (_volume (player c')) /\ F64.le (_volume (player c')) 1
  /\ (forall e, at_point (loop c') = Crashed e -> e = ValueError)
  /\ (is_Crashed (at_point (loop c')) = true <->
      exists before now after,
        schedule = before ++ Tick now :: after
        /\ nan_delay now (player (exec one_file c before))
             (loop (exec one_file c before)) = true).
Proof.
  apply (RunFacts.loop_dies_only_in_sleep one_file
           (spawned (playing endless infinity))
           (Call (CSeek infinity) :: ticks 7 100)); reflexivity.
Defined.

Lemma loop_sends_only_the_sequence_witness :
  let c := exec one_file (spawned (playing five 4)) seek_schedule in
  Forall (sourced (l_messages (loop c))) (trace c)
  /\ (forallb (fun a => negb (is_CLoad a)) seek_schedule = true ->
      l_messages (loop c) = [] \/ l_messages (loop c) = _messages (playing five 4)).
Proof.
  apply (RunFacts.loop_sends_only_the_sequence one_file (playing five 4)
           seek_schedule); reflexivity.
Defined.

Lemma find_index_mono_witness :
  (_find_index five 1.5 <= _find_index five 3.5)%nat.
Proof.
  apply (RunFacts.find_index_mono five 1.5 3.5). reflexivity.
Defined.

Lemma volume_never_amplifies_witness :
  exists v,
    _apply_volume 0.5 [xb0; x07; x7f; x00] = inr [xb0; x07; v]
    /\ (byte_int v <= byte_int x7f)%Z
    /\ (byte_int v <= 127)%Z
    /\ (0.5 = 1 -> byte_int v = Z.min 127 (byte_int x7f))
    /\ (0.5 = 0 -> byte_int v = 0%Z).
Proof.
  apply (GainFacts.volume_never_amplifies 0.5 xb0 x07 x7f [x00]);
    reflexivity.
Defined.

Lemma load_establishes_invariants_witness :
  let p' := snd (load one_file [x01] (playing five 4)) in
  _duration p' = 0x1.8000000000001p+0
  /\ F64.le 0 (_duration p')
  /\ nondecreasing (map fst (_messages p'))
  /\ Forall (fun e => F64.le 0 (fst e) /\ F64.le (fst e) (_duration p'))
            (_messages p')
  /\ _find_index (_messages p') (_pos p') = 0%nat.
Proof.
  apply (LoadFacts.load_establishes_invariants one_file [x01]
           (playing five 4) tempo_example 0x1.8000000000001p+0).
  - reflexivity.
  - reflexivity.
  - repeat constructor; discriminate.
  - vm_compute. reflexivity.
Defined.

Lemma time_depends_on_tick_only_witness :
  exists time_of : Z -> float,
    time_of 0%Z = 0
    /\ two_tracks_out
       = flat_map (timed time_of)
           (sort_ticks (merge_tracks (tracks two_tracks))).
Proof.
  apply (TickFacts.time_depends_on_tick_only two_tracks two_tracks_out).
  - reflexivity.
  - repeat constructor; discriminate.
  - vm_compute. reflexivity.
Defined.

Lemma note_due : forall e,
  In e [(0x1.8000000000001p+0, note_on)] -> due 200 (100 - 0) e.
Proof.
  intros e H. cbn [In] in H.
  repeat (destruct H as [<-|H]; [reflexivity|]). contradiction.
Defined.

Lemma play_track_plays_the_file_witness :
  let a := queued [[x01]] (-1) in
  let r := App._play_track one_file whole_path 0 (repeat 0 6) a in
  let w := App.world (snd r) in
  let messages := [(0x1.8000000000001p+0, note_on)] in
  fst r = inr tt
  /\ App._current_idx (snd r) = 0%Z
  /\ _playing (App._queue_widget (snd r)) = 0%Z
  /\ App.orphans (snd r) = App.orphans a
  /\ loop w = thread_init
  /\ _state (player w) = PLAYING
  /\ _messages (player w) = messages
  /\ slider_gain (App._vol_var a) (_volume (player w))
  /\ (sent_count (trace w) <= sent_count (trace (App.world a)) + 1)%nat
  /\ (forall now0 now,
        (forall e, In e messages -> due now (now0 - 0) e) ->
        let c := exec one_file w
                   (Tick now0 :: ticks (10 * length messages + 3) now) in
        at_point (loop c) = Done
        /\ trace c
           = trace w ++ flat_map (played (player w)) messages
             ++ AllSoundOff
                :: (if on_finished (player w) then [OnFinished] else [])).
Proof.
  apply (AppFacts.play_track_plays_the_file one_file whole_path
           (queued [[x01]] (-1)) 0 (repeat 0 6) tempo_example
           [(0x1.8000000000001p+0, note_on)]).
  - cbn. lia.
  - reflexivity.
  - reflexivity.
  - repeat constructor; discriminate.
  - vm_compute. reflexivity.
  - cbn. lia.
  - reflexivity.
  - reflexivity.
  - reflexivity.
  - reflexivity.
  - cbn. lia.
Defined.

Lemma unloadable_file_blocks_the_queue_witness :
  let a := queued [[x01]; [x02]] 0 in
  (forall steps,
      let r := App._skip_next one_file whole_path steps a in
      fst r = inr tt
      /\ App._current_idx (snd r) = App._current_idx a
      /\ App._queue_widget (snd r) = App._queue_widget a
      /\ _state (player (App.world (snd r))) = STOPPED
      /\ App.screen (snd r)
         = App.screen a ++ [App.StatusErr (App.LoadError (FileError 2))])
  /\ (forall steps,
        let r := App._on_track_finished one_file whole_path steps a in
        fst r = inr tt
        /\ App._current_idx (snd r) = App._current_idx a
        /\ App._queue_widget (snd r) = App._queue_widget a
        /\ _state (player (App.world (snd r))) = STOPPED)
  /\ (forall presses : list (list float),
        App._current_idx
          (fold_left (fun a steps =>
                        snd (App._skip_next one_file whole_path steps a))
             presses a)
        = App._current_idx a).
Proof.
  apply (AppFacts.unloadable_file_blocks_the_queue one_file whole_path
           (queued [[x01]; [x02]] 0) (FileError 2)).
  - cbn. lia.
  - reflexivity.
Defined.

Lemma queue_end_then_play_restarts_witness :
  let a := queued [[x01]] 0 in
  let a' := snd (App._on_track_finished one_file whole_path [] a) in
  App._current_idx a' = (-1)%Z
  /\ _playing (App._queue_widget a') = (-1)%Z
  /\ items (App._queue_widget a') = items (App._queue_widget a)
  /\ App.world a' = App.world a
  /\ App._play_pause one_file whole_path (repeat 0 6) a'
     = App._play_track one_file whole_path 0 (repeat 0 6) a'
  /\ (let b := snd (App._skip_next one_file whole_path [] a) in
      App._current_idx b = (-1)%Z
      /\ _state (player (App.world b)) = STOPPED
      /\ _stop_flag (player (App.world b)) = true).
Proof.
  apply (AppFacts.queue_end_then_play_restarts one_file whole_path
           (queued [[x01]] 0) [] (repeat 0 6)).
  - discriminate.
  - cbn. lia.
  - reflexivity.
Defined.

Lemma vol_slide_sets_the_gain_witness :
  let a := queued [[x01]] 0 in
  let r := App._on_vol_slide one_file (Some 63.75) a in
  fst r = inr tt
  /\ slider_gain 63 (_volume (player (App.world (snd r))))
  /\ App.screen (snd r) = App.screen a ++ [App.VolumeLabel 63]
  /\ with_volume (_volume (player (App.world a)))
       (player (App.world (snd r))) = player (App.world a).
Proof.
  apply (AppFacts.vol_slide_sets_the_gain one_file (queued [[x01]] 0)
           (Some 63.75) 63).
  - reflexivity.
  - lia.
Defined.

Lemma removal_makes_the_queue_skip_witness :
  let a := queued [[x01]; [x02]; [x03]; [x04]] 1 in
  let paths := items (App._queue_widget a) in
  let a' := App.click_remove 0 a in
  let cur := Z.to_nat (App._current_idx a) in
  App._current_idx a' = App._current_idx a
  /\ length (items (App._queue_widget a')) = (length paths - 1)%nat
  /\ nth cur (items (App._queue_widget a')) [] = nth (cur + 1) paths []
  /\ nth (cur + 1) (items (App._queue_widget a')) [] = nth (cur + 2) paths []
  /\ App._on_track_finished one_file whole_path [] a'
     = App._play_track one_file whole_path (App._current_idx a + 1) []
         (App.button App.ShowPlay a').
Proof.
  apply (AppFacts.removal_makes_the_queue_skip one_file whole_path
           (queued [[x01]; [x02]; [x03]; [x04]] 1) 0 []).
  - cbn. lia.
  - cbn. lia.
Defined.

Lemma stop_can_lose_the_race_witness :
  let c := spawned (playing five 4) in
  let c' := exec one_file c
              (Call CSkip :: map Tick (repeat 100 6) ++ [Call CStopLocked]) in
  at_point (loop c') = Done
  /\ _state (player c') = STOPPED
  /\ finished_count (trace c') = S (finished_count (trace c)).
Proof.
  apply (RunFacts.stop_can_lose_the_race one_file (spawned (playing five 4))
           (repeat 100 6)).
  - reflexivity.
  - reflexivity.
  - reflexivity.
  - reflexivity.
  - reflexivity.
  - reflexivity.
  - reflexivity.
  - cbn. lia.
Defined.

Lemma stop_then_play_keeps_the_thread_witness :
  let c := spawned (playing five 4) in
  exec one_file c [Call CStop; Call CPlay]
  = {| player := with_pos 0 (player c); loop := loop c;
       trace := trace c ++ [AllSoundOff; StartThread] |}.
Proof.
  apply (RunFacts.stop_then_play_keeps_the_thread one_file
           (spawned (playing five 4))); reflexivity.
Defined.

End ExtraWitnesses.
